(** * A shallow embedding of the Dota2 tournament bot (bot.py)

    The bot keeps three MongoDB collections (players, tournaments, queue)
    and drives an elimination tournament from chat commands.  This file
    embeds the tournament commands ([createtourney], [addteam],
    [starttourney], [matchresult]), the pairing helpers
    ([create_round_matches], [try_pair_pending]) and the rating update
    ([adjust_elo_for_match]) as functions over an explicit database state,
    and proves properties of them.  Its last parts embed the commands on
    one profile ([register], [profile], [setelo], [resetelo]),
    [addteam] with the display names of the members, [showteams], the
    lobby queue of the buttons and [make_match_id].

    Modelling choices, all visible in the definitions below:
    - a collection is a finite map keyed by the field it is queried by
      (tournaments by ["name"], players by ["discord_id"]);
    - the ["teams"] sub-document is an association list: key order is what
      [list(teams.keys())] feeds to the pairing;
    - Python floats are binary64, the type [float] of the kernel;
    - [random.shuffle] and [random.getrandbits] are read from an injected
      source indexed by a draw counter kept in the state;
    - the tournament commands leave out display names and the replies'
      wording; a reply is a constructor of [Reply].
    Team names are assumed to be valid MongoDB field names (non-empty, no
    dot): [addteam] writes the roster at the path [teams.<name>]; the
    theorems on what [addteam] accepts state it with [field_name]. *)

From Stdlib Require Import ZArith Floats.
From stdpp Require Import base option list gmap strings pretty.

Set Default Proof Using "Type".

Local Open Scope string_scope.
Local Open Scope list_scope.

(** ** Python numbers *)

Module PyNum.

Local Open Scope Z_scope.

(** What a Python expression can raise in the code embedded here. *)
Inductive PyError :=
  | ZeroDivisionError
  | OverflowError
  | ValueError
  | KeyError.

Inductive Res (A : Type) :=
  | Ok (a : A)
  | Raise (e : PyError).
Arguments Ok {A} a.
Arguments Raise {A} e.

#[global] Instance Res_bind : MBind Res := λ A B k m,
  match m with
  | Ok a => k a
  | Raise e => Raise e
  end.

(** [float(z)]: the nearest double, ties to even. *)
Definition Z2F (z : Z) : float := SF2Prim (binary_normalize prec emax z 0 false).

(** An [int] operand of a mixed int/float operation is converted first;
    the conversion raises when the integer is beyond the doubles, that is
    when rounding it does not give a finite double. *)
Definition int_to_float (z : Z) : Res float :=
  let f := Z2F z in
  if is_finite f then Ok f else Raise OverflowError.

(** [a / b] on two [int]s: the exact quotient, correctly rounded, or an
    [OverflowError] when that is no finite double.  The quotient is taken
    with 64 or more significant bits and a sticky bit, which
    [binary_normalize] then rounds once. *)
Definition int_truediv (a b : Z) : Res float :=
  if b =? 0 then Raise ZeroDivisionError
  else
    let negative := xorb (a <? 0) (b <? 0) in
    let n := Z.abs a in
    let d := Z.abs b in
    let s := Z.max 0 (64 + Z.log2_up d - Z.log2 n) in
    let q := (n * 2 ^ s) / d in
    let sticky := if (n * 2 ^ s) mod d =? 0 then 0 else 1 in
    let m := 2 * q + sticky in
    let f := SF2Prim (binary_normalize prec emax
                        (if negative then - m else m) (- (s + 1)) negative) in
    if is_finite f then Ok f else Raise OverflowError.

(** [x / y] on floats raises on a zero divisor. *)
Definition float_truediv (x y : float) : Res float :=
  if (y =? 0)%float then Raise ZeroDivisionError else Ok (x / y)%float.

(** [10 ** w] for a float [w], as CPython's [float_pow] treats the base
    10.0: a zero, NaN or infinite exponent is answered before the C library
    is called; otherwise the result is that of [pow], and an infinite one
    is an [OverflowError] (an underflow to zero is not an error). *)
Definition pow10 (libm_pow : float -> float -> float) (w : float) : Res float :=
  if (w =? 0)%float then Ok 1%float
  else if is_nan w then Ok w
  else if is_infinity w then Ok (if (0 <? w)%float then infinity else 0%float)
  else
    let r := libm_pow 10%float w in
    if is_infinity r then Raise OverflowError else Ok r.

(** [round(x)] with one argument: the nearest integer, ties to even. *)
Definition py_round (x : float) : Res Z :=
  match Prim2SF x with
  | S754_zero _ => Ok 0
  | S754_infinity _ => Raise OverflowError
  | S754_nan => Raise ValueError
  | S754_finite s m e =>
      let v :=
        match e with
        | Z0 => Zpos m
        | Zpos p => Zpos m * 2 ^ Zpos p
        | Zneg p =>
            let d := 2 ^ Zpos p in
            let q := Zpos m / d in
            let r := Zpos m mod d in
            if 2 * r <? d then q
            else if d <? 2 * r then q + 1
            else if Z.even q then q else q + 1
        end in
      Ok (if s then - v else v)
  end.

End PyNum.
Import PyNum.

(** ** Documents *)

Inductive Bracket := upper | lower.

Record Match := mkMatch {
  match_id : string;
  teamA : string;
  teamB : option string;
  winner : option string;
  bracket : Bracket;
  bye : bool
}.

Inductive Status := setup | running | finished.

Record Player := mkPlayer {
  wins : nat;
  losses : nat;
  elo : Z
}.

Record Tournament := mkTournament {
  teams : list (string * list Z);
  status : Status;
  pending_upper : list string;
  pending_lower : list string;
  matches : list Match;
  upper_rounds : list (list string);
  lower_rounds : list (list string);
  champion : option string
}.

Record World := mkWorld {
  tournaments : gmap string Tournament;
  players : gmap Z Player;
  draws : nat
}.

#[global] Instance Bracket_eq_dec : EqDecision Bracket.
Proof. solve_decision. Defined.
#[global] Instance Status_eq_dec : EqDecision Status.
Proof. solve_decision. Defined.
#[global] Instance Match_eq_dec : EqDecision Match.
Proof. solve_decision. Defined.
#[global] Instance Player_eq_dec : EqDecision Player.
Proof. solve_decision. Defined.

(** Field updates ([$set] on one field of a document). *)
Definition set_winner_field (w : option string) (m : Match) : Match :=
  mkMatch (match_id m) (teamA m) (teamB m) w (bracket m) (bye m).

Definition set_teams v (t : Tournament) : Tournament :=
  mkTournament v (status t) (pending_upper t) (pending_lower t) (matches t)
    (upper_rounds t) (lower_rounds t) (champion t).
Definition set_status v (t : Tournament) : Tournament :=
  mkTournament (teams t) v (pending_upper t) (pending_lower t) (matches t)
    (upper_rounds t) (lower_rounds t) (champion t).
Definition set_pending_upper v (t : Tournament) : Tournament :=
  mkTournament (teams t) (status t) v (pending_lower t) (matches t)
    (upper_rounds t) (lower_rounds t) (champion t).
Definition set_pending_lower v (t : Tournament) : Tournament :=
  mkTournament (teams t) (status t) (pending_upper t) v (matches t)
    (upper_rounds t) (lower_rounds t) (champion t).
Definition set_matches v (t : Tournament) : Tournament :=
  mkTournament (teams t) (status t) (pending_upper t) (pending_lower t) v
    (upper_rounds t) (lower_rounds t) (champion t).
Definition set_upper_rounds v (t : Tournament) : Tournament :=
  mkTournament (teams t) (status t) (pending_upper t) (pending_lower t) (matches t)
    v (lower_rounds t) (champion t).
Definition set_lower_rounds v (t : Tournament) : Tournament :=
  mkTournament (teams t) (status t) (pending_upper t) (pending_lower t) (matches t)
    (upper_rounds t) v (champion t).
Definition set_champion v (t : Tournament) : Tournament :=
  mkTournament (teams t) (status t) (pending_upper t) (pending_lower t) (matches t)
    (upper_rounds t) (lower_rounds t) v.

Definition set_tournaments v (w : World) : World := mkWorld v (players w) (draws w).
Definition set_players v (w : World) : World := mkWorld (tournaments w) v (draws w).
Definition set_draws v (w : World) : World := mkWorld (tournaments w) (players w) v.

(** [update_one({"name": name}, ...)]: the named document, when there is one. *)
Definition update_tournament (name : string) (f : Tournament -> Tournament)
    (w : World) : World :=
  set_tournaments (alter f name (tournaments w)) w.

(** Python truth of [m.get("winner")] and of [loser]: a non-empty string. *)
Definition truthy (o : option string) : bool :=
  match o with
  | Some s => negb (bool_decide (s = ""))
  | None => false
  end.

(** ** Players and ratings *)

Definition K_FACTOR : Z := 32.

Definition default_player : Player := mkPlayer 0 0 1200.

(** [ensure_player_doc(pid)]: insert the default profile when the player has
    none, and return the stored document. *)
Definition ensure_player_doc (discord_id : Z) (db : gmap Z Player)
    : gmap Z Player * Player :=
  match db !! discord_id with
  | None => (<[discord_id := default_player]> db, default_player)
  | Some doc => (db, doc)
  end.

(** The first loop of [adjust_elo_for_match]: [players[pid] = await
    ensure_player_doc(pid)] for every id, in order. *)
Fixpoint fetch_docs (pids : list Z) (db : gmap Z Player) (acc : gmap Z Player)
    : gmap Z Player * gmap Z Player :=
  match pids with
  | [] => (db, acc)
  | pid :: rest =>
      let '(db', doc) := ensure_player_doc pid db in
      fetch_docs rest db' (<[pid := doc]> acc)
  end.

Definition doc_elo (fetched : gmap Z Player) (pid : Z) : Res Z :=
  match fetched !! pid with
  | Some doc => Ok (elo doc)
  | None => Raise KeyError
  end.

Fixpoint sum_elo (fetched : gmap Z Player) (pids : list Z) : Res Z :=
  match pids with
  | [] => Ok 0%Z
  | p :: rest =>
      e ← doc_elo fetched p;
      s ← sum_elo fetched rest;
      Ok (e + s)%Z
  end.

Section Rating.

Variable libm_pow : float -> float -> float.

(** [sum(players[p]["elo"] for p in ids) / len(ids)] *)
Definition team_average (fetched : gmap Z Player) (ids : list Z) : Res float :=
  s ← sum_elo fetched ids;
  int_truediv s (Z.of_nat (length ids)).

(** [1 / (1 + 10 ** ((lose_avg - win_avg)/400))] *)
Definition expected_score (win_avg lose_avg : float) : Res float :=
  d ← float_truediv (lose_avg - win_avg)%float 400%float;
  p ← pow10 libm_pow d;
  float_truediv 1%float (1 + p)%float.

(** [round(old + k * (score - expected))] *)
Definition new_rating (old k : Z) (score expected : float) : Res Z :=
  fo ← int_to_float old;
  fk ← int_to_float k;
  py_round (fo + fk * (score - expected))%float.

Fixpoint rate_team (fetched : gmap Z Player) (k : Z) (score expected : float)
    (ids : list Z) : Res (list (Z * Z)) :=
  match ids with
  | [] => Ok []
  | pid :: rest =>
      old ← doc_elo fetched pid;
      new ← new_rating old k score expected;
      more ← rate_team fetched k score expected rest;
      Ok ((pid, new) :: more)
  end.

(** The list [updates]: winners first, then losers, every new rating
    computed from the fetched documents. *)
Definition compute_updates (fetched : gmap Z Player) (winner_ids loser_ids : list Z)
    (k : Z) : Res (list (Z * Z)) :=
  win_avg ← team_average fetched winner_ids;
  lose_avg ← team_average fetched loser_ids;
  expected_win ← expected_score win_avg lose_avg;
  let expected_lose := (1 - expected_win)%float in
  ws ← rate_team fetched k 1%float expected_win winner_ids;
  ls ← rate_team fetched k 0%float expected_lose loser_ids;
  Ok (ws ++ ls).

Definition record_win (new_elo : Z) (doc : Player) : Player :=
  mkPlayer (S (wins doc)) (losses doc) new_elo.
Definition record_loss (new_elo : Z) (doc : Player) : Player :=
  mkPlayer (wins doc) (S (losses doc)) new_elo.

(** The last loop: one [update_one] per entry of [updates].  Every store
    is taken to succeed: a new rating outside the 64-bit integers, which
    the driver refuses with an [OverflowError], is outside this model. *)
Fixpoint persist (winner_ids : list Z) (updates : list (Z * Z)) (db : gmap Z Player)
    : gmap Z Player :=
  match updates with
  | [] => db
  | (pid, new_elo) :: rest =>
      let db' :=
        if bool_decide (pid ∈ winner_ids)
        then alter (record_win new_elo) pid db
        else alter (record_loss new_elo) pid db in
      persist winner_ids rest db'
  end.

(** [adjust_elo_for_match]: the player collection afterwards, and the
    exception when one is raised (the profiles created by the first loop
    stay in that case). *)
Definition adjust_elo_for_match (winner_ids loser_ids : list Z) (k : Z)
    (db : gmap Z Player) : gmap Z Player * option PyError :=
  let '(db1, fetched) := fetch_docs (winner_ids ++ loser_ids) db ∅ in
  match compute_updates fetched winner_ids loser_ids k with
  | Raise e => (db1, Some e)
  | Ok updates => (persist winner_ids updates db1, None)
  end.

End Rating.

(** ** Tournament helpers *)

(** [name in teams] and [teams[name]] on the ["teams"] sub-document. *)
Fixpoint teams_get (name : string) (ts : list (string * list Z)) : option (list Z) :=
  match ts with
  | [] => None
  | (k, v) :: rest => if bool_decide (k = name) then Some v else teams_get name rest
  end.

(** A team name that is one key of the ["teams"] sub-document when it is
    put in the update path [teams.<name>]: not empty, and without a dot, a
    dollar sign or a NUL character.  A dot would make the name a path of
    several keys. *)
Definition key_char (c : Ascii.ascii) : bool :=
  negb (Ascii.eqb c (Ascii.ascii_of_nat 46))
  && negb (Ascii.eqb c (Ascii.ascii_of_nat 36))
  && negb (Ascii.eqb c (Ascii.ascii_of_nat 0)).

Definition field_name (name : string) : bool :=
  negb (String.eqb name "") && forallb key_char (String.list_ascii_of_string name).

(** [$set teams.<name>] for a name that is one key ([field_name]): an
    existing key keeps its place and gets the new value, a new key goes
    last. *)
Fixpoint teams_set (name : string) (ids : list Z) (ts : list (string * list Z))
    : list (string * list Z) :=
  match ts with
  | [] => [(name, ids)]
  | (k, v) :: rest =>
      if bool_decide (k = name) then (k, ids) :: rest
      else (k, v) :: teams_set name ids rest
  end.

(** [list(teams.keys())] *)
Definition team_names (t : Tournament) : list string := (teams t).*1.

(** [find_match]: the first match carrying the id. *)
Fixpoint find_match_in (ms : list Match) (mid : string) : option Match :=
  match ms with
  | [] => None
  | m :: rest => if bool_decide (match_id m = mid) then Some m else find_match_in rest mid
  end.

Definition find_match (tourney : Tournament) (mid : string) : option Match :=
  find_match_in (matches tourney) mid.

(** [$set matches.$.winner] under the query ["matches.id": mid]: the
    positional operator is the first array element with that id. *)
Fixpoint set_winner_in (mid winner_team : string) (ms : list Match) : list Match :=
  match ms with
  | [] => []
  | m :: rest =>
      if bool_decide (match_id m = mid)
      then set_winner_field (Some winner_team) m :: rest
      else m :: set_winner_in mid winner_team rest
  end.

(** The elimination scan at the end of [try_pair_pending]. *)
Definition match_loser (m : Match) : option string :=
  if bool_decide (teamB m = winner m) then Some (teamA m) else teamB m.

Fixpoint eliminated (ms : list Match) : gset string :=
  match ms with
  | [] => ∅
  | m :: rest =>
      let later := eliminated rest in
      if bool_decide (bracket m = lower) && bool_decide (winner m ≠ None) && negb (bye m)
      then (if truthy (match_loser m)
            then match match_loser m with
                 | Some loser => {[ loser ]} ∪ later
                 | None => later
                 end
            else later)
      else later
  end.

(** [alive = [tm for tm in all_team_names if tm not in eliminated]] *)
Definition aliveTeams (t : Tournament) : list string :=
  filter (λ tm, tm ∉ eliminated (matches t)) (team_names t).

(** What a command answers.  [failure_of] reads an answer as one of the
    failure kinds of the engine's interface. *)
Inductive Reply :=
  | TournamentNotFound
  | MatchNotFound
  | AlreadyReported
  | TeamNamesNotFound
  | NeedTwoTeams
  | TournamentExists
  | Created
  | TeamAdded
  | Started (round : list Match)
  | ResultRecorded
  | TournamentFinished (champ : option string)
  | Raised (e : PyError).

Inductive Failure := NotFound | AlreadyExists | InvalidState | AlreadyResolved | Validation.

Definition failure_of (r : Reply) : option Failure :=
  match r with
  | TournamentNotFound | MatchNotFound => Some NotFound
  | AlreadyReported => Some AlreadyResolved
  | TeamNamesNotFound => Some Validation
  | NeedTwoTeams => Some InvalidState
  | TournamentExists => Some AlreadyExists
  | _ => None
  end.

Definition create_tournament_doc : Tournament :=
  mkTournament [] setup [] [] [] [] [] None.

Section Engine.

Variable libm_pow : float -> float -> float.
(** The random source: the [n]-th draw read as a match id, or as the
    permutation [random.shuffle] applies. *)
Variable make_match_id : nat -> string.
Variable shuffle : nat -> list string -> list string.

(** The pairing loop shared by the three places that pair a pool: take two
    teams off the front while two are left, then give a last one a bye.
    Returns the matches made and what is left of the pool. *)
Fixpoint pair_pool (tag : Bracket) (n : nat) (pool : list string)
    : list Match * list string :=
  match pool with
  | a :: b :: rest =>
      let '(ms, remaining) := pair_pool tag (S n) rest in
      (mkMatch (make_match_id n) a (Some b) None tag false :: ms, remaining)
  | [bye_team] =>
      ([mkMatch (make_match_id n) bye_team None (Some bye_team) tag true], [])
  | [] => ([], [])
  end.

(** [create_round_matches]: shuffle a copy, then [pop()] pairs off its end,
    that is off the front of the reversed list. *)
Definition create_round_matches (n : nat) (team_ids : list string) : list Match :=
  let shuffled := shuffle n team_ids in
  (pair_pool upper (S n) (reverse shuffled)).1.

(** The pairing part of [try_pair_pending], on the fetched document: every
    match is pushed to ["matches"] and, alone, as a round of its bracket;
    the pools are written back when a match was made. *)
Definition pair_pending (n : nat) (tourney : Tournament) : Tournament :=
  let '(ups, pu) := pair_pool upper n (pending_upper tourney) in
  let '(los, pl) := pair_pool lower (n + length ups) (pending_lower tourney) in
  let updated := negb (bool_decide (ups = []) && bool_decide (los = [])) in
  let t1 := set_matches (matches tourney ++ ups ++ los) tourney in
  let t2 := set_upper_rounds (upper_rounds t1 ++ ((λ m, [match_id m]) <$> ups)) t1 in
  let t3 := set_lower_rounds (lower_rounds t2 ++ ((λ m, [match_id m]) <$> los)) t2 in
  if updated then set_pending_lower pl (set_pending_upper pu t3) else t3.

(** The terminal check of [try_pair_pending]. *)
Definition declare_champion (t : Tournament) : Tournament :=
  match aliveTeams t with
  | [champ] => set_champion (Some champ) (set_status finished t)
  | _ => t
  end.

Definition matches_made (n : nat) (tourney : Tournament) : nat :=
  length (pair_pool upper n (pending_upper tourney)).1
  + length (pair_pool lower
              (n + length (pair_pool upper n (pending_upper tourney)).1)
              (pending_lower tourney)).1.

Definition try_pair_pending (tourney_name : string) (w : World) : World :=
  match tournaments w !! tourney_name with
  | None => w
  | Some tourney =>
      let t := declare_champion (pair_pending (draws w) tourney) in
      set_draws (draws w + matches_made (draws w) tourney)
        (set_tournaments (<[tourney_name := t]> (tournaments w)) w)
  end.

(** ** Commands *)

Definition createtourney (name : string) (w : World) : World * Reply :=
  match tournaments w !! name with
  | Some _ => (w, TournamentExists)
  | None =>
      (set_tournaments (<[name := create_tournament_doc]> (tournaments w)) w, Created)
  end.

(** The loop of [addteam] over the members, on the statistics of the
    players; the names of the documents, which this loop can change, are
    embedded with [Profiles.addteam]. *)
Definition ensure_players (ids : list Z) (db : gmap Z Player) : gmap Z Player :=
  foldl (λ db pid, (ensure_player_doc pid db).1) db ids.

Definition addteam (tourney_name team_name : string) (members : list Z) (w : World)
    : World * Reply :=
  match tournaments w !! tourney_name with
  | None => (w, TournamentNotFound)
  | Some tourney =>
      let w1 := set_players (ensure_players members (players w)) w in
      (update_tournament tourney_name
         (λ t, set_teams (teams_set team_name members (teams t)) t) w1,
       TeamAdded)
  end.

Definition starttourney (tourney_name : string) (w : World) : World * Reply :=
  match tournaments w !! tourney_name with
  | None => (w, TournamentNotFound)
  | Some tourney =>
      let names := team_names tourney in
      if bool_decide (length names < 2) then (w, NeedTwoTeams)
      else
        let ms := create_round_matches (draws w) names in
        let t1 := set_matches (matches tourney ++ ms) tourney in
        let t2 := set_pending_lower [] (set_pending_upper [] (set_status running t1)) in
        let t3 := set_upper_rounds (upper_rounds t2 ++ [match_id <$> ms]) t2 in
        (set_draws (draws w + 1 + length ms)
           (set_tournaments (<[tourney_name := t3]> (tournaments w)) w),
         Started ms)
  end.

Definition matchresult (tourney_name mid winner_team loser_team : string) (w : World)
    : World * Reply :=
  match tournaments w !! tourney_name with
  | None => (w, TournamentNotFound)
  | Some tourney =>
      match find_match tourney mid with
      | None => (w, MatchNotFound)
      | Some m =>
          if truthy (winner m) then (w, AlreadyReported)
          else
            match teams_get winner_team (teams tourney),
                  teams_get loser_team (teams tourney) with
            | Some winner_pids, Some loser_pids =>
                let t1 := set_matches (set_winner_in mid winner_team (matches tourney))
                            tourney in
                let t2 := set_pending_lower (pending_lower t1 ++ [loser_team]) t1 in
                let t3 := set_pending_upper (pending_upper t2 ++ [winner_team]) t2 in
                let w1 := set_tournaments (<[tourney_name := t3]> (tournaments w)) w in
                match adjust_elo_for_match libm_pow winner_pids loser_pids K_FACTOR
                        (players w1) with
                | (db, Some e) => (set_players db w1, Raised e)
                | (db, None) =>
                    let w2 := try_pair_pending tourney_name (set_players db w1) in
                    match tournaments w2 !! tourney_name with
                    | Some updated =>
                        if bool_decide (status updated = finished)
                        then (w2, TournamentFinished (champion updated))
                        else (w2, ResultRecorded)
                    | None => (w2, Raised KeyError)
                    end
                end
            | _, _ => (w, TeamNamesNotFound)
            end
      end
  end.

(** A command as data, and a run of commands from a state. *)
Inductive Command :=
  | CreateTourney (name : string)
  | AddTeam (tourney_name team_name : string) (members : list Z)
  | StartTourney (tourney_name : string)
  | MatchResult (tourney_name mid winner_team loser_team : string).

Definition exec (c : Command) (w : World) : World * Reply :=
  match c with
  | CreateTourney name => createtourney name w
  | AddTeam tn team ids => addteam tn team ids w
  | StartTourney tn => starttourney tn w
  | MatchResult tn mid wt lt => matchresult tn mid wt lt w
  end.

Definition run (cs : list Command) (w : World) : World :=
  foldl (λ w c, (exec c w).1) w cs.

(** ** The pairing loop *)

(** The teams a match carries. *)
Definition match_sides (m : Match) : list string :=
  teamA m :: option_list (teamB m).

Lemma list_pair_ind {A} (P : list A → Prop) :
  P [] → (∀ a, P [a]) → (∀ a b l, P l → P (a :: b :: l)) → ∀ l, P l.
Proof.
  intros Hnil Hone Htwo l.
  cut (P l ∧ ∀ a, P (a :: l)); [tauto|].
  induction l as [|b l [IH1 IH2]]; split; auto.
Qed.

Lemma pair_pool_cons2 tag n a b rest :
  pair_pool tag n (a :: b :: rest)
  = (mkMatch (make_match_id n) a (Some b) None tag false
       :: (pair_pool tag (S n) rest).1,
     (pair_pool tag (S n) rest).2).
Proof. simpl. by destruct (pair_pool tag (S n) rest). Qed.

Lemma pair_pool_drains tag n pool : (pair_pool tag n pool).2 = [].
Proof.
  revert n. induction pool as [| a | a b rest IH] using list_pair_ind; intros n;
    [done | done |].
  rewrite pair_pool_cons2. apply IH.
Qed.

Lemma pair_pool_length tag n pool :
  length (pair_pool tag n pool).1 = (length pool + 1) `div` 2.
Proof.
  revert n. induction pool as [| a | a b rest IH] using list_pair_ind; intros n;
    [done | done |].
  rewrite pair_pool_cons2. cbn [fst length]. rewrite IH.
  replace (S (S (length rest)) + 1) with (length rest + 1 + 1 * 2) by lia.
  rewrite Nat.div_add by lia. lia.
Qed.

Lemma pair_pool_byes tag n pool :
  length (filter (λ m, bye m = true) (pair_pool tag n pool).1) = length pool `mod` 2.
Proof.
  revert n. induction pool as [| a | a b rest IH] using list_pair_ind; intros n;
    [done | done |].
  rewrite pair_pool_cons2. cbn [fst]. rewrite filter_cons_False by (simpl; congruence).
  rewrite IH. cbn [length].
  replace (S (S (length rest))) with (length rest + 1 * 2) by lia.
  by rewrite Nat.Div0.mod_add.
Qed.

Lemma pair_pool_sides tag n pool :
  mjoin (match_sides <$> (pair_pool tag n pool).1) = pool.
Proof.
  revert n. induction pool as [| a | a b rest IH] using list_pair_ind; intros n;
    [done | done |].
  rewrite pair_pool_cons2. cbn. by rewrite IH.
Qed.

Lemma pair_pool_nil_iff tag n pool : (pair_pool tag n pool).1 = [] ↔ pool = [].
Proof.
  destruct pool as [|a [|b rest]]; [done | done |].
  rewrite pair_pool_cons2. done.
Qed.

(** Every match made is either an open match between two teams of the
    pool or a bye that its only team has already won. *)
Definition fresh_match (tag : Bracket) (m : Match) : Prop :=
  bracket m = tag ∧
  ((bye m = false ∧ winner m = None ∧ ∃ b, teamB m = Some b)
   ∨ (bye m = true ∧ teamB m = None ∧ winner m = Some (teamA m))).

Lemma pair_pool_fresh tag n pool m :
  m ∈ (pair_pool tag n pool).1 → fresh_match tag m.
Proof.
  revert n. induction pool as [| a | a b rest IH] using list_pair_ind; intros n.
  - by intros ?%elem_of_nil.
  - intros ->%list_elem_of_singleton. split; [done|]. right. done.
  - rewrite pair_pool_cons2. cbn [fst]. intros [->|Hin]%elem_of_cons.
    + split; [done|]. left. eauto.
    + by eapply IH.
Qed.

Lemma pair_pool_side_in_pool tag n pool m x :
  m ∈ (pair_pool tag n pool).1 → x ∈ match_sides m → x ∈ pool.
Proof.
  intros Hm Hx. rewrite <- (pair_pool_sides tag n pool).
  apply list_elem_of_join. exists (match_sides m). split; [done|].
  by apply list_elem_of_fmap_2.
Qed.

Lemma pair_pool_no_self tag n pool m :
  NoDup pool → m ∈ (pair_pool tag n pool).1 → teamB m ≠ Some (teamA m).
Proof.
  revert n. induction pool as [| a | a b rest IH] using list_pair_ind; intros n Hnd.
  - by intros ?%elem_of_nil.
  - by intros ->%list_elem_of_singleton.
  - rewrite pair_pool_cons2. cbn [fst].
    apply NoDup_cons in Hnd as [Ha Hnd]. apply NoDup_cons in Hnd as [Hb Hnd].
    intros [->|Hin]%elem_of_cons.
    + simpl. intros [= ->]. apply Ha. left.
    + by eapply IH.
Qed.

Lemma filter_none {A} (P : A → Prop) `{∀ x, Decision (P x)} (l : list A) :
  (∀ x, x ∈ l → ¬ P x) → filter P l = [].
Proof.
  induction l as [|a l IH]; intros Hl; [done|].
  rewrite filter_cons_False by (apply Hl; left).
  apply IH. intros x Hx. apply Hl. by right.
Qed.

Lemma pair_pool_once tag n pool x :
  NoDup pool → x ∈ pool →
  length (filter (λ m, x ∈ match_sides m) (pair_pool tag n pool).1) = 1.
Proof.
  revert n. induction pool as [| a | a b rest IH] using list_pair_ind; intros n Hnd Hx.
  - by apply elem_of_nil in Hx.
  - apply list_elem_of_singleton in Hx as ->. cbn [pair_pool fst].
    rewrite filter_cons_True; [done|]. cbn. left.
  - rewrite pair_pool_cons2. cbn [fst].
    apply NoDup_cons in Hnd as [Ha Hnd]. apply NoDup_cons in Hnd as [Hb Hnd].
    destruct (decide (x ∈ rest)) as [Hrest|Hrest].
    + rewrite filter_cons_False.
      * by apply IH.
      * cbn. intros [->|[->|?%elem_of_nil]%elem_of_cons]%elem_of_cons; try done.
        apply Ha. by right.
    + rewrite filter_cons_True.
      * cbn [length]. f_equal. apply length_zero_iff_nil.
        apply filter_none. intros m Hm Hside.
        apply Hrest. by eapply pair_pool_side_in_pool.
      * cbn. apply elem_of_cons in Hx as [->|Hx]; [left|].
        apply elem_of_cons in Hx as [->|Hx]; [right; left | done].
Qed.

Lemma pair_pool_ids tag n pool :
  match_id <$> (pair_pool tag n pool).1
  = make_match_id <$> seq n (length (pair_pool tag n pool).1).
Proof.
  revert n. induction pool as [| a | a b rest IH] using list_pair_ind; intros n;
    [done | done |].
  rewrite pair_pool_cons2. cbn. by rewrite IH.
Qed.

(** [ms] pairs off [pool]: half as many matches (rounded up), one bye
    exactly when the pool is odd, every team of the pool in exactly one
    match, nobody against itself, and a bye held and already won by its
    only team. *)
Definition pairs_off (pool : list string) (ms : list Match) : Prop :=
  length ms = (length pool + 1) `div` 2
  ∧ length (filter (λ m, bye m = true) ms) = length pool `mod` 2
  ∧ (∀ x, x ∈ pool → length (filter (λ m, x ∈ match_sides m) ms) = 1)
  ∧ (∀ m, m ∈ ms →
       teamA m ∈ pool
       ∧ teamB m ≠ Some (teamA m)
       ∧ (bye m = true → teamB m = None ∧ winner m = Some (teamA m))).

Lemma pair_pool_pairs_off tag n pool :
  NoDup pool → pairs_off pool (pair_pool tag n pool).1.
Proof.
  intros Hnd. repeat split.
  - apply pair_pool_length.
  - apply pair_pool_byes.
  - intros x Hx. by apply pair_pool_once.
  - eapply pair_pool_side_in_pool; [done|]. left.
  - by eapply pair_pool_no_self.
  - apply pair_pool_fresh in H as [_ [(Hb & _)|(_ & Hb & _)]]; congruence.
  - apply pair_pool_fresh in H as [_ [(Hb & _)|(_ & _ & Hw)]]; congruence.
Qed.

Lemma pairs_off_perm pool pool' ms :
  pool ≡ₚ pool' → pairs_off pool ms → pairs_off pool' ms.
Proof.
  intros Hp (Hlen & Hbye & Hone & Hm). repeat split.
  - by rewrite <- Hp.
  - by rewrite <- Hp.
  - intros x Hx. apply Hone. by rewrite Hp.
  - rewrite <- Hp. by apply Hm.
  - by apply Hm.
  - by apply Hm.
  - by apply Hm.
Qed.

(** C5. For a pool of N distinct team names, the pairing loop (as run on
    the pending pools, and as run by [create_round_matches] on a shuffled
    copy) makes ceil(N/2) matches, one bye exactly when N is odd; each team
    is in exactly one match, no team meets itself, and a bye has the
    unpaired team as teamA, no teamB and that team as winner. *)
Theorem pairing_covers_pool_once (tag : Bracket) (n : nat) (pool : list string) :
  NoDup pool →
  shuffle n pool ≡ₚ pool →
  pairs_off pool (pair_pool tag n pool).1
  ∧ pairs_off pool (create_round_matches n pool).
Proof.
  intros Hnd Hsh. split; [by apply pair_pool_pairs_off|].
  unfold create_round_matches.
  apply (pairs_off_perm (reverse (shuffle n pool))).
  - by rewrite reverse_Permutation.
  - apply pair_pool_pairs_off. by rewrite reverse_Permutation, Hsh.
Qed.

(** ** The pairing pass and the terminal check *)

Definition pools_empty (t : Tournament) : Prop :=
  pending_upper t = [] ∧ pending_lower t = [].

Definition round_of_each (ms : list Match) : list (list string) :=
  (λ m, [match_id m]) <$> ms.

Lemma pair_pending_eq n t :
  let ups := (pair_pool upper n (pending_upper t)).1 in
  let los := (pair_pool lower (n + length ups) (pending_lower t)).1 in
  pair_pending n t
  = mkTournament (teams t) (status t) [] [] (matches t ++ ups ++ los)
      (upper_rounds t ++ round_of_each ups) (lower_rounds t ++ round_of_each los)
      (champion t).
Proof.
  intros ups los. unfold pair_pending.
  pose proof (pair_pool_drains upper n (pending_upper t)) as Hu.
  pose proof (pair_pool_drains lower (n + length ups) (pending_lower t)) as Hl.
  pose proof (pair_pool_nil_iff upper n (pending_upper t)) as Hun.
  pose proof (pair_pool_nil_iff lower (n + length ups) (pending_lower t)) as Hln.
  subst ups los.
  destruct (pair_pool upper n (pending_upper t)) as [ups pu].
  cbn [fst snd] in Hu, Hl, Hun, Hln |- *.
  destruct (pair_pool lower (n + length ups) (pending_lower t)) as [los pl].
  cbn [fst snd] in Hl, Hln |- *. subst pu pl.
  destruct t as [ts st pu pl ms ur lr ch]. cbn in Hun, Hln |- *.
  repeat case_bool_decide; cbn; try done.
  unfold round_of_each.
  assert (pu = []) as -> by (by apply Hun).
  assert (pl = []) as -> by (by apply Hln).
  by subst ups los.
Qed.

Lemma pair_pending_pools_empty n t : pools_empty (pair_pending n t).
Proof. by rewrite pair_pending_eq. Qed.

Lemma declare_champion_teams t : teams (declare_champion t) = teams t.
Proof. unfold declare_champion. by destruct (aliveTeams t) as [|? [|??]]. Qed.
Lemma declare_champion_matches t : matches (declare_champion t) = matches t.
Proof. unfold declare_champion. by destruct (aliveTeams t) as [|? [|??]]. Qed.
Lemma declare_champion_pending_upper t :
  pending_upper (declare_champion t) = pending_upper t.
Proof. unfold declare_champion. by destruct (aliveTeams t) as [|? [|??]]. Qed.
Lemma declare_champion_pending_lower t :
  pending_lower (declare_champion t) = pending_lower t.
Proof. unfold declare_champion. by destruct (aliveTeams t) as [|? [|??]]. Qed.

Lemma declare_champion_alive t : aliveTeams (declare_champion t) = aliveTeams t.
Proof.
  unfold aliveTeams, team_names.
  by rewrite declare_champion_teams, declare_champion_matches.
Qed.

Lemma try_pair_pending_lookup tn w t :
  tournaments w !! tn = Some t →
  tournaments (try_pair_pending tn w) !! tn
  = Some (declare_champion (pair_pending (draws w) t)).
Proof.
  intros Ht. unfold try_pair_pending. rewrite Ht. cbn. apply lookup_insert_eq.
Qed.

Lemma try_pair_pending_other tn tn' w :
  tn ≠ tn' →
  tournaments (try_pair_pending tn w) !! tn' = tournaments w !! tn'.
Proof.
  intros Hne. unfold try_pair_pending.
  destruct (tournaments w !! tn); [|done]. cbn. by apply lookup_insert_ne.
Qed.

Lemma try_pair_pending_players tn w :
  players (try_pair_pending tn w) = players w.
Proof. unfold try_pair_pending. by destruct (tournaments w !! tn). Qed.

(** The document a report leaves before the pairing pass. *)
Definition record_result (mid winner_team loser_team : string) (t : Tournament)
    : Tournament :=
  set_pending_upper (pending_upper t ++ [winner_team])
    (set_pending_lower (pending_lower t ++ [loser_team])
       (set_matches (set_winner_in mid winner_team (matches t)) t)).

(** What [matchresult] does once its three checks have passed. *)
Lemma matchresult_accepted tn mid wt lt w t m wp lp :
  tournaments w !! tn = Some t →
  find_match t mid = Some m →
  truthy (winner m) = false →
  teams_get wt (teams t) = Some wp →
  teams_get lt (teams t) = Some lp →
  let t3 := record_result mid wt lt t in
  let w1 := set_tournaments (<[tn := t3]> (tournaments w)) w in
  matchresult tn mid wt lt w
  = match adjust_elo_for_match libm_pow wp lp K_FACTOR (players w) with
    | (db, Some e) => (set_players db w1, Raised e)
    | (db, None) =>
        let t4 := declare_champion (pair_pending (draws w) t3) in
        (try_pair_pending tn (set_players db w1),
         if bool_decide (status t4 = finished)
         then TournamentFinished (champion t4) else ResultRecorded)
    end.
Proof.
  intros Ht Hm Hw Hwp Hlp t3 w1. unfold matchresult.
  rewrite Ht, Hm, Hw, Hwp, Hlp. cbn zeta.
  change (players (set_tournaments _ w)) with (players w).
  destruct (adjust_elo_for_match libm_pow wp lp K_FACTOR (players w)) as [db [e|]];
    [done|].
  fold (record_result mid wt lt t). fold t3. fold w1.
  rewrite (try_pair_pending_lookup tn _ t3) by apply lookup_insert_eq.
  change (draws (set_players db _)) with (draws w).
  by destruct (bool_decide (status (declare_champion (pair_pending (draws w) t3))
                            = finished)).
Qed.

Lemma pass_pools_empty n t : pools_empty (declare_champion (pair_pending n t)).
Proof.
  split.
  - rewrite declare_champion_pending_upper. apply pair_pending_pools_empty.
  - rewrite declare_champion_pending_lower. apply pair_pending_pools_empty.
Qed.

Lemma try_pair_pending_pools_empty tn w t' :
  tournaments (try_pair_pending tn w) !! tn = Some t' → pools_empty t'.
Proof.
  destruct (tournaments w !! tn) as [t|] eqn:Ht.
  - rewrite (try_pair_pending_lookup tn w t Ht). intros [= <-].
    apply pass_pools_empty.
  - unfold try_pair_pending. rewrite Ht. congruence.
Qed.

(** What [starttourney] does on a tournament with two teams or more. *)
Definition started_doc (ms : list Match) (t : Tournament) : Tournament :=
  mkTournament (teams t) running [] [] (matches t ++ ms)
    (upper_rounds t ++ [match_id <$> ms]) (lower_rounds t) (champion t).

Lemma starttourney_started tn w t :
  tournaments w !! tn = Some t →
  (2 ≤ length (teams t))%nat →
  let ms := create_round_matches (draws w) (team_names t) in
  starttourney tn w
  = (mkWorld (<[tn := started_doc ms t]> (tournaments w)) (players w)
       (draws w + 1 + length ms),
     Started ms).
Proof.
  intros Ht Hlen ms. unfold starttourney. rewrite Ht.
  rewrite bool_decide_eq_false_2; [done|].
  unfold team_names. rewrite length_fmap. lia.
Qed.

Lemma starttourney_too_few tn w t :
  tournaments w !! tn = Some t →
  (length (teams t) < 2)%nat →
  starttourney tn w = (w, NeedTwoTeams).
Proof.
  intros Ht Hlen. unfold starttourney. rewrite Ht.
  rewrite bool_decide_eq_true_2; [done|].
  unfold team_names. by rewrite length_fmap.
Qed.

(** A command completes when it answers; the one way not to is an
    exception escaping it. *)
Definition completed (r : Reply) : Prop :=
  match r with
  | Raised _ => False
  | _ => True
  end.

Fixpoint run_completes (cs : list Command) (w : World) : Prop :=
  match cs with
  | [] => True
  | c :: rest =>
      completed (exec c w).2
      ∧ run_completes rest (exec c w).1
  end.

Definition all_pools_empty (w : World) : Prop :=
  ∀ tn t, tournaments w !! tn = Some t → pools_empty t.

Lemma matchresult_cases tn mid wt lt w :
  ((matchresult tn mid wt lt w).1 = w
   ∧ is_Some (failure_of (matchresult tn mid wt lt w).2))
  ∨ ∃ t m wp lp,
      tournaments w !! tn = Some t
      ∧ find_match t mid = Some m
      ∧ truthy (winner m) = false
      ∧ teams_get wt (teams t) = Some wp
      ∧ teams_get lt (teams t) = Some lp.
Proof.
  destruct (tournaments w !! tn) as [t|] eqn:Ht;
    [|left; unfold matchresult; by rewrite Ht].
  destruct (find_match t mid) as [m|] eqn:Hm;
    [|left; unfold matchresult; by rewrite Ht, Hm].
  destruct (truthy (winner m)) eqn:Hw;
    [left; unfold matchresult; by rewrite Ht, Hm, Hw|].
  destruct (teams_get wt (teams t)) as [wp|] eqn:Hwp;
    [|left; unfold matchresult; by rewrite Ht, Hm, Hw, Hwp].
  destruct (teams_get lt (teams t)) as [lp|] eqn:Hlp;
    [|left; unfold matchresult; by rewrite Ht, Hm, Hw, Hwp, Hlp].
  right. by exists t, m, wp, lp.
Qed.

Lemma matchresult_keeps_pools_empty tn mid wt lt w :
  all_pools_empty w →
  completed (matchresult tn mid wt lt w).2 →
  all_pools_empty (matchresult tn mid wt lt w).1.
Proof.
  intros Hw Hc.
  destruct (matchresult_cases tn mid wt lt w)
    as [[-> _]|(t & m & wp & lp & Ht & Hm & Hwin & Hwp & Hlp)]; [done|].
  rewrite (matchresult_accepted _ _ _ _ _ _ _ _ _ Ht Hm Hwin Hwp Hlp) in Hc |- *.
  destruct (adjust_elo_for_match libm_pow wp lp K_FACTOR (players w)) as [db [e|]];
    [done|].
  cbn [fst]. intros tn' t' Ht'.
  destruct (decide (tn = tn')) as [<-|Hne].
  - by eapply try_pair_pending_pools_empty.
  - rewrite try_pair_pending_other in Ht' by done. cbn in Ht'.
    rewrite lookup_insert_ne in Ht' by done. by eapply Hw.
Qed.

Lemma exec_keeps_pools_empty c w :
  all_pools_empty w →
  completed (exec c w).2 →
  all_pools_empty (exec c w).1.
Proof.
  intros Hw Hc. destruct c as [name | tn team ids | tn | tn mid wt lt]; cbn in *.
  - unfold createtourney. destruct (tournaments w !! name) eqn:Hn; [done|].
    intros tn' t' Ht'. cbn in Ht'.
    apply lookup_insert_Some in Ht' as [[_ <-]|[_ Ht']]; [done|]. by eapply Hw.
  - unfold addteam. destruct (tournaments w !! tn) as [t|] eqn:Ht; [|done].
    intros tn' t' Ht'. cbn in Ht'.
    apply lookup_alter_Some in Ht' as [(<- & t0 & Ht0 & ->)|[_ Ht']].
    + exact (Hw tn t0 Ht0).
    + by eapply Hw.
  - unfold starttourney. destruct (tournaments w !! tn) as [t|] eqn:Ht; [|done].
    case_bool_decide; [done|].
    intros tn' t' Ht'. cbn in Ht'.
    apply lookup_insert_Some in Ht' as [[_ <-]|[_ Ht']]; [done|]. by eapply Hw.
  - by apply matchresult_keeps_pools_empty.
Qed.

Lemma run_keeps_pools_empty cs w :
  all_pools_empty w →
  run_completes cs w →
  all_pools_empty (run cs w).
Proof.
  revert w. induction cs as [|c cs IH]; intros w Hw Hc; [done|].
  destruct Hc as [Hc Hrest]. cbn. apply IH; [|done].
  by apply exec_keeps_pools_empty.
Qed.

(** C10, as the code has it. After [starttourney] has started a tournament,
    and after every [matchresult] that records a result, both pending pools
    of that tournament are empty, whatever they held before; so along any
    run of commands that all complete, from a state where the pools are
    empty, no team is left waiting in a pool between two commands.  A
    report that raises is the exception: it has written the match and both
    pools before the rating update, so it leaves the named winner at the
    end of the upper pool and the named loser at the end of the lower pool,
    the pairing pass not run, and the teams are carried to the next
    command. *)
Theorem pools_empty_after_every_operation (w : World) :
  (∀ tn ms w',
     starttourney tn w = (w', Started ms) →
     ∃ t', tournaments w' !! tn = Some t' ∧ pools_empty t')
  ∧ (∀ tn mid wt lt w' r,
       matchresult tn mid wt lt w = (w', r) →
       r = ResultRecorded ∨ (∃ champ, r = TournamentFinished champ) →
       ∃ t', tournaments w' !! tn = Some t' ∧ pools_empty t')
  ∧ (∀ cs,
       all_pools_empty w →
       run_completes cs w →
       all_pools_empty (run cs w))
  ∧ (∀ tn mid wt lt w' e,
       matchresult tn mid wt lt w = (w', Raised e) →
       ∃ t t', tournaments w !! tn = Some t
               ∧ tournaments w' !! tn = Some t'
               ∧ pending_upper t' = pending_upper t ++ [wt]
               ∧ pending_lower t' = pending_lower t ++ [lt]
               ∧ ¬ pools_empty t').
Proof.
  split; [|split; [|split]]; cycle 3.
  { intros tn mid wt lt w' e Hrun.
    destruct (matchresult_cases tn mid wt lt w)
      as [Hsame|(t & m & wp & lp & Ht & Hm & Hwin & Hwp & Hlp)].
    - exfalso. rewrite Hrun in Hsame. by destruct Hsame as [_ [f Hf]].
    - rewrite (matchresult_accepted _ _ _ _ _ _ _ _ _ Ht Hm Hwin Hwp Hlp) in Hrun.
      destruct (adjust_elo_for_match libm_pow wp lp K_FACTOR (players w))
        as [db [e'|]].
      + injection Hrun as <- _. exists t, (record_result mid wt lt t).
        split; [done|]. split; [cbn; apply lookup_insert_eq|].
        split; [done|]. split; [done|].
        intros [Hu _]. cbn in Hu. by destruct (pending_upper t).
      + exfalso. injection Hrun as _ Hr. by case_bool_decide. }
  - intros tn ms w'. unfold starttourney.
    destruct (tournaments w !! tn) as [t|] eqn:Ht; [|done].
    case_bool_decide; [done|]. intros [= <- _].
    eexists. split; [apply lookup_insert_eq|done].
  - intros tn mid wt lt w' r Hrun Hr.
    destruct (matchresult_cases tn mid wt lt w)
      as [Hsame|(t & m & wp & lp & Ht & Hm & Hwin & Hwp & Hlp)].
    + exfalso. rewrite Hrun in Hsame. destruct Hsame as [_ [f Hf]].
      cbn in Hf. by destruct Hr as [->|[champ ->]].
    + rewrite (matchresult_accepted _ _ _ _ _ _ _ _ _ Ht Hm Hwin Hwp Hlp) in Hrun.
      destruct (adjust_elo_for_match libm_pow wp lp K_FACTOR (players w))
        as [db [e|]].
      { injection Hrun as _ <-. by destruct Hr as [?|[? ?]]. }
      injection Hrun as <- _.
      eexists. split; [|apply pass_pools_empty].
      apply try_pair_pending_lookup. cbn. apply lookup_insert_eq.
  - intros cs. apply run_keeps_pools_empty.
Qed.

(** ** Resolved matches *)

Lemma set_winner_in_keeps_resolved mid wt ms m0 i m :
  find_match_in ms mid = Some m0 →
  truthy (winner m0) = false →
  ms !! i = Some m →
  truthy (winner m) = true →
  set_winner_in mid wt ms !! i = Some m.
Proof.
  revert i. induction ms as [|a ms IH]; intros i Hfind Hopen Hi Hm; [done|].
  cbn in Hfind |- *. case_bool_decide.
  - injection Hfind as ->. destruct i as [|i]; [|done].
    cbn in Hi. injection Hi as ->. congruence.
  - destruct i as [|i]; [done|]. cbn in Hi |- *. by apply IH.
Qed.

Lemma set_winner_in_found mid wt ms m0 :
  find_match_in ms mid = Some m0 →
  find_match_in (set_winner_in mid wt ms) mid = Some (set_winner_field (Some wt) m0).
Proof.
  induction ms as [|a ms IH]; intros Hfind; [done|].
  cbn in Hfind |- *. case_bool_decide as Hid.
  - injection Hfind as ->. cbn. by rewrite bool_decide_eq_true_2.
  - cbn. rewrite bool_decide_eq_false_2 by done. by apply IH.
Qed.

Lemma find_match_in_app ms more mid m :
  find_match_in ms mid = Some m → find_match_in (ms ++ more) mid = Some m.
Proof.
  induction ms as [|a ms IH]; intros Hfind; [done|].
  cbn in Hfind |- *. case_bool_decide; [done|]. by apply IH.
Qed.

Lemma pair_pending_matches n t :
  ∃ more, matches (declare_champion (pair_pending n t)) = matches t ++ more.
Proof.
  rewrite declare_champion_matches, pair_pending_eq. cbn. eauto.
Qed.

Lemma matchresult_keeps_resolved tn' mid wt lt w tn t i m :
  tournaments w !! tn = Some t →
  matches t !! i = Some m →
  truthy (winner m) = true →
  ∃ t', tournaments (matchresult tn' mid wt lt w).1 !! tn = Some t'
        ∧ matches t' !! i = Some m.
Proof.
  intros Ht Hi Hm.
  destruct (matchresult_cases tn' mid wt lt w)
    as [[-> _]|(t0 & m0 & wp & lp & Ht0 & Hm0 & Hwin & Hwp & Hlp)]; [eauto|].
  rewrite (matchresult_accepted _ _ _ _ _ _ _ _ _ Ht0 Hm0 Hwin Hwp Hlp).
  assert (matches (record_result mid wt lt t0) !! i = Some m
          ∨ tn' ≠ tn) as Hrec.
  { destruct (decide (tn' = tn)) as [->|]; [left|by right].
    assert (t0 = t) as -> by congruence.
    cbn. by eapply set_winner_in_keeps_resolved. }
  destruct (adjust_elo_for_match libm_pow wp lp K_FACTOR (players w)) as [db [e|]];
    cbn [fst].
  - destruct (decide (tn' = tn)) as [->|Hne].
    + eexists. split; [cbn; apply lookup_insert_eq|]. by destruct Hrec.
    + exists t. split; [|done]. cbn. by rewrite lookup_insert_ne.
  - destruct (decide (tn' = tn)) as [->|Hne].
    + eexists. split.
      * apply try_pair_pending_lookup. cbn. apply lookup_insert_eq.
      * match goal with
        | |- matches (declare_champion (pair_pending ?n ?t1)) !! _ = _ =>
            destruct (pair_pending_matches n t1) as [more ->]
        end.
        apply lookup_app_l_Some. by destruct Hrec.
    + exists t. split; [|done].
      rewrite try_pair_pending_other by done. cbn. by rewrite lookup_insert_ne.
Qed.

Lemma exec_keeps_resolved c w tn t i m :
  tournaments w !! tn = Some t →
  matches t !! i = Some m →
  truthy (winner m) = true →
  ∃ t', tournaments (exec c w).1 !! tn = Some t' ∧ matches t' !! i = Some m.
Proof.
  intros Ht Hi Hm.
  destruct c as [name | tn' team ids | tn' | tn' mid wt lt]; cbn.
  - unfold createtourney. destruct (tournaments w !! name) eqn:Hn; [eauto|].
    exists t. split; [|done]. cbn. rewrite lookup_insert_ne; [done|congruence].
  - unfold addteam. destruct (tournaments w !! tn') eqn:Hn; [|eauto].
    cbn. destruct (decide (tn' = tn)) as [->|Hne].
    + eexists. split; [by rewrite lookup_alter_eq, Ht|done].
    + exists t. by rewrite lookup_alter_ne.
  - unfold starttourney. destruct (tournaments w !! tn') as [t0|] eqn:Hn; [|eauto].
    case_bool_decide; [eauto|]. cbn.
    destruct (decide (tn' = tn)) as [->|Hne].
    + eexists. split; [apply lookup_insert_eq|]. cbn.
      assert (t0 = t) as -> by congruence. by apply lookup_app_l_Some.
    + exists t. by rewrite lookup_insert_ne.
  - by eapply matchresult_keeps_resolved.
Qed.

Lemma run_keeps_resolved cs w tn t i m :
  tournaments w !! tn = Some t →
  matches t !! i = Some m →
  truthy (winner m) = true →
  ∃ t', tournaments (run cs w) !! tn = Some t' ∧ matches t' !! i = Some m.
Proof.
  revert w t. induction cs as [|c cs IH]; intros w t Ht Hi Hm; [eauto|].
  destruct (exec_keeps_resolved c w tn t i m Ht Hi Hm) as (t1 & Ht1 & Hi1).
  cbn. by eapply IH.
Qed.

(** ** The checks of [matchresult] *)

(** An accepted report writes the winner on the match, also when the
    rating update raises afterwards. *)
Lemma matchresult_records_winner tn mid wt lt w t m wp lp :
  tournaments w !! tn = Some t →
  find_match t mid = Some m →
  truthy (winner m) = false →
  teams_get wt (teams t) = Some wp →
  teams_get lt (teams t) = Some lp →
  failure_of (matchresult tn mid wt lt w).2 = None
  ∧ ∃ t', tournaments (matchresult tn mid wt lt w).1 !! tn = Some t'
          ∧ find_match t' mid = Some (set_winner_field (Some wt) m).
Proof.
  intros Ht Hm Hwin Hwp Hlp.
  rewrite (matchresult_accepted _ _ _ _ _ _ _ _ _ Ht Hm Hwin Hwp Hlp).
  assert (find_match (record_result mid wt lt t) mid
          = Some (set_winner_field (Some wt) m)) as Hrec.
  { unfold find_match. cbn. by apply set_winner_in_found. }
  destruct (adjust_elo_for_match libm_pow wp lp K_FACTOR (players w)) as [db [e|]];
    cbn [fst snd].
  - split; [done|]. eexists. split; [cbn; apply lookup_insert_eq|done].
  - split; [by case_bool_decide|]. eexists. split.
    + apply try_pair_pending_lookup. cbn. apply lookup_insert_eq.
    + unfold find_match.
      match goal with
      | |- find_match_in (matches (declare_champion (pair_pending ?n ?t1))) _ = _ =>
          destruct (pair_pending_matches n t1) as [more ->]
      end.
      by apply find_match_in_app.
Qed.

(** C9, as the code has it. A report is looked up by id, and the first
    match of the list with that id answers for it.  When that match has a
    winner, the report is answered AlreadyResolved and leaves the whole
    state (pools, ratings, matches) as it was; and no run of commands
    changes a match once it has a winner.  But a match with a winner that
    stands behind an open match with the same id does not stop a report on
    its id: with two known team names the report is accepted and recorded
    on the open match, the resolved one keeping its winner. *)
Theorem resolved_match_never_changes (w : World) (tn : string) (t : Tournament) :
  tournaments w !! tn = Some t →
  (∀ mid wt lt m x,
     find_match t mid = Some m → winner m = Some x → x ≠ "" →
     matchresult tn mid wt lt w = (w, AlreadyReported)
     ∧ failure_of AlreadyReported = Some AlreadyResolved)
  ∧ (∀ i m x cs,
       matches t !! i = Some m → winner m = Some x → x ≠ "" →
       ∃ t', tournaments (run cs w) !! tn = Some t' ∧ matches t' !! i = Some m)
  ∧ (∀ i m x m0 wt lt wp lp,
       matches t !! i = Some m → winner m = Some x → x ≠ "" →
       find_match t (match_id m) = Some m0 → truthy (winner m0) = false →
       teams_get wt (teams t) = Some wp → teams_get lt (teams t) = Some lp →
       failure_of (matchresult tn (match_id m) wt lt w).2 = None
       ∧ ∃ t', tournaments (matchresult tn (match_id m) wt lt w).1 !! tn = Some t'
               ∧ find_match t' (match_id m) = Some (set_winner_field (Some wt) m0)
               ∧ matches t' !! i = Some m).
Proof.
  intros Ht. split; [|split].
  - intros mid wt lt m x Hm Hx Hne. split; [|done].
    unfold matchresult. rewrite Ht, Hm, Hx. cbn.
    by rewrite bool_decide_eq_false_2.
  - intros i m x cs Hi Hx Hne. eapply run_keeps_resolved; [done..|].
    rewrite Hx. cbn. by rewrite bool_decide_eq_false_2.
  - intros i m x m0 wt lt wp lp Hi Hx Hne Hm0 Hopen Hwp Hlp.
    destruct (matchresult_records_winner tn (match_id m) wt lt w t m0 wp lp)
      as (Hok & t' & Ht' & Hfound); [done..|].
    split; [done|]. exists t'. split; [done|]. split; [done|].
    destruct (matchresult_keeps_resolved tn (match_id m) wt lt w tn t i m)
      as (t'' & Ht'' & Hkept); [done| done | |congruence].
    rewrite Hx. cbn. by rewrite bool_decide_eq_false_2.
Qed.

Lemma matchresult_unknown_team tn mid wt lt w t m :
  tournaments w !! tn = Some t →
  find_match t mid = Some m →
  truthy (winner m) = false →
  teams_get wt (teams t) = None ∨ teams_get lt (teams t) = None →
  matchresult tn mid wt lt w = (w, TeamNamesNotFound).
Proof.
  intros Ht Hm Hwin Hnone. unfold matchresult. rewrite Ht, Hm, Hwin.
  destruct Hnone as [->| ->]; [done|]. by destruct (teams_get wt (teams t)).
Qed.

(** C2, as the code has it. On an existing, unresolved match a report
    fails with Validation, and changes nothing, exactly when one of the two
    names is not a team of the tournament; two names that are teams are
    accepted and the winner is written on the match, whichever two teams
    the match records. *)
Theorem report_validates_team_names_only
    (w : World) (tn mid wt lt : string) (t : Tournament) (m : Match) :
  tournaments w !! tn = Some t →
  find_match t mid = Some m →
  truthy (winner m) = false →
  (teams_get wt (teams t) = None ∨ teams_get lt (teams t) = None →
     matchresult tn mid wt lt w = (w, TeamNamesNotFound)
     ∧ failure_of TeamNamesNotFound = Some Validation)
  ∧ (is_Some (teams_get wt (teams t)) → is_Some (teams_get lt (teams t)) →
       failure_of (matchresult tn mid wt lt w).2 = None
       ∧ ∃ t' m', tournaments (matchresult tn mid wt lt w).1 !! tn = Some t'
                  ∧ find_match t' mid = Some m'
                  ∧ winner m' = Some wt
                  ∧ teamA m' = teamA m ∧ teamB m' = teamB m).
Proof.
  intros Ht Hm Hwin. split.
  - intros Hnone. split; [|done]. by eapply matchresult_unknown_team.
  - intros [wp Hwp] [lp Hlp].
    destruct (matchresult_records_winner tn mid wt lt w t m wp lp)
      as (Hok & t' & Ht' & Hm'); [done..|].
    split; [done|]. by exists t', (set_winner_field (Some wt) m).
Qed.

(** C3, as the code has it. [matchresult] never reads the status: on a
    finished tournament a report is checked like on any other (an absent
    match is NotFound, a match with a winner AlreadyResolved, a name that is
    no team Validation, all three without a change), it is never refused
    with InvalidState, and a report that passes the checks is accepted and
    writes the winner on the match. *)
Theorem report_on_finished_tournament_is_not_refused
    (w : World) (tn mid wt lt : string) (t : Tournament) :
  tournaments w !! tn = Some t →
  status t = finished →
  failure_of (matchresult tn mid wt lt w).2 ≠ Some InvalidState
  ∧ (find_match t mid = None → matchresult tn mid wt lt w = (w, MatchNotFound))
  ∧ (∀ m, find_match t mid = Some m → truthy (winner m) = true →
       matchresult tn mid wt lt w = (w, AlreadyReported))
  ∧ (∀ m, find_match t mid = Some m → truthy (winner m) = false →
       teams_get wt (teams t) = None ∨ teams_get lt (teams t) = None →
       matchresult tn mid wt lt w = (w, TeamNamesNotFound))
  ∧ (∀ m, find_match t mid = Some m → truthy (winner m) = false →
       is_Some (teams_get wt (teams t)) → is_Some (teams_get lt (teams t)) →
       failure_of (matchresult tn mid wt lt w).2 = None
       ∧ ∃ t' m', tournaments (matchresult tn mid wt lt w).1 !! tn = Some t'
                  ∧ find_match t' mid = Some m'
                  ∧ winner m' = Some wt).
Proof.
  intros Ht _. split; [|split; [|split; [|split]]].
  - unfold matchresult. repeat case_match; done.
  - intros Hm. unfold matchresult. by rewrite Ht, Hm.
  - intros m Hm Hwin. unfold matchresult. by rewrite Ht, Hm, Hwin.
  - intros m Hm Hwin Hnone. by eapply matchresult_unknown_team.
  - intros m Hm Hwin [wp Hwp] [lp Hlp].
    destruct (matchresult_records_winner tn mid wt lt w t m wp lp)
      as (Hok & t' & Ht' & Hm'); [done..|].
    split; [done|]. by exists t', (set_winner_field (Some wt) m).
Qed.

(** ** Starting a tournament and adding teams *)

Lemma create_round_matches_pairs_off n pool :
  NoDup pool → shuffle n pool ≡ₚ pool → pairs_off pool (create_round_matches n pool).
Proof.
  intros Hnd Hsh. unfold create_round_matches.
  apply (pairs_off_perm (reverse (shuffle n pool))).
  - by rewrite reverse_Permutation.
  - apply pair_pool_pairs_off. by rewrite reverse_Permutation, Hsh.
Qed.

Lemma create_round_matches_upper n pool m :
  m ∈ create_round_matches n pool → fresh_match upper m.
Proof. apply pair_pool_fresh. Qed.

Lemma teams_get_set_eq name ids ts : teams_get name (teams_set name ids ts) = Some ids.
Proof.
  induction ts as [|[k v] ts IH]; cbn.
  - by rewrite bool_decide_eq_true_2.
  - case_bool_decide as Hk; cbn.
    + by rewrite bool_decide_eq_true_2.
    + by rewrite bool_decide_eq_false_2.
Qed.

Lemma teams_get_set_ne name other ids ts :
  other ≠ name → teams_get other (teams_set name ids ts) = teams_get other ts.
Proof.
  intros Hne. induction ts as [|[k v] ts IH]; cbn.
  - by rewrite bool_decide_eq_false_2.
  - destruct (decide (k = name)) as [->|Hk].
    + rewrite (bool_decide_eq_true_2 (name = name)) by done. cbn.
      by rewrite (bool_decide_eq_false_2 (name = other)).
    + rewrite (bool_decide_eq_false_2 (k = name)) by done. cbn.
      by rewrite IH.
Qed.

Lemma teams_set_names name ids ts :
  (teams_set name ids ts).*1
  = if bool_decide (name ∈ ts.*1) then ts.*1 else ts.*1 ++ [name].
Proof.
  induction ts as [|[k v] ts IH]; cbn; [done|].
  destruct (decide (k = name)) as [->|Hk].
  - rewrite (bool_decide_eq_true_2 (name = name)) by done. cbn.
    rewrite bool_decide_eq_true_2; [done|left].
  - rewrite (bool_decide_eq_false_2 (k = name)) by done. cbn. rewrite IH.
    destruct (decide (name ∈ ts.*1)) as [Hin|Hin].
    + rewrite !bool_decide_eq_true_2; [done| by right | done].
    + rewrite !bool_decide_eq_false_2; [done| | done].
      intros [?|?]%elem_of_cons; congruence.
Qed.

Lemma teams_set_NoDup name ids ts : NoDup ts.*1 → NoDup (teams_set name ids ts).*1.
Proof.
  intros Hnd. rewrite teams_set_names. case_bool_decide; [done|].
  apply NoDup_app. split; [done|]. split.
  - intros x Hx ->%list_elem_of_singleton. done.
  - apply NoDup_singleton.
Qed.

Lemma addteam_present tn team ids w t :
  tournaments w !! tn = Some t →
  addteam tn team ids w
  = (mkWorld (<[tn := set_teams (teams_set team ids (teams t)) t]> (tournaments w))
       (ensure_players ids (players w)) (draws w),
     TeamAdded).
Proof.
  intros Ht. unfold addteam, update_tournament, set_tournaments, set_players.
  rewrite Ht. cbn. do 2 f_equal. apply map_eq. intros k.
  destruct (decide (tn = k)) as [<-|Hne].
  - by rewrite lookup_alter_eq, lookup_insert_eq, Ht.
  - by rewrite lookup_alter_ne, lookup_insert_ne.
Qed.

(** C7, as the code has it. [starttourney] looks at the number of teams
    and never at the status: it fails with InvalidState exactly when the
    tournament has fewer than two teams, and then changes nothing;
    otherwise, in any status, it pairs the full list of team names into
    matches tagged upper, appends them to the matches and their ids as one
    round to the upper rounds, empties both pools and sets the status to
    running. *)
Theorem start_checks_team_count_only (w : World) (tn : string) (t : Tournament) :
  tournaments w !! tn = Some t →
  (failure_of (starttourney tn w).2 = Some InvalidState ↔ (length (teams t) < 2)%nat)
  ∧ ((length (teams t) < 2)%nat → starttourney tn w = (w, NeedTwoTeams))
  ∧ ((2 ≤ length (teams t))%nat →
       let ms := create_round_matches (draws w) (team_names t) in
       (starttourney tn w).2 = Started ms
       ∧ (∀ m, m ∈ ms → bracket m = upper)
       ∧ (NoDup (team_names t) → shuffle (draws w) (team_names t) ≡ₚ team_names t →
            pairs_off (team_names t) ms)
       ∧ ∃ t', tournaments (starttourney tn w).1 !! tn = Some t'
               ∧ status t' = running
               ∧ pending_upper t' = [] ∧ pending_lower t' = []
               ∧ matches t' = matches t ++ ms
               ∧ upper_rounds t' = upper_rounds t ++ [match_id <$> ms]
               ∧ lower_rounds t' = lower_rounds t
               ∧ teams t' = teams t).
Proof.
  intros Ht. split; [|split].
  - destruct (decide (length (teams t) < 2)%nat) as [Hlt|Hge].
    + by rewrite (starttourney_too_few tn w t Ht Hlt).
    + rewrite (starttourney_started tn w t Ht) by lia. cbn. split; [done|lia].
  - by apply starttourney_too_few.
  - intros Hge ms. rewrite (starttourney_started tn w t Ht Hge). cbn [fst snd].
    split; [done|]. split; [|split].
    + intros m Hm. by apply create_round_matches_upper in Hm as [? _].
    + apply create_round_matches_pairs_off.
    + exists (started_doc ms t). split; [cbn; apply lookup_insert_eq|done].
Qed.

(** C8, as the code has it. [addteam] fails with NotFound, changing
    nothing, when the tournament is absent; on an existing tournament and
    with a team name that is one key of the ["teams"] sub-document
    ([field_name]: not empty, no dot, dollar sign or NUL) it is accepted in
    every status, leaves the status and the other teams as they were, and
    makes the given ids the whole roster of the named team, replacing the
    roster of a team that already had that name. *)
Theorem addteam_replaces_roster_in_any_status
    (w : World) (tn team : string) (ids : list Z) :
  (tournaments w !! tn = None →
     addteam tn team ids w = (w, TournamentNotFound)
     ∧ failure_of TournamentNotFound = Some NotFound)
  ∧ (∀ t, tournaments w !! tn = Some t →
       field_name team = true →
       (addteam tn team ids w).2 = TeamAdded
       ∧ ∃ t', tournaments (addteam tn team ids w).1 !! tn = Some t'
               ∧ teams_get team (teams t') = Some ids
               ∧ (∀ other, other ≠ team →
                    teams_get other (teams t') = teams_get other (teams t))
               ∧ team_names t'
                 = (if bool_decide (team ∈ team_names t)
                    then team_names t else team_names t ++ [team])
               ∧ status t' = status t
               ∧ matches t' = matches t).
Proof.
  split.
  - intros Hnone. unfold addteam. by rewrite Hnone.
  - intros t Ht _. rewrite (addteam_present tn team ids w t Ht). cbn [fst snd].
    split; [done|].
    exists (set_teams (teams_set team ids (teams t)) t).
    split; [cbn; apply lookup_insert_eq|]. cbn.
    split; [apply teams_get_set_eq|].
    split; [intros other Hne; by apply teams_get_set_ne|].
    split; [apply teams_set_names|done].
Qed.

(** ** Elimination *)

(** [x] is the losing side of [m], a resolved lower match that is no bye. *)
Definition lost_lower_match (x : string) (m : Match) : Prop :=
  bracket m = lower ∧ bye m = false
  ∧ ∃ w, winner m = Some w ∧ x ≠ w ∧ x ∈ match_sides m.

(** The data model's match: one that is no bye has a second team, other
    than the first, and its winner, once set, is one of the two. *)
Definition played_match_ok (m : Match) : Prop :=
  bye m = false →
  ∃ b, teamB m = Some b ∧ teamA m ≠ b
       ∧ (winner m = None ∨ winner m = Some (teamA m) ∨ winner m = Some b).

Lemma eliminated_cons x a ms :
  x ∈ eliminated (a :: ms) ↔
  (bracket a = lower ∧ winner a ≠ None ∧ bye a = false
   ∧ match_loser a = Some x ∧ x ≠ "")
  ∨ x ∈ eliminated ms.
Proof.
  cbn [eliminated].
  destruct (decide (bracket a = lower)) as [Hb|Hb];
    [rewrite (bool_decide_eq_true_2 _ Hb) | rewrite (bool_decide_eq_false_2 _ Hb)];
    cbn [andb].
  2: { split; [by right|]. by intros [(? & _)|?]. }
  destruct (decide (winner a ≠ None)) as [Hw|Hw];
    [rewrite (bool_decide_eq_true_2 _ Hw) | rewrite (bool_decide_eq_false_2 _ Hw)];
    cbn [andb].
  2: { split; [by right|]. by intros [(_ & ? & _)|?]. }
  destruct (bye a) eqn:Hy; cbn [negb].
  { split; [by right|]. by intros [(_ & _ & ? & _)|?]. }
  unfold truthy. destruct (match_loser a) as [l|] eqn:Hl.
  2: { split; [by right|]. by intros [(_ & _ & _ & ? & _)|?]. }
  destruct (decide (l = "")) as [->|Hne];
    [rewrite bool_decide_eq_true_2 by done | rewrite bool_decide_eq_false_2 by done];
    cbn [negb].
  - split; [by right|]. by intros [(_ & _ & _ & [= <-] & ?)|?].
  - rewrite elem_of_union, elem_of_singleton. split.
    + intros [->|?]; [by left|by right].
    + intros [(_ & _ & _ & [= <-] & _)|?]; [by left|by right].
Qed.

Lemma elem_of_eliminated x ms :
  x ∈ eliminated ms ↔
  ∃ m, m ∈ ms ∧ bracket m = lower ∧ winner m ≠ None ∧ bye m = false
       ∧ match_loser m = Some x ∧ x ≠ "".
Proof.
  induction ms as [|a ms IH].
  - cbn. split; [by intros ?%not_elem_of_empty|]. by intros (m & ?%elem_of_nil & _).
  - rewrite eliminated_cons, IH. split.
    + intros [Ha|(m & Hin & Hm)].
      * exists a. split; [left|done].
      * exists m. split; [by right|done].
    + intros (m & [->|Hin]%elem_of_cons & Hm); [by left|right; eauto].
Qed.

Lemma match_loser_spec m x :
  played_match_ok m → bye m = false → winner m ≠ None →
  match_loser m = Some x ↔ ∃ w, winner m = Some w ∧ x ≠ w ∧ x ∈ match_sides m.
Proof.
  intros Hok Hbye Hw. destruct (Hok Hbye) as (b & Hb & Hab & Hwin).
  unfold match_loser, match_sides. rewrite Hb. cbn.
  destruct Hwin as [Hwin|[Hwin|Hwin]]; [done| |]; rewrite Hwin.
  - rewrite bool_decide_eq_false_2 by congruence. split.
    + intros [= <-]. exists (teamA m). split; [done|]. split; [done|].
      right. left.
    + intros (w & [= <-] & Hne & Hin). f_equal.
      apply elem_of_cons in Hin as [?|Hin]; [done|].
      by apply list_elem_of_singleton in Hin.
  - rewrite bool_decide_eq_true_2 by done. split.
    + intros [= <-]. exists b. split; [done|]. split; [done|]. left.
    + intros (w & [= <-] & Hne & Hin). f_equal.
      apply elem_of_cons in Hin as [?|Hin]; [done|].
      by apply list_elem_of_singleton in Hin.
Qed.

Lemma singleton_list {A} (l : list A) (c : A) :
  NoDup l → (∀ x, x ∈ l ↔ x = c) → l = [c].
Proof.
  intros Hnd Hl. destruct l as [|a l].
  - pose proof (proj2 (Hl c) eq_refl) as Hc. by apply elem_of_nil in Hc.
  - assert (a = c) as -> by (apply Hl; left).
    destruct l as [|b l]; [done|].
    assert (b = c) as -> by (apply Hl; right; left).
    apply NoDup_cons in Hnd as [Hnd _]. exfalso. apply Hnd. left.
Qed.

Lemma pair_pending_team_names n t :
  team_names (declare_champion (pair_pending n t)) = team_names t.
Proof.
  unfold team_names. by rewrite declare_champion_teams, pair_pending_eq.
Qed.

(** The terminal check takes for the loser of a lower match that has a
    winner and is no bye: teamA when the winner is teamB, teamB otherwise;
    and it eliminates that team when the name is not empty. *)
Definition eliminated_by (x : string) (m : Match) : Prop :=
  bracket m = lower ∧ bye m = false ∧ winner m ≠ None
  ∧ match_loser m = Some x ∧ x ≠ "".

Lemma eliminated_by_losing_side m x :
  played_match_ok m → x ≠ "" → eliminated_by x m ↔ lost_lower_match x m.
Proof.
  intros Hok Hx. unfold eliminated_by, lost_lower_match. split.
  - intros (Hlow & Hbye & Hw & Hloser & _). split; [done|]. split; [done|].
    by apply match_loser_spec in Hloser.
  - intros (Hlow & Hbye & w0 & Hw & Hlost). split; [done|]. split; [done|].
    split; [congruence|]. split; [|done].
    apply match_loser_spec; [done|done|congruence|eauto].
Qed.

Lemma declare_champion_spec t :
  (∀ c, aliveTeams t = [c] →
        declare_champion t = set_champion (Some c) (set_status finished t))
  ∧ (length (aliveTeams t) ≠ 1%nat → declare_champion t = t).
Proof.
  unfold declare_champion. split.
  - by intros c ->.
  - by destruct (aliveTeams t) as [|? [|??]].
Qed.

(** C4, as the code has it. The alive teams are exactly the teams of the
    tournament that no match eliminates, where a match eliminates the team
    the terminal check computes as its loser: for a lower match that has a
    winner and is no bye, teamA when the winner is teamB and teamB
    otherwise (an upper match and a bye eliminate nobody).  On a match
    whose winner is one of its two different teams this is the losing side;
    but a report may write a winner that is neither of them, and then teamB
    is eliminated and teamA stays alive.  After the pairing pass of
    [try_pair_pending], when exactly one team is alive, the status is
    finished and that team is the champion; otherwise the pass leaves
    status and champion as they were. *)
Theorem alive_teams_and_champion (w : World) (tn : string) (t : Tournament) :
  tournaments w !! tn = Some t →
  (∀ x, x ∈ aliveTeams t ↔
        x ∈ team_names t ∧ ∀ m, m ∈ matches t → ¬ eliminated_by x m)
  ∧ (∀ m x, played_match_ok m → x ≠ "" → eliminated_by x m ↔ lost_lower_match x m)
  ∧ (∀ m, teamB m ≠ winner m → match_loser m = teamB m)
  ∧ ∃ t', tournaments (try_pair_pending tn w) !! tn = Some t'
          ∧ (∀ c, aliveTeams t' = [c] → status t' = finished ∧ champion t' = Some c)
          ∧ (length (aliveTeams t') ≠ 1%nat →
             status t' = status t ∧ champion t' = champion t).
Proof.
  intros Ht. split; [|split; [|split]].
  - intros x. unfold aliveTeams. rewrite list_elem_of_filter, elem_of_eliminated.
    split.
    + intros [Hnot Hx]. split; [done|].
      intros m Hm (Hlow & Hbye & Hw & Hloser & Hne). apply Hnot.
      by exists m.
    + intros [Hx Hnone]. split; [|done].
      intros (m & Hm & Hlow & Hw & Hbye & Hloser & Hne).
      by apply (Hnone m Hm).
  - apply eliminated_by_losing_side.
  - intros m Hne. unfold match_loser. by rewrite bool_decide_eq_false_2.
  - eexists. split; [by apply try_pair_pending_lookup|].
    set (tp := pair_pending (draws w) t).
    destruct (declare_champion_spec tp) as [Hone Hmany].
    rewrite declare_champion_alive. split.
    + intros c Hc. by rewrite (Hone c Hc).
    + intros Hlen. rewrite (Hmany Hlen). unfold tp. by rewrite pair_pending_eq.
Qed.

(** ** One report on a tournament whose pools are empty *)

Lemma eliminated_app x ms more :
  x ∈ eliminated (ms ++ more) ↔ x ∈ eliminated ms ∨ x ∈ eliminated more.
Proof.
  induction ms as [|a ms IH]; cbn [app].
  - split; [by right|]. by intros [?%not_elem_of_empty|?].
  - rewrite !eliminated_cons, IH. tauto.
Qed.

Lemma eliminated_set_winner_upper x mid wt ms m :
  find_match_in ms mid = Some m →
  bracket m = upper →
  x ∈ eliminated (set_winner_in mid wt ms) ↔ x ∈ eliminated ms.
Proof.
  induction ms as [|a ms IH]; intros Hfind Hup; [done|].
  cbn in Hfind. cbn [set_winner_in]. case_bool_decide as Hid.
  - injection Hfind as ->. rewrite !eliminated_cons. cbn.
    rewrite Hup. split; (intros [(? & _)|?]; [done|by right]).
  - rewrite !eliminated_cons, IH by done. tauto.
Qed.

Lemma eliminated_bye x m : bye m = true → x ∈ eliminated [m] ↔ False.
Proof.
  intros Hbye. rewrite eliminated_cons. split; [|done].
  intros [(_ & _ & ? & _)|?%not_elem_of_empty]; [congruence|done].
Qed.

(** C1, as the code has it. A report on an open upper match of a
    tournament whose pools are empty (the state [starttourney] and every
    recorded report leave) puts the loser alone in the lower pool and the
    winner alone in the upper pool, so the pairing pass that follows gives
    each of them a bye: an upper bye for the winner, a lower bye for the
    loser.  Both pools are empty again afterwards, nobody is eliminated,
    and no open match is created: the winner of an earlier bye is in no
    pool, so it is not paired with the winner of the report. *)
Theorem report_on_empty_pools_gives_two_byes
    (w : World) (tn mid wt lt : string) (t : Tournament) (m : Match)
    (wp lp : list Z) :
  tournaments w !! tn = Some t →
  pools_empty t →
  find_match t mid = Some m →
  truthy (winner m) = false →
  bracket m = upper →
  teams_get wt (teams t) = Some wp →
  teams_get lt (teams t) = Some lp →
  completed (matchresult tn mid wt lt w).2 →
  ∃ t', tournaments (matchresult tn mid wt lt w).1 !! tn = Some t'
        ∧ matches t'
          = set_winner_in mid wt (matches t)
            ++ [mkMatch (make_match_id (draws w)) wt None (Some wt) upper true;
                mkMatch (make_match_id (S (draws w))) lt None (Some lt) lower true]
        ∧ pools_empty t'
        ∧ aliveTeams t' = aliveTeams t
        ∧ status t' = (if bool_decide (length (aliveTeams t) = 1)
                       then finished else status t).
Proof.
  intros Ht [Hpu Hpl] Hm Hwin Hup Hwp Hlp Hdone.
  rewrite (matchresult_accepted _ _ _ _ _ _ _ _ _ Ht Hm Hwin Hwp Hlp) in Hdone |- *.
  destruct (adjust_elo_for_match libm_pow wp lp K_FACTOR (players w)) as [db [e|]];
    [done|]. cbn [fst].
  set (t3 := record_result mid wt lt t).
  set (tp := pair_pending (draws w) t3).
  assert (matches tp
          = set_winner_in mid wt (matches t)
            ++ [mkMatch (make_match_id (draws w)) wt None (Some wt) upper true;
                mkMatch (make_match_id (S (draws w))) lt None (Some lt) lower true])
    as Hmatches.
  { unfold tp. rewrite pair_pending_eq. unfold t3, record_result. cbn.
    rewrite Hpu, Hpl. cbn. by rewrite Nat.add_1_r. }
  assert (aliveTeams tp = aliveTeams t) as Halive.
  { unfold aliveTeams. rewrite Hmatches.
    replace (team_names tp) with (team_names t)
      by (unfold tp, team_names; by rewrite pair_pending_eq).
    apply list_filter_iff. intros x.
    rewrite eliminated_app, (eliminated_set_winner_upper x mid wt _ m Hm Hup).
    change [?a; ?b] with ([a] ++ [b]).
    rewrite eliminated_app, !eliminated_bye by done. tauto. }
  exists (declare_champion tp). split; [|split; [|split; [|split]]].
  - by rewrite (try_pair_pending_lookup tn _ t3) by (cbn; apply lookup_insert_eq).
  - by rewrite declare_champion_matches.
  - apply pass_pools_empty.
  - by rewrite declare_champion_alive.
  - assert (status tp = status t) as Hst
      by (unfold tp; by rewrite pair_pending_eq).
    unfold declare_champion. rewrite Halive.
    destruct (aliveTeams t) as [|c [|c' l]]; cbn; by rewrite ?Hst.
Qed.

(** ** The rating update *)

(** The document [ensure_player_doc] answers for a player: the stored one,
    or the default profile. *)
Definition profile (db : gmap Z Player) (pid : Z) : Player :=
  default default_player (db !! pid).

Definition elo_sum (db : gmap Z Player) (ids : list Z) : Z :=
  foldr (λ pid s, (elo (profile db pid) + s)%Z) 0%Z ids.

Lemma bind_Ok_inv {A B} (m : Res A) (k : A → Res B) (b : B) :
  m ≫= k = Ok b → ∃ a, m = Ok a ∧ k a = Ok b.
Proof. destruct m as [a|e]; cbn; [eauto|done]. Qed.

Lemma bind_Ok {A B} (a : A) (k : A → Res B) : Ok a ≫= k = k a.
Proof. done. Qed.

Lemma ensure_player_doc_spec pid db :
  (ensure_player_doc pid db).2 = profile db pid
  ∧ (ensure_player_doc pid db).1 !! pid = Some (profile db pid)
  ∧ (∀ q, q ≠ pid → (ensure_player_doc pid db).1 !! q = db !! q)
  ∧ (∀ q, profile (ensure_player_doc pid db).1 q = profile db q).
Proof.
  unfold ensure_player_doc, profile.
  destruct (db !! pid) as [doc|] eqn:Hdoc; cbn.
  - by rewrite Hdoc.
  - rewrite lookup_insert_eq. repeat split; [|intros q].
    + intros q Hq. by rewrite lookup_insert_ne.
    + destruct (decide (pid = q)) as [<-|Hq].
      * by rewrite lookup_insert_eq, Hdoc.
      * by rewrite lookup_insert_ne.
Qed.

Lemma fetch_docs_spec pids db acc db1 fetched :
  fetch_docs pids db acc = (db1, fetched) →
  (∀ p, p ∈ pids →
     db1 !! p = Some (profile db p) ∧ fetched !! p = Some (profile db p))
  ∧ (∀ p, p ∉ pids → db1 !! p = db !! p ∧ fetched !! p = acc !! p).
Proof.
  revert db acc. induction pids as [|pid rest IH]; intros db acc Hf.
  - injection Hf as <- <-. split; [by intros p ?%elem_of_nil|done].
  - cbn in Hf.
    destruct (ensure_player_doc_spec pid db) as (Hdoc & Hpid & Hother & Hprof).
    destruct (ensure_player_doc pid db) as [db' doc]. cbn in *. subst doc.
    destruct (IH _ _ Hf) as [Hin Hout].
    assert (∀ p, p ∉ rest →
              db1 !! p = db' !! p
              ∧ fetched !! p = <[pid:=profile db pid]> acc !! p) as Hout' by done.
    split; intros p Hp.
    + destruct (decide (p ∈ rest)) as [Hrest|Hrest].
      * destruct (Hin p Hrest) as [-> ->]. by rewrite Hprof.
      * apply elem_of_cons in Hp as [->|?]; [|done].
        destruct (Hout' pid Hrest) as [-> ->]. by rewrite lookup_insert_eq.
    + apply not_elem_of_cons in Hp as [Hne Hrest].
      destruct (Hout' p Hrest) as [-> ->].
      by rewrite Hother, lookup_insert_ne.
Qed.

Lemma sum_elo_spec fetched db ids :
  (∀ p, p ∈ ids → fetched !! p = Some (profile db p)) →
  sum_elo fetched ids = Ok (elo_sum db ids).
Proof.
  induction ids as [|p rest IH]; intros Hf; [done|].
  cbn. unfold doc_elo. rewrite (Hf p) by left. cbn.
  rewrite IH; [done|]. intros q Hq. apply Hf. by right.
Qed.

Lemma rate_team_spec fetched db k score expected ids ups :
  (∀ p, p ∈ ids → fetched !! p = Some (profile db p)) →
  rate_team fetched k score expected ids = Ok ups →
  ups.*1 = ids
  ∧ ∀ p new, (p, new) ∈ ups →
      new_rating (elo (profile db p)) k score expected = Ok new.
Proof.
  revert ups. induction ids as [|pid rest IH]; intros ups Hf Hr.
  - injection Hr as <-. split; [done|]. by intros p new ?%elem_of_nil.
  - cbn in Hr. unfold doc_elo in Hr. rewrite (Hf pid) in Hr by left. cbn in Hr.
    apply bind_Ok_inv in Hr as (new0 & Hnew0 & Hr).
    apply bind_Ok_inv in Hr as (more & Hmore & Hr). injection Hr as <-.
    destruct (IH more) as [Hkeys Hin]; [intros q Hq; apply Hf; by right|done|].
    split; [cbn; by rewrite Hkeys|].
    intros p new [[= -> ->]|Hp]%elem_of_cons; [done|by apply Hin].
Qed.

Lemma persist_cons winner_ids q n rest db :
  persist winner_ids ((q, n) :: rest) db
  = persist winner_ids rest
      (if bool_decide (q ∈ winner_ids)
       then alter (record_win n) q db else alter (record_loss n) q db).
Proof. done. Qed.

Lemma persist_lookup_notin winner_ids ups db p :
  p ∉ ups.*1 → persist winner_ids ups db !! p = db !! p.
Proof.
  revert db. induction ups as [|[q n] rest IH]; intros db Hp; [done|].
  rewrite fmap_cons in Hp. apply not_elem_of_cons in Hp as [Hne Hrest].
  rewrite persist_cons, IH by done.
  case_bool_decide; by rewrite lookup_alter_ne.
Qed.

Lemma persist_lookup_in winner_ids ups db p new :
  NoDup ups.*1 → (p, new) ∈ ups →
  persist winner_ids ups db !! p
  = (if bool_decide (p ∈ winner_ids) then record_win new else record_loss new)
      <$> db !! p.
Proof.
  revert db. induction ups as [|[q n] rest IH]; intros db Hnd Hin.
  - by apply elem_of_nil in Hin.
  - rewrite fmap_cons in Hnd. apply NoDup_cons in Hnd as [Hq Hnd].
    rewrite persist_cons.
    apply elem_of_cons in Hin as [[= -> ->]|Hin].
    + rewrite persist_lookup_notin by done.
      case_bool_decide; by rewrite lookup_alter_eq.
    + assert (p ≠ q) as Hne.
      { intros ->. apply Hq. apply list_elem_of_fmap. by exists (q, new). }
      rewrite IH by done.
      destruct (bool_decide (q ∈ winner_ids)); by rewrite lookup_alter_ne.
Qed.

(** Doubles: a finite [x] minus itself is zero. *)
Lemma finite_cases x :
  is_finite x = true →
  (∃ s, Prim2SF x = S754_zero s) ∨ (∃ s m e, Prim2SF x = S754_finite s m e).
Proof.
  unfold is_finite, is_nan, is_infinity.
  rewrite !FloatAxioms.eqb_spec, abs_spec.
  destruct (Prim2SF x) as [s|s| |s m e]; cbn; eauto; try done.
  by rewrite orb_true_r.
Qed.

Lemma float_sub_diag x : is_finite x = true → (x - x)%float = 0%float.
Proof.
  intros Hx. apply Prim2SF_inj. rewrite sub_spec.
  change (Prim2SF 0) with (S754_zero false).
  destruct (finite_cases x Hx) as [[s ->]|(s & m & e & ->)].
  - by destruct s.
  - unfold SF64sub, SFsub. by rewrite Z.sub_diag.
Qed.

Lemma int_truediv_finite a b x : int_truediv a b = Ok x → is_finite x = true.
Proof.
  unfold int_truediv. destruct (b =? 0)%Z; [done|]. cbn zeta.
  match goal with |- context [is_finite ?f] => destruct (is_finite f) eqn:Hf end;
    [|done].
  by intros [= <-].
Qed.

Lemma expected_score_equal x : is_finite x = true → expected_score libm_pow x x = Ok 0.5%float.
Proof.
  intros Hx. unfold expected_score. rewrite float_sub_diag by done.
  by vm_compute.
Qed.

(** *** Integers held in doubles

    An integer below 2^53 in magnitude is held exactly by a double, and the
    sum of two such doubles is exact when it is below 2^53 as well.  This
    is what makes the change of an even match exactly 16. *)

Section Doubles.

Local Open Scope Z_scope.

(** [p] shifted left by [k] bits. *)
Definition pshl (k : nat) (p : positive) : positive := Nat.iter k xO p.

Lemma pshl_Z k p : Zpos (pshl k p) = Zpos p * 2 ^ Z.of_nat k.
Proof.
  induction k as [|k IH]; [cbn; lia|].
  change (pshl (S k) p) with ((pshl k p)~0)%positive.
  rewrite Pos2Z.inj_xO, IH, Nat2Z.inj_succ, Z.pow_succ_r by lia. lia.
Qed.

Lemma pshl_digits k p :
  Zpos (digits2_pos (pshl k p)) = Zpos (digits2_pos p) + Z.of_nat k.
Proof.
  induction k as [|k IH]; [cbn; lia|].
  change (pshl (S k) p) with ((pshl k p)~0)%positive.
  cbn [digits2_pos]. rewrite Pos2Z.inj_succ, IH. lia.
Qed.

Lemma pshl_add j k p : pshl j (pshl k p) = pshl (j + k) p.
Proof. unfold pshl. by rewrite Nat.iter_add. Qed.

Lemma pos_iter_pshl c p : Pos.iter xO p c = pshl (Pos.to_nat c) p.
Proof. unfold pshl. rewrite Pos2Nat.inj_iter. by induction (Pos.to_nat c). Qed.

Lemma iter_pos_nat {A} (f : A → A) n x :
  @SpecFloat.iter_pos A f n x = Nat.iter (Pos.to_nat n) f x.
Proof.
  revert x. induction n as [n IH|n IH|]; intros x; cbn [SpecFloat.iter_pos].
  - rewrite !IH, Pos2Nat.inj_xI.
    replace (S (2 * Pos.to_nat n))%nat with (Pos.to_nat n + (Pos.to_nat n + 1))%nat by lia.
    rewrite !Nat.iter_add. done.
  - rewrite !IH, Pos2Nat.inj_xO.
    replace (2 * Pos.to_nat n)%nat with (Pos.to_nat n + Pos.to_nat n)%nat by lia.
    by rewrite Nat.iter_add.
  - done.
Qed.

Lemma shr_exact k q :
  Nat.iter k shr_1 {| shr_m := Zpos (pshl k q); shr_r := false; shr_s := false |}
  = {| shr_m := Zpos q; shr_r := false; shr_s := false |}.
Proof.
  induction k as [|k IH]; [done|].
  rewrite Nat.iter_succ_r.
  change (pshl (S k) q) with ((pshl k q)~0)%positive. cbn [shr_1 orb]. apply IH.
Qed.

Lemma digits_le_53 p : Zpos p < 2 ^ 53 → Zpos (digits2_pos p) ≤ 53.
Proof.
  intros Hp.
  assert (digits2_pos p = Pos.size p) as ->.
  { clear Hp. induction p as [q IH|q IH|]; simpl; [by f_equal..|done]. }
  pose proof (Pos.size_le p) as Hle.
  destruct (Z_le_gt_dec (Zpos (Pos.size p)) 53) as [|Hgt]; [done|exfalso].
  assert (2 ^ 54 ≤ 2 ^ Zpos (Pos.size p)) by (apply Z.pow_le_mono_r; lia).
  assert (Zpos (2 ^ Pos.size p) ≤ Zpos p~0) as H2 by (by apply Pos2Z.pos_le_pos).
  rewrite Pos2Z.inj_pow in H2. change (Z.pos 2) with 2 in H2. lia.
Qed.

Lemma fexp_eq x : fexp prec emax x = Z.max (x - 53) (-1074).
Proof. reflexivity. Qed.

(** The double that holds a non-zero integer of at most 53 bits: its
    mantissa shifted up to 53 bits. *)
Definition canon_pos (s : bool) (p : positive) : spec_float :=
  let d := Zpos (digits2_pos p) in
  S754_finite s (pshl (Z.to_nat (53 - d)) p) (d - 53).

Definition canon (sz : bool) (n : Z) : spec_float :=
  match n with
  | Z0 => S754_zero sz
  | Zpos p => canon_pos false p
  | Zneg p => canon_pos true p
  end.

Lemma round_shifted sx q (k : nat) e :
  Zpos (digits2_pos q) = 53 →
  -1074 ≤ e + Z.of_nat k ≤ 971 →
  binary_round_aux prec emax sx (Zpos (pshl k q)) e loc_Exact
  = S754_finite sx q (e + Z.of_nat k).
Proof.
  intros Hd He. unfold binary_round_aux.
  assert (shr_fexp prec emax (Zpos (pshl k q)) e loc_Exact
          = ({| shr_m := Zpos q; shr_r := false; shr_s := false |}, e + Z.of_nat k))
    as ->.
  { unfold shr_fexp. cbn [Zdigits2 shr_record_of_loc]. rewrite pshl_digits, Hd.
    assert (fexp prec emax (53 + Z.of_nat k + e) - e = Z.of_nat k) as Hf.
    { rewrite fexp_eq. lia. }
    rewrite Hf.
    destruct k as [|k].
    - cbn. by rewrite Z.add_0_r.
    - unfold shr. change (Z.of_nat (S k)) with (Zpos (Pos.of_succ_nat k)).
      lazy beta iota.
      by rewrite iter_pos_nat, SuccNat2Pos.id_succ, shr_exact. }
  cbn [shr_m loc_of_shr_record round_nearest_even].
  assert (shr_fexp prec emax (Zpos q) (e + Z.of_nat k) loc_Exact
          = ({| shr_m := Zpos q; shr_r := false; shr_s := false |}, e + Z.of_nat k))
    as ->.
  { unfold shr_fexp. cbn [Zdigits2 shr_record_of_loc]. rewrite Hd.
    replace (fexp prec emax (53 + (e + Z.of_nat k)) - (e + Z.of_nat k)) with 0
      by (rewrite fexp_eq; lia).
    done. }
  cbn [shr_m]. change (IntDef.Z.leb ?a ?b) with (Z.leb a b).
  rewrite (proj2 (Z.leb_le _ _)); [done|]. change (emax - prec) with 971. lia.
Qed.

Lemma binary_round_exact sx p (j : nat) :
  Zpos p < 2 ^ 53 →
  binary_round prec emax sx (pshl j p) (- Z.of_nat j) = canon_pos sx p.
Proof.
  intros Hp. pose proof (digits_le_53 p Hp) as Hd.
  unfold binary_round, canon_pos.
  set (d := Zpos (digits2_pos p)) in *.
  rewrite pshl_digits. fold d.
  replace (fexp prec emax (d + Z.of_nat j + - Z.of_nat j)) with (d - 53)
    by (rewrite fexp_eq; lia).
  unfold shl_align.
  destruct (d - 53 - - Z.of_nat j) as [|c|c] eqn:Hc.
  - assert (pshl j p = pshl 0 (pshl (Z.to_nat (53 - d)) p)) as ->.
    { replace j with (Z.to_nat (53 - d)) by lia. done. }
    rewrite round_shifted.
    + f_equal. lia.
    + rewrite pshl_digits. fold d. lia.
    + lia.
  - assert (pshl j p
            = pshl (j - Z.to_nat (53 - d)) (pshl (Z.to_nat (53 - d)) p)) as ->.
    { rewrite pshl_add. f_equal. lia. }
    rewrite round_shifted.
    + f_equal. lia.
    + rewrite pshl_digits. fold d. lia.
    + lia.
  - rewrite pos_iter_pshl, pshl_add.
    replace (Pos.to_nat c + j)%nat with (Z.to_nat (53 - d)) by lia.
    change (pshl (Z.to_nat (53 - d)) p) with (pshl 0 (pshl (Z.to_nat (53 - d)) p)).
    rewrite round_shifted.
    + f_equal. lia.
    + rewrite pshl_digits. fold d. lia.
    + lia.
Qed.

Lemma binary_normalize_exact sz n (j : nat) :
  Z.abs n < 2 ^ 53 →
  binary_normalize prec emax (n * 2 ^ Z.of_nat j) (- Z.of_nat j) sz = canon sz n.
Proof.
  intros Hn. destruct n as [|p|p]; cbn [canon].
  - done.
  - replace (Zpos p * 2 ^ Z.of_nat j) with (Zpos (pshl j p)) by apply pshl_Z.
    cbn [binary_normalize]. apply binary_round_exact. lia.
  - replace (Zneg p * 2 ^ Z.of_nat j) with (Zneg (pshl j p))
      by (rewrite <- Pos2Z.opp_pos, pshl_Z; lia).
    cbn [binary_normalize]. apply binary_round_exact. lia.
Qed.

Lemma canon_spec sz n :
  n ≠ 0 → Z.abs n < 2 ^ 53 →
  ∃ s m (t : nat),
    canon sz n = S754_finite s m (- Z.of_nat t)
    ∧ cond_Zopp s (Zpos m) = n * 2 ^ Z.of_nat t
    ∧ Zpos (digits2_pos m) = 53
    ∧ (t ≤ 52)%nat.
Proof.
  intros Hn Habs.
  assert (∀ s p, Zpos p < 2 ^ 53 →
            ∃ m (t : nat),
              canon_pos s p = S754_finite s m (- Z.of_nat t)
              ∧ Zpos m = Zpos p * 2 ^ Z.of_nat t
              ∧ Zpos (digits2_pos m) = 53
              ∧ (t ≤ 52)%nat) as Hpos.
  { intros s p Hp. pose proof (digits_le_53 p Hp) as Hd.
    exists (pshl (Z.to_nat (53 - Zpos (digits2_pos p))) p),
           (Z.to_nat (53 - Zpos (digits2_pos p))).
    split; [|split; [|split]].
    - unfold canon_pos. f_equal. lia.
    - apply pshl_Z.
    - rewrite pshl_digits. lia.
    - lia. }
  destruct n as [|p|p]; [done| |].
  - destruct (Hpos false p) as (m & t & Hc & Hm & Hd & Ht); [lia|].
    exists false, m, t. by rewrite <- Hm.
  - destruct (Hpos true p) as (m & t & Hc & Hm & Hd & Ht); [lia|].
    exists true, m, t. split; [done|]. split; [|done].
    cbn [cond_Zopp]. change (IntDef.Z.opp ?x) with (Z.opp x). rewrite Hm. lia.
Qed.

Lemma valid_canon sz n : Z.abs n < 2 ^ 53 → valid_binary (canon sz n) = true.
Proof.
  intros Habs. destruct (decide (n = 0)) as [->|Hn]; [done|].
  destruct (canon_spec sz n Hn Habs) as (s & m & t & -> & _ & Hd & Ht).
  unfold valid_binary, SpecFloat.valid_binary, bounded, canonical_mantissa. rewrite Hd.
  change (IntDef.Z.add ?a ?b) with (Z.add a b). rewrite fexp_eq.
  change (IntDef.Z.eqb ?a ?b) with (Z.eqb a b).
  change (IntDef.Z.leb ?a ?b) with (Z.leb a b).
  change (IntDef.Z.sub emax prec) with 971.
  apply andb_true_iff. split; [apply Z.eqb_eq|apply Z.leb_le]; lia.
Qed.

Lemma Z2F_spec z : Z.abs z < 2 ^ 53 → Prim2SF (Z2F z) = canon false z.
Proof.
  intros Hz. unfold Z2F.
  replace (binary_normalize prec emax z 0 false) with (canon false z).
  - apply Prim2SF_SF2Prim. by apply valid_canon.
  - rewrite <- (binary_normalize_exact false z 0 Hz). f_equal. cbn. lia.
Qed.

Lemma shl_align_Z m e e' :
  e' ≤ e → Zpos (fst (shl_align m e e')) = Zpos m * 2 ^ (e - e').
Proof.
  intros He. unfold shl_align. change (IntDef.Z.sub e' e) with (e' - e).
  destruct (e' - e) as [|c|c] eqn:Hc; cbn [fst].
  - replace (e - e') with 0 by lia. lia.
  - lia.
  - rewrite pos_iter_pshl, pshl_Z. do 2 f_equal. lia.
Qed.

Lemma SFadd_exact a b :
  Z.abs a < 2 ^ 53 → Z.abs b < 2 ^ 53 → Z.abs (a + b) < 2 ^ 53 →
  SFadd prec emax (canon false a) (canon false b) = canon false (a + b).
Proof.
  intros Ha Hb Hab.
  destruct (decide (a = 0)) as [->|Hna].
  { rewrite Z.add_0_l. by destruct b. }
  destruct (decide (b = 0)) as [->|Hnb].
  { rewrite Z.add_0_r. by destruct a. }
  destruct (canon_spec false a Hna Ha) as (sa & ma & ta & -> & Hma & _ & Hta).
  destruct (canon_spec false b Hnb Hb) as (sb & mb & tb & -> & Hmb & _ & Htb).
  cbn [SFadd]. change (IntDef.Z.min ?x ?y) with (Z.min x y).
  change (IntDef.Z.add ?x ?y) with (Z.add x y).
  set (k := Nat.max ta tb).
  replace (Z.min (- Z.of_nat ta) (- Z.of_nat tb)) with (- Z.of_nat k) by lia.
  rewrite <- (binary_normalize_exact false (a + b) k Hab). f_equal.
  assert (∀ s m (t : nat) n, cond_Zopp s (Zpos m) = n * 2 ^ Z.of_nat t →
            (t ≤ k)%nat →
            cond_Zopp s (Zpos (fst (shl_align m (- Z.of_nat t) (- Z.of_nat k))))
            = n * 2 ^ Z.of_nat k) as Halign.
  { intros s m t n Hm Ht. rewrite shl_align_Z by lia.
    replace (- Z.of_nat t - - Z.of_nat k) with (Z.of_nat (k - t)) by lia.
    assert (2 ^ Z.of_nat k = 2 ^ Z.of_nat t * 2 ^ Z.of_nat (k - t)) as ->.
    { rewrite <- Z.pow_add_r by lia. f_equal. lia. }
    rewrite Z.mul_assoc, <- Hm.
    destruct s; cbn [cond_Zopp]; change (IntDef.Z.opp ?x) with (Z.opp x); ring. }
  rewrite (Halign sa ma ta a), (Halign sb mb tb b) by (done || lia). lia.
Qed.

Lemma py_round_canon x sz n :
  Prim2SF x = canon sz n → Z.abs n < 2 ^ 53 → py_round x = Ok n.
Proof.
  intros Hx Hn. unfold py_round. rewrite Hx.
  destruct (decide (n = 0)) as [->|Hnz]; [done|].
  destruct (canon_spec sz n Hnz Hn) as (s & m & t & -> & Hm & _ & Ht).
  assert (Zpos m = Z.abs n * 2 ^ Z.of_nat t ∧ n = if s then - Z.abs n else Z.abs n)
    as [Hmag Hsign].
  { destruct s; cbn [cond_Zopp] in Hm; change (IntDef.Z.opp ?x) with (Z.opp x) in Hm.
    - assert (n < 0) as Hneg.
      { assert (0 < 2 ^ Z.of_nat t) by (apply Z.pow_pos_nonneg; lia). nia. }
      split; [|lazy iota; lia]. rewrite Z.abs_neq, Z.mul_opp_l, <- Hm by lia. lia.
    - assert (0 < n) as Hpos.
      { assert (0 < 2 ^ Z.of_nat t) by (apply Z.pow_pos_nonneg; lia). nia. }
      split; [|lazy iota; lia]. by rewrite Z.abs_eq, <- Hm by lia. }
  destruct t as [|t].
  - change (- Z.of_nat 0) with 0. lazy beta iota zeta. f_equal.
    change (Z.of_nat 0) with 0 in Hmag. rewrite Z.pow_0_r, Z.mul_1_r in Hmag.
    rewrite Hmag. symmetry. exact Hsign.
  - change (- Z.of_nat (S t)) with (Zneg (Pos.of_succ_nat t)).
    lazy beta iota zeta.
    replace (Zpos (Pos.of_succ_nat t)) with (Z.of_nat (S t)) by done.
    assert (0 < 2 ^ Z.of_nat (S t)) as Hpow by (apply Z.pow_pos_nonneg; lia).
    rewrite Hmag, Z.div_mul, Z.mod_mul by lia.
    rewrite (proj2 (Z.ltb_lt _ _)) by lia. f_equal. destruct s; lia.
Qed.

(** Adding two integer-valued doubles and rounding the sum. *)
Lemma round_add_exact a b :
  Z.abs a < 2 ^ 53 → Z.abs b < 2 ^ 53 → Z.abs (a + b) < 2 ^ 53 →
  py_round (Z2F a + Z2F b) = Ok (a + b).
Proof.
  intros Ha Hb Hab. apply (py_round_canon _ false); [|done].
  rewrite add_spec, !Z2F_spec by done. by apply SFadd_exact.
Qed.

Lemma Z2F_finite z : Z.abs z < 2 ^ 53 → is_finite (Z2F z) = true.
Proof.
  intros Hz. unfold is_finite, is_nan, is_infinity.
  rewrite !FloatAxioms.eqb_spec, abs_spec, Z2F_spec by done.
  change (Prim2SF infinity) with (S754_infinity false).
  destruct (decide (z = 0)) as [->|Hnz]; [done|].
  destruct (canon_spec false z Hnz Hz) as (s & m & t & -> & _).
  unfold SFeqb. cbn [SFabs SFcompare].
  change (IntDef.Z.compare ?a ?b) with (Z.compare a b).
  rewrite Z.compare_refl, Pos.compare_cont_refl. by destruct s.
Qed.

(** With expected score one half, a winner's rating goes up by 16 and a
    loser's down by 16. *)
Lemma even_match_step old :
  Z.abs old + 16 < 2 ^ 53 →
  new_rating old K_FACTOR 1%float 0.5%float = Ok (old + 16)
  ∧ new_rating old K_FACTOR 0%float (1 - 0.5)%float = Ok (old - 16).
Proof.
  intros Hold. unfold new_rating, int_to_float.
  rewrite (Z2F_finite old) by lia.
  assert (is_finite (Z2F K_FACTOR) = true) as -> by (by vm_compute).
  assert ((Z2F K_FACTOR * (1 - 0.5))%float = Z2F 16) as Hup by (by vm_compute).
  assert ((Z2F K_FACTOR * (0 - (1 - 0.5)))%float = Z2F (-16)) as Hdown by (by vm_compute).
  split.
  - change (py_round (Z2F old + Z2F K_FACTOR * (1 - 0.5)) = Ok (old + 16)).
    rewrite Hup. apply round_add_exact; lia.
  - change (py_round (Z2F old + Z2F K_FACTOR * (0 - (1 - 0.5))) = Ok (old - 16)).
    rewrite Hdown. apply (round_add_exact old (-16)); lia.
Qed.

End Doubles.

(** C6, as the code has it. When no player is listed twice, in a team or
    across the two, and the update raises nothing: the team averages and
    the expected score are computed, in double precision, from the ratings
    the players had before the update; every winner's rating becomes
    [round(old + K * (1 - expected_win))] with one more win, every loser's
    [round(old + K * (0 - expected_lose))] with one more loss, and nobody
    else changes.  The sum is rounded, not the change.  When the two teams
    have the same size and the same rating sum the expected score is one
    half, and for every rating with [|old| + 16 < 2^53] the new rating is
    then [old + 16] for a winner and [old - 16] for a loser. *)
Theorem ratings_updated_from_snapshot
    (winner_ids loser_ids : list Z) (db db' : gmap Z Player) :
  NoDup (winner_ids ++ loser_ids) →
  adjust_elo_for_match libm_pow winner_ids loser_ids K_FACTOR db = (db', None) →
  (∃ win_avg lose_avg expected_win,
     int_truediv (elo_sum db winner_ids) (Z.of_nat (length winner_ids)) = Ok win_avg
     ∧ int_truediv (elo_sum db loser_ids) (Z.of_nat (length loser_ids)) = Ok lose_avg
     ∧ expected_score libm_pow win_avg lose_avg = Ok expected_win
     ∧ (∀ p, p ∈ winner_ids →
          ∃ new, new_rating (elo (profile db p)) K_FACTOR 1%float expected_win = Ok new
                 ∧ db' !! p = Some (mkPlayer (S (wins (profile db p)))
                                      (losses (profile db p)) new))
     ∧ (∀ p, p ∈ loser_ids →
          ∃ new, new_rating (elo (profile db p)) K_FACTOR 0%float
                   (1 - expected_win)%float = Ok new
                 ∧ db' !! p = Some (mkPlayer (wins (profile db p))
                                      (S (losses (profile db p))) new))
     ∧ (elo_sum db winner_ids = elo_sum db loser_ids →
        length winner_ids = length loser_ids →
        expected_win = 0.5%float))
  ∧ (∀ p, p ∉ winner_ids ++ loser_ids → db' !! p = db !! p)
  ∧ (∀ old, (Z.abs old + 16 < 2 ^ 53)%Z →
       new_rating old K_FACTOR 1%float 0.5%float = Ok (old + 16)%Z
       ∧ new_rating old K_FACTOR 0%float (1 - 0.5)%float = Ok (old - 16)%Z).
Proof.
  intros Hnd Hadj. unfold adjust_elo_for_match in Hadj.
  destruct (fetch_docs (winner_ids ++ loser_ids) db ∅) as [db1 fetched] eqn:Hfetch.
  destruct (fetch_docs_spec _ _ _ _ _ Hfetch) as [Hin Hout].
  destruct (compute_updates libm_pow fetched winner_ids loser_ids K_FACTOR)
    as [updates|e] eqn:Hupd; [|done].
  injection Hadj as <-.
  assert (∀ p, p ∈ winner_ids → fetched !! p = Some (profile db p)) as Hfw.
  { intros p Hp. apply Hin. apply elem_of_app. by left. }
  assert (∀ p, p ∈ loser_ids → fetched !! p = Some (profile db p)) as Hfl.
  { intros p Hp. apply Hin. apply elem_of_app. by right. }
  unfold compute_updates, team_average in Hupd.
  rewrite (sum_elo_spec fetched db winner_ids Hfw) in Hupd.
  rewrite (sum_elo_spec fetched db loser_ids Hfl) in Hupd.
  rewrite !bind_Ok in Hupd.
  apply bind_Ok_inv in Hupd as (win_avg & Hwa & Hupd).
  apply bind_Ok_inv in Hupd as (lose_avg & Hla & Hupd).
  apply bind_Ok_inv in Hupd as (expected_win & Hexp & Hupd).
  apply bind_Ok_inv in Hupd as (ws & Hws & Hupd).
  apply bind_Ok_inv in Hupd as (ls & Hls & Hupd). injection Hupd as <-.
  destruct (rate_team_spec _ db _ _ _ _ _ Hfw Hws) as [Hwk Hwnew].
  destruct (rate_team_spec _ db _ _ _ _ _ Hfl Hls) as [Hlk Hlnew].
  assert (NoDup (ws ++ ls).*1) as Hndu by (by rewrite fmap_app, Hwk, Hlk).
  split; [|split].
  - exists win_avg, lose_avg, expected_win.
    split; [done|]. split; [done|]. split; [done|]. split; [|split].
    + intros p Hp.
      assert (∃ new, (p, new) ∈ ws) as [new Hnew].
      { rewrite <- Hwk in Hp. apply list_elem_of_fmap in Hp as ([q new] & -> & Hq).
        by exists new. }
      exists new. split; [by apply Hwnew|].
      rewrite (persist_lookup_in _ _ _ p new Hndu) by (apply elem_of_app; by left).
      rewrite bool_decide_eq_true_2 by done.
      destruct (Hin p) as [-> _]; [apply elem_of_app; by left|done].
    + intros p Hp.
      assert (∃ new, (p, new) ∈ ls) as [new Hnew].
      { rewrite <- Hlk in Hp. apply list_elem_of_fmap in Hp as ([q new] & -> & Hq).
        by exists new. }
      exists new. split; [by apply Hlnew|].
      rewrite (persist_lookup_in _ _ _ p new Hndu) by (apply elem_of_app; by right).
      apply NoDup_app in Hnd as (_ & Hdisj & _).
      rewrite bool_decide_eq_false_2 by (intros Hw; by apply (Hdisj p Hw)).
      destruct (Hin p) as [-> _]; [apply elem_of_app; by right|done].
    + intros Hsum Hlen.
      assert (win_avg = lose_avg) as -> by (rewrite Hsum, Hlen in Hwa; congruence).
      rewrite expected_score_equal in Hexp by (by eapply int_truediv_finite).
      congruence.
  - intros p Hp. rewrite persist_lookup_notin by (by rewrite fmap_app, Hwk, Hlk).
    by apply Hout.
  - apply even_match_step.
Qed.

(** * Runs of commands

    The rest of this section looks at what a command does to the document
    of one tournament, and at what every run of commands keeps. *)

(** The tournament a command names. *)
Definition target (c : Command) : string :=
  match c with
  | CreateTourney name => name
  | AddTeam tn _ _ => tn
  | StartTourney tn => tn
  | MatchResult tn _ _ _ => tn
  end.

(** [doc_step before reply after]: the ways one command changes the
    document stored under one name.  A document is left alone, created by
    [createtourney], given a roster by [addteam], started by
    [starttourney], or written by a report that passed the checks of
    [matchresult]: up to the pools when the rating update raises, through
    the pairing pass otherwise. *)
Inductive doc_step : option Tournament → Reply → option Tournament → Prop :=
  | step_same o r : doc_step o r o
  | step_created : doc_step None Created (Some create_tournament_doc)
  | step_team t team ids :
      doc_step (Some t) TeamAdded (Some (set_teams (teams_set team ids (teams t)) t))
  | step_started t n :
      (2 ≤ length (teams t))%nat →
      doc_step (Some t) (Started (create_round_matches n (team_names t)))
        (Some (started_doc (create_round_matches n (team_names t)) t))
  | step_raised t mid wt lt m e :
      find_match t mid = Some m →
      truthy (winner m) = false →
      is_Some (teams_get wt (teams t)) →
      is_Some (teams_get lt (teams t)) →
      doc_step (Some t) (Raised e) (Some (record_result mid wt lt t))
  | step_reported t mid wt lt m n r :
      find_match t mid = Some m →
      truthy (winner m) = false →
      is_Some (teams_get wt (teams t)) →
      is_Some (teams_get lt (teams t)) →
      completed r →
      doc_step (Some t) r
        (Some (declare_champion (pair_pending n (record_result mid wt lt t)))).

Lemma exec_doc_step c w tn :
  doc_step (tournaments w !! tn) (exec c w).2 (tournaments (exec c w).1 !! tn).
Proof.
  destruct c as [name | tn' team ids | tn' | tn' mid wt lt]; cbn [exec].
  - unfold createtourney. destruct (tournaments w !! name) eqn:Hn; [constructor|].
    cbn. destruct (decide (name = tn)) as [->|Hne].
    + rewrite lookup_insert_eq, Hn. constructor.
    + rewrite lookup_insert_ne by done. constructor.
  - destruct (tournaments w !! tn') as [t|] eqn:Ht.
    + rewrite (addteam_present tn' team ids w t Ht). cbn.
      destruct (decide (tn' = tn)) as [->|Hne].
      * rewrite lookup_insert_eq, Ht. constructor.
      * rewrite lookup_insert_ne by done. constructor.
    + unfold addteam. rewrite Ht. constructor.
  - destruct (tournaments w !! tn') as [t|] eqn:Ht.
    + destruct (decide (length (teams t) < 2)%nat) as [Hlt|Hge].
      * rewrite (starttourney_too_few tn' w t Ht Hlt). constructor.
      * rewrite (starttourney_started tn' w t Ht) by lia. cbn.
        destruct (decide (tn' = tn)) as [->|Hne].
        -- rewrite lookup_insert_eq, Ht. apply step_started. lia.
        -- rewrite lookup_insert_ne by done. constructor.
    + unfold starttourney. rewrite Ht. constructor.
  - destruct (matchresult_cases tn' mid wt lt w)
      as [[Hsame _]|(t & m & wp & lp & Ht & Hm & Hwin & Hwp & Hlp)].
    + rewrite Hsame. constructor.
    + rewrite (matchresult_accepted _ _ _ _ _ _ _ _ _ Ht Hm Hwin Hwp Hlp).
      destruct (adjust_elo_for_match libm_pow wp lp K_FACTOR (players w)) as [db [e|]];
        cbn [fst snd].
      * destruct (decide (tn' = tn)) as [->|Hne]; cbn.
        -- rewrite lookup_insert_eq, Ht. by eapply step_raised.
        -- rewrite lookup_insert_ne by done. constructor.
      * destruct (decide (tn' = tn)) as [->|Hne].
        -- rewrite (try_pair_pending_lookup tn _ (record_result mid wt lt t))
             by (cbn; apply lookup_insert_eq).
           rewrite Ht. cbn [draws set_players set_tournaments].
           eapply step_reported; [done..|]. by case_bool_decide.
        -- rewrite try_pair_pending_other by done. cbn.
           rewrite lookup_insert_ne by done. constructor.
Qed.

Lemma doc_step_stays t r o : doc_step (Some t) r o → is_Some o.
Proof. inversion 1; by eexists. Qed.

(** A property of documents that [createtourney] establishes and every
    change keeps holds along every run. *)
Lemma run_keeps_invariant (P : Tournament → Prop) :
  P create_tournament_doc →
  (∀ t r t', P t → doc_step (Some t) r (Some t') → P t') →
  ∀ cs w,
    (∀ tn t, tournaments w !! tn = Some t → P t) →
    ∀ tn t, tournaments (run cs w) !! tn = Some t → P t.
Proof.
  intros Hnew Hstep. induction cs as [|c cs IH]; intros w Hw; [done|].
  cbn. apply IH. intros tn t Ht.
  pose proof (exec_doc_step c w tn) as Hs. rewrite Ht in Hs.
  destruct (tournaments w !! tn) as [t0|] eqn:H0.
  - eapply Hstep; [by eapply Hw | done].
  - inversion Hs; by subst.
Qed.

(** The same along runs in which every command completes: the change made
    by a report that raises need not keep the property. *)
Lemma run_keeps_invariant_completing (P : Tournament → Prop) :
  P create_tournament_doc →
  (∀ t r t', P t → completed r → doc_step (Some t) r (Some t') → P t') →
  ∀ cs w,
    (∀ tn t, tournaments w !! tn = Some t → P t) →
    run_completes cs w →
    ∀ tn t, tournaments (run cs w) !! tn = Some t → P t.
Proof.
  intros Hnew Hstep. induction cs as [|c cs IH]; intros w Hw Hc; [done|].
  destruct Hc as [Hc Hrest]. cbn. apply IH; [|done]. intros tn t Ht.
  pose proof (exec_doc_step c w tn) as Hs. rewrite Ht in Hs.
  destruct (tournaments w !! tn) as [t0|] eqn:H0.
  - eapply Hstep; [by eapply Hw | done | done].
  - inversion Hs; by subst.
Qed.

(** A preorder on documents that every change respects relates a document
    to what any run makes of it; in particular the document stays. *)
Lemma run_respects (R : Tournament → Tournament → Prop) :
  (∀ t, R t t) →
  (∀ a b c, R a b → R b c → R a c) →
  (∀ t r t', doc_step (Some t) r (Some t') → R t t') →
  ∀ cs w tn t,
    tournaments w !! tn = Some t →
    ∃ t', tournaments (run cs w) !! tn = Some t' ∧ R t t'.
Proof.
  intros Hrefl Htrans Hstep. induction cs as [|c cs IH]; intros w tn t Ht; [eauto|].
  pose proof (exec_doc_step c w tn) as Hs. rewrite Ht in Hs.
  destruct (doc_step_stays _ _ _ Hs) as [t1 Ht1]. rewrite Ht1 in Hs.
  destruct (IH _ tn t1 Ht1) as (t' & Ht' & Hr).
  exists t'. split; [done|]. eapply Htrans; [|done]. by eapply Hstep.
Qed.

(** ** Failures and other tournaments *)

(** X1: a command that answers with a failure has changed nothing. *)
Theorem failed_command_changes_nothing (c : Command) (w : World) :
  is_Some (failure_of (exec c w).2) → (exec c w).1 = w.
Proof.
  destruct c as [name | tn team ids | tn | tn mid wt lt]; cbn [exec].
  - unfold createtourney. destruct (tournaments w !! name); [done|].
    by intros [? [=]].
  - unfold addteam. destruct (tournaments w !! tn); [|done]. by intros [? [=]].
  - unfold starttourney. destruct (tournaments w !! tn); [|done].
    case_bool_decide; [done|]. by intros [? [=]].
  - destruct (matchresult_cases tn mid wt lt w)
      as [[Hsame _]|(t & m & wp & lp & Ht & Hm & Hwin & Hwp & Hlp)]; [done|].
    rewrite (matchresult_accepted _ _ _ _ _ _ _ _ _ Ht Hm Hwin Hwp Hlp).
    destruct (adjust_elo_for_match libm_pow wp lp K_FACTOR (players w)) as [db [e|]];
      cbn [fst snd]; [by intros [? [=]]|].
    case_bool_decide; by intros [? [=]].
Qed.

(** X2: a command reads and writes the document of the tournament it names
    and no other, also when it raises. *)
Theorem command_touches_its_tournament_only (c : Command) (w : World) (tn : string) :
  tn ≠ target c →
  tournaments (exec c w).1 !! tn = tournaments w !! tn.
Proof.
  intros Hne.
  destruct c as [name | tn' team ids | tn' | tn' mid wt lt]; cbn [exec target] in *.
  - unfold createtourney. destruct (tournaments w !! name); [done|].
    cbn. by rewrite lookup_insert_ne.
  - unfold addteam. destruct (tournaments w !! tn'); [|done].
    cbn. by rewrite lookup_alter_ne.
  - unfold starttourney. destruct (tournaments w !! tn'); [|done].
    case_bool_decide; [done|]. cbn. by rewrite lookup_insert_ne.
  - destruct (matchresult_cases tn' mid wt lt w)
      as [[-> _]|(t & m & wp & lp & Ht & Hm & Hwin & Hwp & Hlp)]; [done|].
    rewrite (matchresult_accepted _ _ _ _ _ _ _ _ _ Ht Hm Hwin Hwp Hlp).
    destruct (adjust_elo_for_match libm_pow wp lp K_FACTOR (players w)) as [db [e|]];
      cbn [fst snd].
    + cbn. by rewrite lookup_insert_ne.
    + rewrite try_pair_pending_other by done. cbn. by rewrite lookup_insert_ne.
Qed.

(** ** Nothing is removed *)

Lemma record_result_teams mid wt lt t : teams (record_result mid wt lt t) = teams t.
Proof. done. Qed.

Lemma pass_teams n t : teams (declare_champion (pair_pending n t)) = teams t.
Proof. by rewrite declare_champion_teams, pair_pending_eq. Qed.

(** What identifies a match: everything but its winner. *)
Definition fixture (m : Match) : string * string * option string * Bracket * bool :=
  (match_id m, teamA m, teamB m, bracket m, bye m).

Lemma set_winner_in_fixtures mid wt ms :
  fixture <$> set_winner_in mid wt ms = fixture <$> ms.
Proof.
  induction ms as [|a ms IH]; [done|].
  cbn [set_winner_in]. case_bool_decide; [done|]. cbn. by rewrite IH.
Qed.

Lemma set_winner_in_elem mid wt ms m :
  m ∈ set_winner_in mid wt ms → ∃ m0, m0 ∈ ms ∧ fixture m = fixture m0.
Proof.
  intros Hm. apply (list_elem_of_fmap_2 fixture) in Hm.
  rewrite set_winner_in_fixtures in Hm.
  apply list_elem_of_fmap in Hm as (m0 & ? & ?). eauto.
Qed.

(** X3: along every run a tournament stays, and so do its teams: the team
    names it had are the first of the names it has afterwards, in the same
    order.  No command deletes a tournament or a team. *)
Theorem teams_are_never_removed
    (cs : list Command) (w : World) (tn : string) (t : Tournament) :
  tournaments w !! tn = Some t →
  ∃ t', tournaments (run cs w) !! tn = Some t'
        ∧ team_names t `prefix_of` team_names t'.
Proof.
  apply (run_respects (λ t t', team_names t `prefix_of` team_names t')).
  - done.
  - intros a b c Hab Hbc. by etrans.
  - intros t0 r t' Hs. inversion Hs; subst; unfold team_names.
    + done.
    + cbn. rewrite teams_set_names. case_bool_decide; [done|].
      by apply prefix_app_r.
    + done.
    + done.
    + by rewrite pass_teams.
Qed.

(** X4: the match history only grows, and a match keeps its place, its id,
    its teams, its bracket and its bye flag; the one field of a match that
    a run can change is the winner. *)
Theorem history_is_append_only
    (cs : list Command) (w : World) (tn : string) (t : Tournament) :
  tournaments w !! tn = Some t →
  ∃ t', tournaments (run cs w) !! tn = Some t'
        ∧ (fixture <$> matches t) `prefix_of` (fixture <$> matches t').
Proof.
  apply (run_respects
           (λ t t', (fixture <$> matches t) `prefix_of` (fixture <$> matches t'))).
  - done.
  - intros a b c Hab Hbc. by etrans.
  - intros t0 r t' Hs. inversion Hs; subst.
    + done.
    + done.
    + cbn. rewrite fmap_app. by apply prefix_app_r.
    + cbn. by rewrite set_winner_in_fixtures.
    + rewrite declare_champion_matches, pair_pending_eq. cbn.
      rewrite fmap_app, set_winner_in_fixtures. by apply prefix_app_r.
Qed.

(** ** A tournament does not finish *)

(** The documents reached when no command raises: both pools are empty,
    every lower match is a bye, a tournament that has a match has two teams
    or more, and it has neither finished nor a champion. *)
Definition lower_byes (ms : list Match) : Prop :=
  ∀ m, m ∈ ms → bracket m = lower → bye m = true.

Definition unfinished (t : Tournament) : Prop :=
  pools_empty t
  ∧ lower_byes (matches t)
  ∧ (matches t ≠ [] → (2 ≤ length (teams t))%nat)
  ∧ status t ≠ finished
  ∧ champion t = None.

Lemma filter_all {A} (P : A → Prop) `{∀ x, Decision (P x)} (l : list A) :
  (∀ x, x ∈ l → P x) → filter P l = l.
Proof.
  induction l as [|a l IH]; intros Hl; [done|].
  rewrite filter_cons_True by (apply Hl; left).
  f_equal. apply IH. intros x Hx. apply Hl. by right.
Qed.

Lemma lower_byes_eliminate_nobody ms : lower_byes ms → eliminated ms = ∅.
Proof.
  intros Hms. apply elem_of_equiv_empty_L. intros x.
  rewrite elem_of_eliminated. intros (m & Hm & Hlow & _ & Hbye & _).
  specialize (Hms m Hm Hlow). congruence.
Qed.

Lemma lower_byes_app ms more : lower_byes ms → lower_byes more → lower_byes (ms ++ more).
Proof. intros H1 H2 m [?|?]%elem_of_app; auto. Qed.

Lemma lower_byes_set_winner mid wt ms : lower_byes ms → lower_byes (set_winner_in mid wt ms).
Proof.
  intros Hms m Hm. apply set_winner_in_elem in Hm as (m0 & Hm0 & Hfix).
  injection Hfix as _ _ _ -> ->. by apply Hms.
Qed.

Lemma teams_set_length name ids ts : (length ts ≤ length (teams_set name ids ts))%nat.
Proof.
  rewrite <- (length_fmap fst ts), <- (length_fmap fst (teams_set name ids ts)).
  rewrite teams_set_names. case_bool_decide; [done|]. rewrite length_app. lia.
Qed.

Lemma find_match_in_nonempty ms mid m : find_match_in ms mid = Some m → ms ≠ [].
Proof. by destruct ms. Qed.

Lemma declare_champion_many t :
  lower_byes (matches t) → (2 ≤ length (teams t))%nat → declare_champion t = t.
Proof.
  intros Hbyes Hlen. unfold declare_champion.
  assert (aliveTeams t = team_names t) as ->.
  { unfold aliveTeams. apply filter_all. intros x _.
    rewrite lower_byes_eliminate_nobody by done. apply not_elem_of_empty. }
  unfold team_names. destruct (teams t) as [|? [|? ?]]; cbn in *; [lia|lia|done].
Qed.

Lemma unfinished_step t r t' :
  unfinished t → completed r → doc_step (Some t) r (Some t') → unfinished t'.
Proof.
  intros ([Hpu Hpl] & Hbyes & Hteams & Hst & Hch) Hr Hs.
  inversion Hs; subst.
  - done.
  - repeat split; try done. cbn. intros Hne.
    pose proof (teams_set_length team ids (teams t)). specialize (Hteams Hne). lia.
  - repeat split; try done. cbn.
    apply lower_byes_app; [done|].
    intros m Hm Hlow. apply create_round_matches_upper in Hm as [Hup _]. congruence.
  - done.
  - assert ((2 ≤ length (teams t))%nat) as Hlen.
    { apply Hteams. unfold find_match in *. by eapply find_match_in_nonempty. }
    set (t3 := record_result mid wt lt t).
    assert (pair_pending n t3
            = mkTournament (teams t) (status t) [] []
                (set_winner_in mid wt (matches t)
                 ++ [mkMatch (make_match_id n) wt None (Some wt) upper true;
                     mkMatch (make_match_id (n + 1)) lt None (Some lt) lower true])
                (upper_rounds t ++ [[make_match_id n]])
                (lower_rounds t ++ [[make_match_id (n + 1)]])
                (champion t)) as Hpass.
    { rewrite pair_pending_eq. unfold t3, record_result. cbn. by rewrite Hpu, Hpl. }
    assert (lower_byes (matches (pair_pending n t3))) as Hbyes'.
    { rewrite Hpass. cbn. apply lower_byes_app; [by apply lower_byes_set_winner|].
      intros m0 Hm0 _.
      apply elem_of_cons in Hm0 as [->|Hm0]; [done|].
      by apply list_elem_of_singleton in Hm0 as ->. }
    rewrite declare_champion_many; [|done|by rewrite Hpass].
    rewrite Hpass in Hbyes' |- *. by repeat split.
Qed.

(** X5: along a run in which no command raises, started from a state where
    the pools are empty and no lower match has been played (the state
    without tournaments is one), no tournament finishes and none gets a
    champion.  A report puts one team in each pool, the pairing pass gives
    each of them a bye, so every lower match is a bye, nobody is eliminated,
    and the two or more teams of a started tournament all stay alive. *)
Theorem no_tournament_finishes
    (cs : list Command) (w : World) (tn : string) (t : Tournament) :
  (∀ tn0 t0, tournaments w !! tn0 = Some t0 → unfinished t0) →
  run_completes cs w →
  tournaments (run cs w) !! tn = Some t →
  status t ≠ finished
  ∧ champion t = None
  ∧ eliminated (matches t) = ∅
  ∧ aliveTeams t = team_names t
  ∧ lower_byes (matches t).
Proof.
  intros Hw Hc Ht.
  assert (unfinished t) as (_ & Hbyes & _ & Hst & Hch).
  { eapply (run_keeps_invariant_completing unfinished); [| |exact Hw|exact Hc|exact Ht].
    - split; [done|]. split; [by intros m ?%elem_of_nil|]. by split.
    - intros t0 r t'. apply unfinished_step. }
  split; [done|]. split; [done|].
  split; [by apply lower_byes_eliminate_nobody|]. split; [|done].
  unfold aliveTeams. apply filter_all. intros x _.
  rewrite lower_byes_eliminate_nobody by done. apply not_elem_of_empty.
Qed.

(** ** Rounds *)

(** The ids of the matches of one bracket, in history order. *)
Definition ids_in (tag : Bracket) (ms : list Match) : list string :=
  match_id <$> filter (λ m, bracket m = tag) ms.

(** The round lists of a bracket, flattened, are the ids of the matches of
    that bracket in history order. *)
Definition rounds_list_matches (t : Tournament) : Prop :=
  mjoin (upper_rounds t) = ids_in upper (matches t)
  ∧ mjoin (lower_rounds t) = ids_in lower (matches t).

Lemma ids_in_app tag ms more : ids_in tag (ms ++ more) = ids_in tag ms ++ ids_in tag more.
Proof. unfold ids_in. by rewrite filter_app, fmap_app. Qed.

Lemma ids_in_set_winner tag mid wt ms : ids_in tag (set_winner_in mid wt ms) = ids_in tag ms.
Proof.
  unfold ids_in. induction ms as [|a ms IH]; [done|].
  cbn [set_winner_in]. case_bool_decide.
  - rewrite !filter_cons. cbn. by destruct (decide (bracket a = tag)).
  - rewrite !filter_cons. destruct (decide (bracket a = tag)); cbn; by rewrite IH.
Qed.

Lemma ids_in_same tag ms : (∀ m, m ∈ ms → bracket m = tag) → ids_in tag ms = match_id <$> ms.
Proof. intros Hms. unfold ids_in. by rewrite filter_all. Qed.

Lemma ids_in_other tag ms : (∀ m, m ∈ ms → bracket m ≠ tag) → ids_in tag ms = [].
Proof. intros Hms. unfold ids_in. by rewrite filter_none. Qed.

Lemma join_round_of_each ms : mjoin (round_of_each ms) = match_id <$> ms.
Proof. induction ms as [|a ms IH]; [done|]. cbn. by rewrite <- IH. Qed.

Lemma declare_champion_upper_rounds t : upper_rounds (declare_champion t) = upper_rounds t.
Proof. unfold declare_champion. by destruct (aliveTeams t) as [|? [|??]]. Qed.
Lemma declare_champion_lower_rounds t : lower_rounds (declare_champion t) = lower_rounds t.
Proof. unfold declare_champion. by destruct (aliveTeams t) as [|? [|??]]. Qed.

Lemma pair_pool_tag tag n pool m : m ∈ (pair_pool tag n pool).1 → bracket m = tag.
Proof. by intros [? _]%pair_pool_fresh. Qed.

Lemma rounds_step t r t' :
  rounds_list_matches t → doc_step (Some t) r (Some t') → rounds_list_matches t'.
Proof.
  intros [Hup Hlo] Hs. inversion Hs; subst.
  - done.
  - done.
  - split; cbn [started_doc upper_rounds lower_rounds matches]; rewrite ids_in_app.
    + rewrite join_app, Hup. cbn [mjoin list_join]. rewrite app_nil_r. f_equal.
      symmetry. apply ids_in_same. apply pair_pool_tag.
    + rewrite Hlo, (ids_in_other lower (create_round_matches _ _)), app_nil_r; [done|].
      intros m0 Hm0. apply pair_pool_tag in Hm0. congruence.
  - split; cbn [record_result set_pending_upper set_pending_lower set_matches
                upper_rounds lower_rounds matches]; by rewrite ids_in_set_winner.
  - split.
    + rewrite declare_champion_upper_rounds, declare_champion_matches, pair_pending_eq.
      cbn [record_result set_pending_upper set_pending_lower set_matches
           upper_rounds lower_rounds matches pending_upper pending_lower].
      rewrite join_app, join_round_of_each, !ids_in_app, ids_in_set_winner, Hup.
      f_equal.
      rewrite (ids_in_same upper) by apply pair_pool_tag.
      rewrite (ids_in_other upper), app_nil_r; [done|].
      intros m0 Hm0. apply pair_pool_tag in Hm0. congruence.
    + rewrite declare_champion_lower_rounds, declare_champion_matches, pair_pending_eq.
      cbn [record_result set_pending_upper set_pending_lower set_matches
           upper_rounds lower_rounds matches pending_upper pending_lower].
      rewrite join_app, join_round_of_each, !ids_in_app, ids_in_set_winner, Hlo.
      f_equal.
      rewrite (ids_in_other lower); [|intros m0 Hm0; apply pair_pool_tag in Hm0; congruence].
      cbn [app]. by rewrite (ids_in_same lower) by apply pair_pool_tag.
Qed.

(** X6: every match is listed in the rounds of its bracket, once and in
    history order: along every run, also one in which a command raises, the
    upper rounds flattened are the ids of the upper matches and the lower
    rounds flattened are the ids of the lower matches. *)
Theorem rounds_list_every_match
    (cs : list Command) (w : World) (tn : string) (t : Tournament) :
  (∀ tn0 t0, tournaments w !! tn0 = Some t0 → rounds_list_matches t0) →
  tournaments (run cs w) !! tn = Some t →
  mjoin (upper_rounds t) = ids_in upper (matches t)
  ∧ mjoin (lower_rounds t) = ids_in lower (matches t).
Proof.
  intros Hw Ht.
  eapply (run_keeps_invariant rounds_list_matches); [| |exact Hw|exact Ht].
  - done.
  - apply rounds_step.
Qed.

(** ** Two matches with one id *)

(** [find_match] and the positional update both stop at the first match
    that carries the id: a match standing behind another with the same id
    is out of their reach. *)
Definition shadowed (i : nat) (m : Match) (t : Tournament) : Prop :=
  matches t !! i = Some m
  ∧ ∃ j m', (j < i)%nat ∧ matches t !! j = Some m' ∧ match_id m' = match_id m.

Lemma set_winner_in_lookup_other mid wt ms i m :
  ms !! i = Some m → match_id m ≠ mid → set_winner_in mid wt ms !! i = Some m.
Proof.
  revert i. induction ms as [|a ms IH]; intros i Hi Hne; [done|].
  cbn [set_winner_in]. destruct i as [|i]; cbn in Hi.
  - injection Hi as ->. by rewrite bool_decide_eq_false_2.
  - case_bool_decide; [done|]. cbn. by apply IH.
Qed.

Lemma set_winner_in_shadowed mid wt ms i j m m' :
  (j < i)%nat → ms !! j = Some m' → ms !! i = Some m → match_id m' = match_id m →
  set_winner_in mid wt ms !! i = Some m
  ∧ ∃ m'', set_winner_in mid wt ms !! j = Some m'' ∧ match_id m'' = match_id m.
Proof.
  revert i j. induction ms as [|a ms IH]; intros i j Hlt Hj Hi Hid; [done|].
  destruct i as [|i]; [lia|]. cbn in Hi. cbn [set_winner_in].
  destruct j as [|j]; cbn in Hj.
  - injection Hj as ->. case_bool_decide as Ha.
    + split; [done|]. by exists (set_winner_field (Some wt) m').
    + split; [|by exists m']. cbn. apply set_winner_in_lookup_other; [done|congruence].
  - case_bool_decide as Ha.
    + split; [done|]. by exists m'.
    + cbn. apply (IH i j); [lia|done..].
Qed.

Lemma shadowed_step i m t r t' :
  doc_step (Some t) r (Some t') → shadowed i m t → shadowed i m t'.
Proof.
  intros Hs (Hi & j & m' & Hlt & Hj & Hid). inversion Hs; subst.
  - by split; [|exists j, m'].
  - by split; [|exists j, m'].
  - split; [by apply lookup_app_l_Some|].
    exists j, m'. split; [done|]. split; [|done]. by apply lookup_app_l_Some.
  - destruct (set_winner_in_shadowed mid wt _ i j m m' Hlt Hj Hi Hid)
      as (Hi' & m'' & Hj' & Hid').
    split; [done|]. by exists j, m''.
  - destruct (set_winner_in_shadowed mid wt _ i j m m' Hlt Hj Hi Hid)
      as (Hi' & m'' & Hj' & Hid').
    unfold shadowed. rewrite declare_champion_matches, pair_pending_eq. cbn.
    split; [by apply lookup_app_l_Some|].
    exists j, m''. split; [done|]. split; [|done]. by apply lookup_app_l_Some.
Qed.

(** X7: a match that stands in the history behind another match with the
    same id is never changed by any run of commands: reports with that id
    reach the earlier match only, so the later one never gets a winner it
    does not have already. *)
Theorem shadowed_match_is_never_reported
    (cs : list Command) (w : World) (tn : string) (t : Tournament) (i : nat) (m : Match) :
  tournaments w !! tn = Some t →
  shadowed i m t →
  ∃ t', tournaments (run cs w) !! tn = Some t' ∧ matches t' !! i = Some m.
Proof.
  intros Ht Hsh.
  destruct (run_respects (λ t t', shadowed i m t → shadowed i m t')) with
    (cs := cs) (w := w) (tn := tn) (t := t) as (t' & Ht' & Hr); [auto|auto| |done|].
  - intros t0 r t1 Hs. by apply (shadowed_step i m t0 r t1).
  - exists t'. split; [done|]. by apply Hr.
Qed.

(** ** Profiles of the players on a roster *)

Lemma ensure_players_cons pid ids db :
  ensure_players (pid :: ids) db = ensure_players ids (ensure_player_doc pid db).1.
Proof. done. Qed.

Lemma ensure_players_lookup ids db p :
  ensure_players ids db !! p
  = if bool_decide (p ∈ ids) then Some (profile db p) else db !! p.
Proof.
  revert db. induction ids as [|pid ids IH]; intros db.
  - by rewrite bool_decide_eq_false_2 by apply not_elem_of_nil.
  - rewrite ensure_players_cons, IH.
    destruct (ensure_player_doc_spec pid db) as (_ & Hpid & Hother & Hprof).
    rewrite Hprof. destruct (decide (p ∈ ids)) as [Hin|Hin].
    + rewrite !bool_decide_eq_true_2; [done|by right|done].
    + rewrite (bool_decide_eq_false_2 (p ∈ ids)) by done.
      destruct (decide (p = pid)) as [->|Hne].
      * rewrite bool_decide_eq_true_2 by left. done.
      * rewrite bool_decide_eq_false_2 by (intros [?|?]%elem_of_cons; done).
        by apply Hother.
Qed.

Lemma ensure_players_profile ids db p : profile (ensure_players ids db) p = profile db p.
Proof.
  unfold profile at 1. rewrite ensure_players_lookup.
  case_bool_decide; [done|]. done.
Qed.

Lemma fetch_docs_db pids db acc : (fetch_docs pids db acc).1 = ensure_players pids db.
Proof.
  revert db acc. induction pids as [|pid rest IH]; intros db acc; [done|].
  rewrite ensure_players_cons. cbn [fetch_docs].
  destruct (ensure_player_doc pid db) as [db' doc]. apply IH.
Qed.

Lemma persist_is_Some winner_ids ups db p :
  is_Some (persist winner_ids ups db !! p) ↔ is_Some (db !! p).
Proof.
  revert db. induction ups as [|[q n] rest IH]; intros db; [done|].
  rewrite persist_cons, IH.
  destruct (decide (q = p)) as [->|Hne].
  - case_bool_decide; by rewrite lookup_alter_eq, fmap_is_Some.
  - case_bool_decide; by rewrite lookup_alter_ne.
Qed.

Lemma adjust_profiles ws ls k db p :
  is_Some ((adjust_elo_for_match libm_pow ws ls k db).1 !! p)
  ↔ is_Some (db !! p) ∨ p ∈ ws ++ ls.
Proof.
  unfold adjust_elo_for_match.
  pose proof (fetch_docs_db (ws ++ ls) db ∅) as Hdb.
  destruct (fetch_docs (ws ++ ls) db ∅) as [db1 fetched]. cbn in Hdb. subst db1.
  assert (is_Some (ensure_players (ws ++ ls) db !! p)
          ↔ is_Some (db !! p) ∨ p ∈ ws ++ ls) as Hens.
  { rewrite ensure_players_lookup. case_bool_decide; [|tauto].
    split; [by right|by eexists]. }
  destruct (compute_updates libm_pow fetched ws ls k); cbn [fst]; [|done].
  by rewrite persist_is_Some.
Qed.

Definition rosters_registered (w : World) : Prop :=
  ∀ tn t team ids p,
    tournaments w !! tn = Some t → (team, ids) ∈ teams t → p ∈ ids →
    is_Some (players w !! p).

Lemma teams_set_elem name ids ts k v :
  (k, v) ∈ teams_set name ids ts → (k, v) ∈ ts ∨ v = ids.
Proof.
  induction ts as [|[k0 v0] ts IH]; cbn [teams_set].
  - intros [= -> ->]%list_elem_of_singleton. by right.
  - case_bool_decide.
    + intros [[= -> ->]|Hin]%elem_of_cons; [by right|]. left. by right.
    + intros [[= -> ->]|Hin]%elem_of_cons; [left; left|].
      destruct (IH Hin) as [?|?]; [left; by right|by right].
Qed.

Lemma teams_get_elem name ts ids : teams_get name ts = Some ids → (name, ids) ∈ ts.
Proof.
  induction ts as [|[k v] ts IH]; [done|]. cbn. case_bool_decide as Hk.
  - intros [= ->]. subst k. left.
  - intros Hin. right. by apply IH.
Qed.

Lemma exec_players_grow c w p :
  is_Some (players w !! p) → is_Some (players (exec c w).1 !! p).
Proof.
  intros Hp. destruct c as [name | tn team ids | tn | tn mid wt lt]; cbn [exec].
  - unfold createtourney. by destruct (tournaments w !! name).
  - destruct (tournaments w !! tn) as [t|] eqn:Ht.
    + rewrite (addteam_present tn team ids w t Ht). cbn.
      rewrite ensure_players_lookup. case_bool_decide; [by eexists|done].
    + unfold addteam. by rewrite Ht.
  - unfold starttourney. destruct (tournaments w !! tn); [|done].
    by case_bool_decide.
  - destruct (matchresult_cases tn mid wt lt w)
      as [[-> _]|(t & m & wp & lp & Ht & Hm & Hwin & Hwp & Hlp)]; [done|].
    rewrite (matchresult_accepted _ _ _ _ _ _ _ _ _ Ht Hm Hwin Hwp Hlp).
    pose proof (proj2 (adjust_profiles wp lp K_FACTOR (players w) p) (or_introl Hp))
      as Hadj.
    destruct (adjust_elo_for_match libm_pow wp lp K_FACTOR (players w)) as [db [e|]];
      cbn [fst snd] in *; [done|].
    by rewrite try_pair_pending_players.
Qed.

Lemma doc_step_roster t r t' team ids :
  doc_step (Some t) r (Some t') → (team, ids) ∈ teams t' →
  (team, ids) ∈ teams t ∨ r = TeamAdded.
Proof.
  intros Hs Hin. inversion Hs; subst; try (by left); try (by right).
  left. by rewrite pass_teams in Hin.
Qed.

Lemma exec_reply_team_added c w :
  (exec c w).2 = TeamAdded →
  ∃ tn team ids t, c = AddTeam tn team ids ∧ tournaments w !! tn = Some t.
Proof.
  destruct c as [name | tn0 team0 ids0 | tn0 | tn0 mid wt lt]; cbn [exec]; intros Hr.
  - unfold createtourney in Hr. by destruct (tournaments w !! name).
  - destruct (tournaments w !! tn0) as [t|] eqn:Ht; [by exists tn0, team0, ids0, t|].
    unfold addteam in Hr. by rewrite Ht in Hr.
  - unfold starttourney in Hr. destruct (tournaments w !! tn0); [|done].
    by case_bool_decide.
  - unfold matchresult in Hr. by repeat case_match.
Qed.

Lemma exec_keeps_rosters_registered c w :
  rosters_registered w → rosters_registered (exec c w).1.
Proof.
  intros Hw tn t' team ids p Ht' Hteam Hp.
  pose proof (exec_doc_step c w tn) as Hs. rewrite Ht' in Hs.
  destruct (tournaments w !! tn) as [t|] eqn:Ht.
  - destruct (doc_step_roster _ _ _ _ _ Hs Hteam) as [Hold|Hr].
    { apply exec_players_grow. by eapply Hw. }
    apply exec_reply_team_added in Hr as (tn0 & team0 & ids0 & t0 & -> & Ht0).
    cbn [exec] in *. rewrite (addteam_present tn0 team0 ids0 w t0 Ht0) in Ht' |- *.
    cbn in Ht' |- *. rewrite ensure_players_lookup.
    case_bool_decide; [by eexists|].
    apply lookup_insert_Some in Ht' as [[<- <-]|[Hne Ht']].
    + cbn in Hteam. apply teams_set_elem in Hteam as [Hold| ->]; [|done].
      by eapply Hw.
    + by apply (Hw tn t' team ids p).
  - inversion Hs; subst. by apply elem_of_nil in Hteam.
Qed.

Lemma run_keeps_rosters_registered cs w :
  rosters_registered w → rosters_registered (run cs w).
Proof.
  revert w. induction cs as [|c cs IH]; intros w Hw; [done|].
  cbn. apply IH. by apply exec_keeps_rosters_registered.
Qed.

(** X9: along every run, every player listed on a roster has a profile
    ([addteam] creates it); so a report never creates a profile: the
    profiles after it are those of before. *)
Theorem rostered_players_have_profiles (cs : list Command) (w : World) :
  rosters_registered w →
  rosters_registered (run cs w)
  ∧ ∀ tn mid wt lt p,
      is_Some (players (matchresult tn mid wt lt (run cs w)).1 !! p)
      ↔ is_Some (players (run cs w) !! p).
Proof.
  intros Hw. pose proof (run_keeps_rosters_registered cs w Hw) as Hrun.
  split; [done|]. intros tn mid wt lt p. split.
  2: { apply (exec_players_grow (MatchResult tn mid wt lt)). }
  set (w' := run cs w) in *.
  destruct (matchresult_cases tn mid wt lt w')
    as [[-> _]|(t & m & wp & lp & Ht & Hm & Hwin & Hwp & Hlp)]; [done|].
  rewrite (matchresult_accepted _ _ _ _ _ _ _ _ _ Ht Hm Hwin Hwp Hlp).
  pose proof (proj1 (adjust_profiles wp lp K_FACTOR (players w') p)) as Hadj.
  assert (p ∈ wp ++ lp → is_Some (players w' !! p)) as Hreg.
  { intros [Hin|Hin]%elem_of_app.
    - eapply (Hrun tn t wt wp); [done|by apply teams_get_elem|done].
    - eapply (Hrun tn t lt lp); [done|by apply teams_get_elem|done]. }
  destruct (adjust_elo_for_match libm_pow wp lp K_FACTOR (players w')) as [db [e|]];
    cbn [fst snd] in *.
  - intros Hp. destruct (Hadj Hp); auto.
  - rewrite try_pair_pending_players. cbn. intros Hp. destruct (Hadj Hp); auto.
Qed.

(** ** A rating update that raises *)

Lemma adjust_raised ws ls k db db' e :
  adjust_elo_for_match libm_pow ws ls k db = (db', Some e) →
  db' = ensure_players (ws ++ ls) db.
Proof.
  unfold adjust_elo_for_match.
  pose proof (fetch_docs_db (ws ++ ls) db ∅) as Hdb.
  destruct (fetch_docs (ws ++ ls) db ∅) as [db1 fetched]. cbn in Hdb. subst db1.
  destruct (compute_updates libm_pow fetched ws ls k); [done|]. by intros [= <- _].
Qed.

(** X10: when the computation of the new ratings raises (an average over an
    empty roster, a rating beyond the doubles, a power that overflows), no
    rating has been stored: every new rating is computed from the fetched
    documents before the first [update_one].  [adjust_elo_for_match] then
    raises that exception and leaves behind the default profiles of the
    listed players who had none; every player's wins, losses and rating are
    those of before.  The statement is about the computation only: the
    stores of the last loop are not taken to fail here. *)
Theorem failed_rating_computation_stores_nothing
    (ws ls : list Z) (k : Z) (db : gmap Z Player) (e : PyError) :
  compute_updates libm_pow (fetch_docs (ws ++ ls) db ∅).2 ws ls k = Raise e →
  adjust_elo_for_match libm_pow ws ls k db = (ensure_players (ws ++ ls) db, Some e)
  ∧ (∀ p doc, db !! p = Some doc → ensure_players (ws ++ ls) db !! p = Some doc)
  ∧ (∀ p doc, ensure_players (ws ++ ls) db !! p = Some doc →
              doc = default default_player (db !! p)).
Proof.
  intros Hraise. split; [|split].
  - unfold adjust_elo_for_match.
    pose proof (fetch_docs_db (ws ++ ls) db ∅) as Hdb.
    destruct (fetch_docs (ws ++ ls) db ∅) as [db1 fetched]. cbn in Hdb, Hraise.
    subst db1. by rewrite Hraise.
  - intros p doc Hp. rewrite ensure_players_lookup. unfold profile. rewrite Hp.
    by case_bool_decide.
  - intros p doc. rewrite ensure_players_lookup. unfold profile.
    case_bool_decide; [congruence|]. by intros ->.
Qed.

Lemma sum_elo_fetched ids all db :
  ids ⊆ all → sum_elo (fetch_docs all db ∅).2 ids = Ok (elo_sum db ids).
Proof.
  intros Hsub. destruct (fetch_docs all db ∅) as [db1 fetched] eqn:Hf.
  destruct (fetch_docs_spec _ _ _ _ _ Hf) as [Hin _].
  apply sum_elo_spec. intros p Hp. by apply Hin, Hsub.
Qed.

Lemma int_truediv_raises a b e :
  int_truediv a b = Raise e →
  (b = 0%Z ∧ e = ZeroDivisionError) ∨ (b ≠ 0%Z ∧ e = OverflowError).
Proof.
  unfold int_truediv. destruct (Z.eqb_spec b 0) as [->|Hb].
  - intros [= <-]. by left.
  - cbn zeta. match goal with |- context [is_finite ?f] => destruct (is_finite f) end;
      [done|]. intros [= <-]. by right.
Qed.

Lemma adjust_empty_roster ws ls k db :
  ws = [] ∨ ls = [] →
  ∃ e, adjust_elo_for_match libm_pow ws ls k db = (ensure_players (ws ++ ls) db, Some e)
       ∧ (e = ZeroDivisionError ∨ e = OverflowError)
       ∧ (ws = [] → e = ZeroDivisionError).
Proof.
  intros Hempty. unfold adjust_elo_for_match.
  pose proof (fetch_docs_db (ws ++ ls) db ∅) as Hdb.
  pose proof (sum_elo_fetched ws (ws ++ ls) db) as Hws.
  pose proof (sum_elo_fetched ls (ws ++ ls) db) as Hls.
  destruct (fetch_docs (ws ++ ls) db ∅) as [db1 fetched]. cbn in Hdb, Hws, Hls.
  subst db1. unfold compute_updates, team_average.
  rewrite Hws, Hls by (intros p Hp; apply elem_of_app; auto). rewrite !bind_Ok.
  destruct (int_truediv (elo_sum db ws) (Z.of_nat (length ws))) as [win_avg|e] eqn:Hw.
  - rewrite bind_Ok.
    destruct Hempty as [->| ->]; [done|]. cbn.
    exists ZeroDivisionError. split; [done|]. split; [by left|done].
  - cbn. exists e. split; [done|].
    apply int_truediv_raises in Hw as [[_ ->]|[Hne ->]]; [split; [by left|done]|].
    split; [by right|]. intros ->. done.
Qed.

(** X11: a report that names a team with an empty roster raises half way:
    the winner is written on the match and both teams are put in the
    pools, then the rating update divides by the size of the empty roster
    ([ZeroDivisionError]; an [OverflowError] when the winners' average is
    beyond the doubles and only the losers' roster is empty).  No rating
    changes, no pairing pass runs, no match is created. *)
Theorem report_with_empty_roster_raises_halfway
    (w : World) (tn mid wt lt : string) (t : Tournament) (m : Match) (wp lp : list Z) :
  tournaments w !! tn = Some t →
  find_match t mid = Some m →
  truthy (winner m) = false →
  teams_get wt (teams t) = Some wp →
  teams_get lt (teams t) = Some lp →
  wp = [] ∨ lp = [] →
  ∃ e, matchresult tn mid wt lt w
       = (mkWorld (<[tn := record_result mid wt lt t]> (tournaments w))
            (ensure_players (wp ++ lp) (players w)) (draws w),
          Raised e)
       ∧ (e = ZeroDivisionError ∨ e = OverflowError)
       ∧ (wp = [] → e = ZeroDivisionError).
Proof.
  intros Ht Hm Hwin Hwp Hlp Hempty.
  rewrite (matchresult_accepted _ _ _ _ _ _ _ _ _ Ht Hm Hwin Hwp Hlp).
  destruct (adjust_empty_roster wp lp K_FACTOR (players w) Hempty) as (e & -> & He).
  by exists e.
Qed.

(** ** Wins and losses, entry by entry *)

Definition occurrences (p : Z) (l : list Z) : nat := length (filter (λ q, q = p) l).

Lemma occurrences_cons_eq p l : occurrences p (p :: l) = S (occurrences p l).
Proof. unfold occurrences. by rewrite filter_cons_True. Qed.

Lemma occurrences_cons_ne p q l : q ≠ p → occurrences p (q :: l) = occurrences p l.
Proof. intros Hne. unfold occurrences. by rewrite filter_cons_False. Qed.

Lemma persist_counts winner_ids ups db p doc :
  db !! p = Some doc →
  ∃ doc', persist winner_ids ups db !! p = Some doc'
          ∧ wins doc' = wins doc
                        + (if bool_decide (p ∈ winner_ids) then occurrences p ups.*1 else 0)
          ∧ losses doc' = losses doc
                          + (if bool_decide (p ∈ winner_ids) then 0 else occurrences p ups.*1).
Proof.
  revert db doc. induction ups as [|[q n] rest IH]; intros db doc Hp.
  - exists doc. split; [done|]. by case_bool_decide.
  - rewrite persist_cons, fmap_cons. cbn [fst].
    destruct (decide (q = p)) as [->|Hne].
    + rewrite occurrences_cons_eq.
      destruct (decide (p ∈ winner_ids)) as [Hin|Hin].
      * rewrite !(bool_decide_eq_true_2 _ Hin).
        destruct (IH (alter (record_win n) p db) (record_win n doc))
          as (doc' & Hdoc' & Hw & Hl); [by rewrite lookup_alter_eq, Hp|].
        rewrite (bool_decide_eq_true_2 _ Hin) in Hw, Hl.
        exists doc'. split; [done|]. cbn in Hw, Hl. lia.
      * rewrite !(bool_decide_eq_false_2 _ Hin).
        destruct (IH (alter (record_loss n) p db) (record_loss n doc))
          as (doc' & Hdoc' & Hw & Hl); [by rewrite lookup_alter_eq, Hp|].
        rewrite (bool_decide_eq_false_2 _ Hin) in Hw, Hl.
        exists doc'. split; [done|]. cbn in Hw, Hl. lia.
    + rewrite occurrences_cons_ne by done.
      apply IH. by destruct (bool_decide (q ∈ winner_ids)); rewrite lookup_alter_ne.
Qed.

Lemma compute_updates_keys fetched db ws ls k ups :
  (∀ p, p ∈ ws ++ ls → fetched !! p = Some (profile db p)) →
  compute_updates libm_pow fetched ws ls k = Ok ups → ups.*1 = ws ++ ls.
Proof.
  intros Hf Hupd. unfold compute_updates in Hupd.
  apply bind_Ok_inv in Hupd as (win_avg & _ & Hupd).
  apply bind_Ok_inv in Hupd as (lose_avg & _ & Hupd).
  apply bind_Ok_inv in Hupd as (expected_win & _ & Hupd).
  apply bind_Ok_inv in Hupd as (us & Hws & Hupd).
  apply bind_Ok_inv in Hupd as (vs & Hls & Hupd). injection Hupd as <-.
  destruct (rate_team_spec fetched db _ _ _ _ _
              (λ p Hp, Hf p (proj2 (elem_of_app _ _ _) (or_introl Hp))) Hws) as [Hus _].
  destruct (rate_team_spec fetched db _ _ _ _ _
              (λ p Hp, Hf p (proj2 (elem_of_app _ _ _) (or_intror Hp))) Hls) as [Hvs _].
  by rewrite fmap_app, Hus, Hvs.
Qed.

(** X12: the update counts one game per roster entry, and counts it as a win
    exactly when the player is on the winners' roster.  A player listed
    [n] times over the two rosters gets [n] more wins when the winners'
    roster lists the player, [n] more losses otherwise; so a player on both
    rosters gets wins only, and the same team reported as winner and loser
    gives each of its players two wins and no loss. *)
Theorem games_are_counted_per_roster_entry
    (ws ls : list Z) (k : Z) (db db' : gmap Z Player) (p : Z) :
  adjust_elo_for_match libm_pow ws ls k db = (db', None) →
  p ∈ ws ++ ls →
  ∃ doc, db' !! p = Some doc
         ∧ wins doc = wins (default default_player (db !! p))
                      + (if bool_decide (p ∈ ws) then occurrences p (ws ++ ls) else 0)
         ∧ losses doc = losses (default default_player (db !! p))
                        + (if bool_decide (p ∈ ws) then 0 else occurrences p (ws ++ ls)).
Proof.
  intros Hadj Hp. unfold adjust_elo_for_match in Hadj.
  destruct (fetch_docs (ws ++ ls) db ∅) as [db1 fetched] eqn:Hfetch.
  destruct (fetch_docs_spec _ _ _ _ _ Hfetch) as [Hin _].
  destruct (compute_updates libm_pow fetched ws ls k) as [ups|] eqn:Hupd; [|done].
  injection Hadj as <-.
  rewrite <- (compute_updates_keys fetched db ws ls k ups); [|by intros q Hq; apply Hin|done].
  apply persist_counts. by apply Hin.
Qed.

End Engine.

(** * Concrete tournaments

    The theorems above hold for every random source and every [pow].  The
    runs below fix them: ids count the draws, the shuffle reverses the
    list (so that [create_round_matches], popping from the end, pairs the
    teams in the order they were added), and [pow] is never reached,
    because the two teams of every report below have the same average
    rating: the exponent is then 0.0, and [pow10] answers that case
    itself. *)

Definition demo_pow : float → float → float := λ _ _, nan.
Definition demo_id (n : nat) : string := pretty n.
Definition demo_shuffle (n : nat) (l : list string) : list string := reverse l.

Definition demo_run : list Command → World → World :=
  run demo_pow demo_id demo_shuffle.
Definition demo_report : string → string → string → string → World → World * Reply :=
  matchresult demo_pow demo_id.

Definition empty_world : World := mkWorld ∅ ∅ 0.

(** Three teams A, B, C; [starttourney] pairs A with B and gives C a bye. *)
Definition three_teams : World :=
  demo_run [CreateTourney "T";
            AddTeam "T" "A" [1; 2]%Z;
            AddTeam "T" "B" [3; 4]%Z;
            AddTeam "T" "C" [5; 6]%Z;
            StartTourney "T"] empty_world.

Definition three_teams_started : Tournament :=
  {| teams := [("A", [1; 2]%Z); ("B", [3; 4]%Z); ("C", [5; 6]%Z)];
     status := running;
     pending_upper := [];
     pending_lower := [];
     matches := [mkMatch "1" "A" (Some "B") None upper false;
                 mkMatch "2" "C" None (Some "C") upper true];
     upper_rounds := [["1"; "2"]];
     lower_rounds := [];
     champion := None |}.

Example three_teams_state :
  three_teams = mkWorld {[ "T" := three_teams_started ]}
                  (list_to_map ((λ p, (p, default_player)) <$> [1; 2; 3; 4; 5; 6]%Z)) 3.
Proof. by vm_compute. Qed.

(** A tournament that has finished: B lost the lower match "7" to A, and
    the upper match "8" was never reported. *)
Definition finished_doc : Tournament :=
  {| teams := [("A", [1]%Z); ("B", [2]%Z)];
     status := finished;
     pending_upper := [];
     pending_lower := [];
     matches := [mkMatch "7" "A" (Some "B") (Some "A") lower false;
                 mkMatch "8" "A" (Some "B") None upper false];
     upper_rounds := [["8"]];
     lower_rounds := [["7"]];
     champion := Some "A" |}.

Definition finished_world : World := mkWorld {[ "T" := finished_doc ]} ∅ 9.

Ltac by_computing := apply (bool_decide_unpack _); vm_compute; exact I.

(** ** C1: one report on three teams *)

(** After A is reported winner over B, the pairing pass finds A alone in
    the upper pool and B alone in the lower pool: both get a bye.  A is
    not paired with C, no match between them exists, B is in no pool. *)
Lemma three_team_report_pairs_nobody :
  tournaments (demo_report "T" "1" "A" "B" three_teams).1 !! "T"
  = Some {| teams := [("A", [1; 2]%Z); ("B", [3; 4]%Z); ("C", [5; 6]%Z)];
            status := running;
            pending_upper := [];
            pending_lower := [];
            matches := [mkMatch "1" "A" (Some "B") (Some "A") upper false;
                        mkMatch "2" "C" None (Some "C") upper true;
                        mkMatch "3" "A" None (Some "A") upper true;
                        mkMatch "4" "B" None (Some "B") lower true];
            upper_rounds := [["1"; "2"]; ["3"]];
            lower_rounds := [["4"]];
            champion := None |}
  ∧ (demo_report "T" "1" "A" "B" three_teams).2 = ResultRecorded.
Proof. by vm_compute. Qed.

Lemma report_on_empty_pools_gives_two_byes_witness :
  ∃ t', tournaments (demo_report "T" "1" "A" "B" three_teams).1 !! "T" = Some t'
        ∧ matches t'
          = [mkMatch "1" "A" (Some "B") (Some "A") upper false;
             mkMatch "2" "C" None (Some "C") upper true;
             mkMatch "3" "A" None (Some "A") upper true;
             mkMatch "4" "B" None (Some "B") lower true]
        ∧ pools_empty t'
        ∧ aliveTeams t' = ["A"; "B"; "C"]
        ∧ status t' = running.
Proof.
  apply report_on_empty_pools_gives_two_byes
    with (t := three_teams_started)
         (m := mkMatch "1" "A" (Some "B") None upper false)
         (wp := [1; 2]%Z) (lp := [3; 4]%Z).
  - by vm_compute.
  - by split.
  - by vm_compute.
  - by vm_compute.
  - done.
  - by vm_compute.
  - by vm_compute.
  - by vm_compute.
Defined.

(** ** C2: a report naming teams that did not play the match *)

(** Match "1" is A against B.  Reporting C as its winner over A is
    accepted: C is written on the match as winner, and the ratings of C's
    and A's players change. *)
Lemma report_with_foreign_teams_is_accepted :
  (demo_report "T" "1" "C" "A" three_teams).2 = ResultRecorded
  ∧ (find_match_in (matches three_teams_started) "1"
     = Some (mkMatch "1" "A" (Some "B") None upper false))
  ∧ (t ← tournaments (demo_report "T" "1" "C" "A" three_teams).1 !! "T";
     find_match t "1")
    = Some (mkMatch "1" "A" (Some "B") (Some "C") upper false)
  ∧ players (demo_report "T" "1" "C" "A" three_teams).1 !! 5%Z
    = Some (mkPlayer 1 0 1216)
  ∧ players (demo_report "T" "1" "C" "A" three_teams).1 !! 1%Z
    = Some (mkPlayer 0 1 1184).
Proof. by vm_compute. Qed.

Lemma report_validates_team_names_only_witness :
  (teams_get "C" (teams three_teams_started) = None
   ∨ teams_get "Z" (teams three_teams_started) = None →
   demo_report "T" "1" "C" "Z" three_teams = (three_teams, TeamNamesNotFound)
   ∧ failure_of TeamNamesNotFound = Some Validation)
  ∧ (is_Some (teams_get "C" (teams three_teams_started)) →
     is_Some (teams_get "Z" (teams three_teams_started)) →
     failure_of (demo_report "T" "1" "C" "Z" three_teams).2 = None
     ∧ ∃ t' m', tournaments (demo_report "T" "1" "C" "Z" three_teams).1 !! "T" = Some t'
                ∧ find_match t' "1" = Some m'
                ∧ winner m' = Some "C"
                ∧ teamA m' = "A" ∧ teamB m' = Some "B").
Proof.
  apply report_validates_team_names_only
    with (t := three_teams_started)
         (m := mkMatch "1" "A" (Some "B") None upper false).
  - by vm_compute.
  - by vm_compute.
  - by vm_compute.
Defined.

(** ** C3: a report on a finished tournament *)

(** The open match "8" of the finished tournament is reported: the report
    is accepted, B is written as its winner, two byes are appended and the
    ratings of both players change. *)
Lemma report_on_finished_tournament_is_accepted :
  status finished_doc = finished
  ∧ (demo_report "T" "8" "B" "A" finished_world).2 = TournamentFinished (Some "A")
  ∧ failure_of (demo_report "T" "8" "B" "A" finished_world).2 = None
  ∧ (matches <$> tournaments (demo_report "T" "8" "B" "A" finished_world).1 !! "T")
    = Some [mkMatch "7" "A" (Some "B") (Some "A") lower false;
            mkMatch "8" "A" (Some "B") (Some "B") upper false;
            mkMatch "9" "B" None (Some "B") upper true;
            mkMatch "10" "A" None (Some "A") lower true]
  ∧ players (demo_report "T" "8" "B" "A" finished_world).1 !! 2%Z
    = Some (mkPlayer 1 0 1216)
  ∧ players (demo_report "T" "8" "B" "A" finished_world).1 !! 1%Z
    = Some (mkPlayer 0 1 1184).
Proof. by vm_compute. Qed.

Lemma report_on_finished_tournament_witness :
  status finished_doc = finished
  ∧ failure_of (demo_report "T" "8" "B" "A" finished_world).2 = None
  ∧ ∃ t' m', tournaments (demo_report "T" "8" "B" "A" finished_world).1 !! "T" = Some t'
             ∧ find_match t' "8" = Some m'
             ∧ winner m' = Some "B".
Proof.
  split; [done|].
  apply report_on_finished_tournament_is_not_refused
    with (t := finished_doc) (m := mkMatch "8" "A" (Some "B") None upper false).
  - by vm_compute.
  - done.
  - by vm_compute.
  - by vm_compute.
  - by eexists.
  - by eexists.
Defined.

(** ** C4: who is alive *)

(** Five teams; E has no player.  Round one pairs A with B ("1") and C
    with D ("2") and gives E a bye.  The report of E over B on match "1"
    raises and leaves E and B in the pools; the report of C over D then
    pairs the lower pool into the lower match "5", B against D.  Match "5"
    is reported with A as its winner, a team that did not play it.  The
    terminal check eliminates D, the teamB of the match; B, its other
    losing side, stays alive. *)
Definition foreign_winner_world : World :=
  demo_run [CreateTourney "T";
            AddTeam "T" "A" [1]%Z;
            AddTeam "T" "B" [2]%Z;
            AddTeam "T" "C" [3]%Z;
            AddTeam "T" "D" [4]%Z;
            AddTeam "T" "E" [];
            StartTourney "T";
            MatchResult "T" "1" "E" "B";
            MatchResult "T" "2" "C" "D";
            MatchResult "T" "5" "A" "B"] empty_world.

Definition foreign_winner_doc : Tournament :=
  {| teams := [("A", [1]%Z); ("B", [2]%Z); ("C", [3]%Z); ("D", [4]%Z); ("E", [])];
     status := running;
     pending_upper := [];
     pending_lower := [];
     matches := [mkMatch "1" "A" (Some "B") (Some "E") upper false;
                 mkMatch "2" "C" (Some "D") (Some "C") upper false;
                 mkMatch "3" "E" None (Some "E") upper true;
                 mkMatch "4" "E" (Some "C") None upper false;
                 mkMatch "5" "B" (Some "D") (Some "A") lower false;
                 mkMatch "6" "A" None (Some "A") upper true;
                 mkMatch "7" "B" None (Some "B") lower true];
     upper_rounds := [["1"; "2"; "3"]; ["4"]; ["6"]];
     lower_rounds := [["5"]; ["7"]];
     champion := None |}.

Lemma foreign_winner_keeps_a_losing_side_alive :
  tournaments foreign_winner_world !! "T" = Some foreign_winner_doc
  ∧ lost_lower_match "B" (mkMatch "5" "B" (Some "D") (Some "A") lower false)
  ∧ lost_lower_match "D" (mkMatch "5" "B" (Some "D") (Some "A") lower false)
  ∧ aliveTeams foreign_winner_doc = ["A"; "B"; "C"; "E"].
Proof.
  split; [by vm_compute|]. split; [|split; [|by vm_compute]].
  - split; [done|]. split; [done|]. exists "A". split; [done|]. split; [done|].
    by_computing.
  - split; [done|]. split; [done|]. exists "A". split; [done|]. split; [done|].
    by_computing.
Qed.

(** Teams A, B, C; B lost the lower match "5" to A, C lost the upper match
    "6" to A and holds a lower bye.  B is out, C is not. *)
Definition lower_loss_doc : Tournament :=
  {| teams := [("A", [1]%Z); ("B", [2]%Z); ("C", [3]%Z)];
     status := running;
     pending_upper := [];
     pending_lower := [];
     matches := [mkMatch "5" "A" (Some "B") (Some "A") lower false;
                 mkMatch "6" "A" (Some "C") (Some "A") upper false;
                 mkMatch "7" "C" None (Some "C") lower true];
     upper_rounds := [["6"]];
     lower_rounds := [["5"]; ["7"]];
     champion := None |}.

Definition lower_loss_world : World := mkWorld {[ "T" := lower_loss_doc ]} ∅ 8.

(** Teams A and B; B lost the lower match "5" to A and the pass has not
    run yet: A is the one team alive, and the pass makes it the champion. *)
Definition last_match_doc : Tournament :=
  {| teams := [("A", [1]%Z); ("B", [2]%Z)];
     status := running;
     pending_upper := [];
     pending_lower := [];
     matches := [mkMatch "5" "A" (Some "B") (Some "A") lower false];
     upper_rounds := [];
     lower_rounds := [["5"]];
     champion := None |}.

Definition last_match_world : World := mkWorld {[ "T" := last_match_doc ]} ∅ 6.

Example last_match_pass :
  tournaments (try_pair_pending demo_id "T" last_match_world) !! "T"
  = Some (set_champion (Some "A") (set_status finished last_match_doc)).
Proof. by vm_compute. Qed.

Lemma alive_teams_and_champion_witness :
  aliveTeams lower_loss_doc = ["A"; "C"]
  ∧ (∀ x, x ∈ aliveTeams lower_loss_doc ↔
          x ∈ team_names lower_loss_doc
          ∧ ∀ m, m ∈ matches lower_loss_doc → ¬ eliminated_by x m)
  ∧ aliveTeams last_match_doc = ["A"]
  ∧ ∃ t', tournaments (try_pair_pending demo_id "T" last_match_world) !! "T" = Some t'
          ∧ aliveTeams t' = ["A"]
          ∧ status t' = finished ∧ champion t' = Some "A".
Proof.
  split; [by vm_compute|]. split.
  - apply (alive_teams_and_champion demo_id lower_loss_world "T" lower_loss_doc).
    by vm_compute.
  - split; [by vm_compute|].
    destruct (alive_teams_and_champion demo_id last_match_world "T" last_match_doc)
      as (_ & _ & _ & t' & Ht' & Hone & _); [by vm_compute|].
    exists t'. rewrite last_match_pass in Ht'. injection Ht' as <-.
    assert (aliveTeams (set_champion (Some "A") (set_status finished last_match_doc))
            = ["A"]) as Halive by (by vm_compute).
    split; [exact last_match_pass|]. split; [exact Halive|]. by apply Hone.
Defined.

(** ** C5: pairing a pool of three *)

Lemma pairing_covers_pool_once_witness :
  (pair_pool demo_id lower 7 ["A"; "B"; "C"]).1
  = [mkMatch "7" "A" (Some "B") None lower false;
     mkMatch "8" "C" None (Some "C") lower true]
  ∧ pairs_off ["A"; "B"; "C"] (pair_pool demo_id lower 7 ["A"; "B"; "C"]).1
  ∧ pairs_off ["A"; "B"; "C"] (create_round_matches demo_id demo_shuffle 7 ["A"; "B"; "C"]).
Proof.
  split; [by vm_compute|].
  apply pairing_covers_pool_once.
  - by_computing.
  - apply reverse_Permutation.
Defined.

(** ** C6: ratings *)

(** Two players rated 2^53 + 1 meet.  The expected score is one half and
    [round(32 * 0.5)] is 16, yet the winner gains 15 and the loser loses
    17: the rating is converted to a double before the change is added. *)
Definition huge_ratings : gmap Z Player :=
  {[ 1%Z := mkPlayer 0 0 9007199254740993; 2%Z := mkPlayer 0 0 9007199254740993 ]}.

Lemma huge_rating_changes_by_fifteen :
  (adjust_elo_for_match demo_pow [1]%Z [2]%Z K_FACTOR huge_ratings).2 = None
  ∧ (adjust_elo_for_match demo_pow [1]%Z [2]%Z K_FACTOR huge_ratings).1 !! 1%Z
    = Some (mkPlayer 1 0 (9007199254740993 + 15))
  ∧ (adjust_elo_for_match demo_pow [1]%Z [2]%Z K_FACTOR huge_ratings).1 !! 2%Z
    = Some (mkPlayer 0 1 (9007199254740993 - 17))
  ∧ py_round (32 * (1 - 0.5))%float = Ok 16%Z
  ∧ py_round (32 * (0 - 0.5))%float = Ok (-16)%Z.
Proof. by vm_compute. Qed.

(** Four players without a profile yet: all get the default rating. *)
Definition no_players : gmap Z Player := ∅.

Lemma ratings_updated_from_snapshot_witness :
  (∃ win_avg lose_avg expected_win,
     int_truediv (elo_sum no_players [1; 2]%Z) 2 = Ok win_avg
     ∧ int_truediv (elo_sum no_players [3; 4]%Z) 2 = Ok lose_avg
     ∧ expected_score demo_pow win_avg lose_avg = Ok expected_win
     ∧ (∀ p, p ∈ [1; 2]%Z →
          ∃ new, new_rating (elo (profile no_players p)) K_FACTOR 1%float expected_win = Ok new
                 ∧ (adjust_elo_for_match demo_pow [1; 2]%Z [3; 4]%Z K_FACTOR no_players).1 !! p
                   = Some (mkPlayer (S (wins (profile no_players p))) (losses (profile no_players p)) new))
     ∧ (∀ p, p ∈ [3; 4]%Z →
          ∃ new, new_rating (elo (profile no_players p)) K_FACTOR 0%float
                   (1 - expected_win)%float = Ok new
                 ∧ (adjust_elo_for_match demo_pow [1; 2]%Z [3; 4]%Z K_FACTOR no_players).1 !! p
                   = Some (mkPlayer (wins (profile no_players p)) (S (losses (profile no_players p))) new))
     ∧ (elo_sum no_players [1; 2]%Z = elo_sum no_players [3; 4]%Z →
        length [1; 2]%Z = length [3; 4]%Z →
        expected_win = 0.5%float))
  ∧ (∀ p, p ∉ [1; 2; 3; 4]%Z →
       (adjust_elo_for_match demo_pow [1; 2]%Z [3; 4]%Z K_FACTOR no_players).1 !! p = no_players !! p)
  ∧ (∀ old, (Z.abs old + 16 < 2 ^ 53)%Z →
       new_rating old K_FACTOR 1%float 0.5%float = Ok (old + 16)%Z
       ∧ new_rating old K_FACTOR 0%float (1 - 0.5)%float = Ok (old - 16)%Z).
Proof.
  apply (ratings_updated_from_snapshot demo_pow [1; 2]%Z [3; 4]%Z no_players).
  - by_computing.
  - by vm_compute.
Defined.

(** ** C7 and C8: a tournament that is already running *)

(** [starttourney] on the running tournament of three teams answers with
    a second first round. *)
Lemma running_tournament_starts_again :
  status three_teams_started = running
  ∧ (starttourney demo_id demo_shuffle "T" three_teams).2
    = Started [mkMatch "4" "A" (Some "B") None upper false;
               mkMatch "5" "C" None (Some "C") upper true]
  ∧ failure_of (starttourney demo_id demo_shuffle "T" three_teams).2 = None
  ∧ (matches <$> tournaments (starttourney demo_id demo_shuffle "T" three_teams).1 !! "T")
    = Some [mkMatch "1" "A" (Some "B") None upper false;
            mkMatch "2" "C" None (Some "C") upper true;
            mkMatch "4" "A" (Some "B") None upper false;
            mkMatch "5" "C" None (Some "C") upper true].
Proof. by vm_compute. Qed.

Lemma start_checks_team_count_only_witness :
  (failure_of (starttourney demo_id demo_shuffle "T" three_teams).2 = Some InvalidState
   ↔ (length (teams three_teams_started) < 2)%nat)
  ∧ ((length (teams three_teams_started) < 2)%nat →
     starttourney demo_id demo_shuffle "T" three_teams = (three_teams, NeedTwoTeams))
  ∧ ((2 ≤ length (teams three_teams_started))%nat →
     let ms := create_round_matches demo_id demo_shuffle 3 ["A"; "B"; "C"] in
     (starttourney demo_id demo_shuffle "T" three_teams).2 = Started ms
     ∧ (∀ m, m ∈ ms → bracket m = upper)
     ∧ (NoDup ["A"; "B"; "C"] → demo_shuffle 3 ["A"; "B"; "C"] ≡ₚ ["A"; "B"; "C"] →
        pairs_off ["A"; "B"; "C"] ms)
     ∧ ∃ t', tournaments (starttourney demo_id demo_shuffle "T" three_teams).1 !! "T"
             = Some t'
             ∧ status t' = running
             ∧ pending_upper t' = [] ∧ pending_lower t' = []
             ∧ matches t' = matches three_teams_started ++ ms
             ∧ upper_rounds t' = [["1"; "2"]] ++ [match_id <$> ms]
             ∧ lower_rounds t' = []
             ∧ teams t' = teams three_teams_started).
Proof.
  apply (start_checks_team_count_only demo_id demo_shuffle three_teams "T"
           three_teams_started).
  by vm_compute.
Defined.

(** [addteam] on the running tournament adds team D. *)
Lemma running_tournament_takes_a_team :
  status three_teams_started = running
  ∧ field_name "D" = true
  ∧ (addteam "T" "D" [7]%Z three_teams).2 = TeamAdded
  ∧ (teams <$> tournaments (addteam "T" "D" [7]%Z three_teams).1 !! "T")
    = Some [("A", [1; 2]%Z); ("B", [3; 4]%Z); ("C", [5; 6]%Z); ("D", [7]%Z)]
  ∧ (status <$> tournaments (addteam "T" "D" [7]%Z three_teams).1 !! "T")
    = Some running.
Proof. by vm_compute. Qed.

(** ** C9: a second report on a resolved match *)

Definition after_first_report : World := (demo_report "T" "1" "A" "B" three_teams).1.

Definition after_first_report_doc : Tournament :=
  {| teams := [("A", [1; 2]%Z); ("B", [3; 4]%Z); ("C", [5; 6]%Z)];
     status := running;
     pending_upper := [];
     pending_lower := [];
     matches := [mkMatch "1" "A" (Some "B") (Some "A") upper false;
                 mkMatch "2" "C" None (Some "C") upper true;
                 mkMatch "3" "A" None (Some "A") upper true;
                 mkMatch "4" "B" None (Some "B") lower true];
     upper_rounds := [["1"; "2"]; ["3"]];
     lower_rounds := [["4"]];
     champion := None |}.

(** Match ids are the first twelve digits of a random number, so two
    matches of a round can get the same id.  Here the two matches of round
    one do: A against B, open, and the bye of C, which has its winner. *)
Definition colliding_id (n : nat) : string :=
  if bool_decide (n ≤ 2)%nat then "184467440737" else pretty n.

Definition collision_world : World :=
  run demo_pow colliding_id demo_shuffle
    [CreateTourney "T";
     AddTeam "T" "A" [1; 2]%Z;
     AddTeam "T" "B" [3; 4]%Z;
     AddTeam "T" "C" [5; 6]%Z;
     StartTourney "T"] empty_world.

Definition collision_doc : Tournament :=
  {| teams := [("A", [1; 2]%Z); ("B", [3; 4]%Z); ("C", [5; 6]%Z)];
     status := running;
     pending_upper := [];
     pending_lower := [];
     matches := [mkMatch "184467440737" "A" (Some "B") None upper false;
                 mkMatch "184467440737" "C" None (Some "C") upper true];
     upper_rounds := [["184467440737"; "184467440737"]];
     lower_rounds := [];
     champion := None |}.

Example collision_world_doc : tournaments collision_world !! "T" = Some collision_doc.
Proof. by vm_compute. Qed.

(** The bye of C has its winner, and the report on its id is accepted: it
    is recorded on the match of A and B and changes the ratings. *)
Lemma report_on_the_id_of_a_resolved_bye_is_accepted :
  tournaments collision_world !! "T" = Some collision_doc
  ∧ matches collision_doc !! 1%nat
    = Some (mkMatch "184467440737" "C" None (Some "C") upper true)
  ∧ (matchresult demo_pow colliding_id "T" "184467440737" "A" "B" collision_world).2
    = ResultRecorded
  ∧ (matches <$>
       tournaments
         (matchresult demo_pow colliding_id "T" "184467440737" "A" "B"
            collision_world).1 !! "T")
    = Some [mkMatch "184467440737" "A" (Some "B") (Some "A") upper false;
            mkMatch "184467440737" "C" None (Some "C") upper true;
            mkMatch "3" "A" None (Some "A") upper true;
            mkMatch "4" "B" None (Some "B") lower true]
  ∧ elo <$> players
              (matchresult demo_pow colliding_id "T" "184467440737" "A" "B"
                 collision_world).1 !! 1%Z
    = Some 1216%Z.
Proof. by vm_compute. Qed.

Lemma resolved_match_never_changes_witness :
  demo_report "T" "1" "B" "A" after_first_report = (after_first_report, AlreadyReported)
  ∧ (∃ t', tournaments
             (demo_run [MatchResult "T" "1" "B" "A"; StartTourney "T";
                        AddTeam "T" "D" [7]%Z] after_first_report) !! "T" = Some t'
           ∧ matches t' !! 0%nat
             = Some (mkMatch "1" "A" (Some "B") (Some "A") upper false))
  ∧ failure_of
      (matchresult demo_pow colliding_id "T" "184467440737" "A" "B"
         collision_world).2 = None
  ∧ ∃ t', tournaments
            (matchresult demo_pow colliding_id "T" "184467440737" "A" "B"
               collision_world).1 !! "T" = Some t'
          ∧ find_match t' "184467440737"
            = Some (mkMatch "184467440737" "A" (Some "B") (Some "A") upper false)
          ∧ matches t' !! 1%nat
            = Some (mkMatch "184467440737" "C" None (Some "C") upper true).
Proof.
  destruct (resolved_match_never_changes demo_pow demo_id demo_shuffle
              after_first_report "T" after_first_report_doc)
    as (Hreport & Hrun & _).
  { by vm_compute. }
  split; [|split].
  - by eapply (Hreport "1" "B" "A" _ "A"); [vm_compute| |].
  - by apply (Hrun 0%nat _ "A").
  - destruct (resolved_match_never_changes demo_pow colliding_id demo_shuffle
                collision_world "T" collision_doc collision_world_doc)
      as (_ & _ & Htwin).
    apply (Htwin 1%nat (mkMatch "184467440737" "C" None (Some "C") upper true) "C"
             (mkMatch "184467440737" "A" (Some "B") None upper false)
             "A" "B" [1; 2]%Z [3; 4]%Z); by vm_compute.
Defined.

(** ** C8 and C10 on the three teams *)

Lemma addteam_replaces_roster_witness :
  addteam "X" "A" [9]%Z three_teams = (three_teams, TournamentNotFound)
  ∧ (addteam "T" "A" [9]%Z three_teams).2 = TeamAdded
  ∧ ∃ t', tournaments (addteam "T" "A" [9]%Z three_teams).1 !! "T" = Some t'
          ∧ teams_get "A" (teams t') = Some [9]%Z
          ∧ (∀ other, other ≠ "A" →
               teams_get other (teams t') = teams_get other (teams three_teams_started))
          ∧ team_names t' = ["A"; "B"; "C"]
          ∧ status t' = running
          ∧ matches t' = matches three_teams_started.
Proof.
  split.
  - by apply (addteam_replaces_roster_in_any_status three_teams "X" "A" [9]%Z).
  - apply (addteam_replaces_roster_in_any_status three_teams "T" "A" [9]%Z).
    + by vm_compute.
    + by vm_compute.
Defined.

Definition three_teams_commands : list Command :=
  [CreateTourney "T";
   AddTeam "T" "A" [1; 2]%Z;
   AddTeam "T" "B" [3; 4]%Z;
   AddTeam "T" "C" [5; 6]%Z;
   StartTourney "T";
   MatchResult "T" "1" "A" "B";
   MatchResult "T" "1" "B" "A";
   MatchResult "T" "9" "A" "B"].

Example first_report_recorded :
  demo_report "T" "1" "A" "B" three_teams = (after_first_report, ResultRecorded).
Proof. by vm_compute. Qed.

(** ** A report that raises

    Team E has no player.  The report on its match writes the winner and
    both pools, then [adjust_elo_for_match] divides by the size of E's
    roster: the command dies with the two teams left in the pools, where
    the next report finds them.  This is the one way a team stays in a
    pool between two commands; it is a command that did not complete. *)

Definition empty_roster_world : World :=
  demo_run [CreateTourney "T";
            AddTeam "T" "A" [1]%Z;
            AddTeam "T" "E" [];
            StartTourney "T"] empty_world.

Example report_with_empty_roster_raises :
  (demo_report "T" "1" "A" "E" empty_roster_world).2 = Raised ZeroDivisionError
  ∧ tournaments (demo_report "T" "1" "A" "E" empty_roster_world).1 !! "T"
    = Some {| teams := [("A", [1]%Z); ("E", [])];
              status := running;
              pending_upper := ["A"];
              pending_lower := ["E"];
              matches := [mkMatch "1" "A" (Some "E") (Some "A") upper false];
              upper_rounds := [["1"]];
              lower_rounds := [];
              champion := None |}.
Proof. by vm_compute. Qed.

(** The pools were empty before the report; it raises, and A and E are in
    the pools when the next command, an [addteam], runs and when it has
    answered. *)
Lemma raised_report_carries_teams_in_the_pools :
  (pending_upper <$> tournaments empty_roster_world !! "T") = Some []
  ∧ (pending_lower <$> tournaments empty_roster_world !! "T") = Some []
  ∧ (demo_report "T" "1" "A" "E" empty_roster_world).2 = Raised ZeroDivisionError
  ∧ (addteam "T" "F" [9]%Z (demo_report "T" "1" "A" "E" empty_roster_world).1).2
    = TeamAdded
  ∧ (pending_upper <$>
       tournaments (demo_run [MatchResult "T" "1" "A" "E"; AddTeam "T" "F" [9]%Z]
                      empty_roster_world) !! "T") = Some ["A"]
  ∧ (pending_lower <$>
       tournaments (demo_run [MatchResult "T" "1" "A" "E"; AddTeam "T" "F" [9]%Z]
                      empty_roster_world) !! "T") = Some ["E"].
Proof. by vm_compute. Qed.

Example empty_roster_report :
  demo_report "T" "1" "A" "E" empty_roster_world
  = ((demo_report "T" "1" "A" "E" empty_roster_world).1, Raised ZeroDivisionError).
Proof. by vm_compute. Qed.

Lemma pools_empty_after_every_operation_witness :
  (∃ t', tournaments after_first_report !! "T" = Some t' ∧ pools_empty t')
  ∧ all_pools_empty (demo_run three_teams_commands empty_world)
  ∧ ∃ t t', tournaments empty_roster_world !! "T" = Some t
            ∧ tournaments (demo_report "T" "1" "A" "E" empty_roster_world).1 !! "T"
              = Some t'
            ∧ pending_upper t' = pending_upper t ++ ["A"]
            ∧ pending_lower t' = pending_lower t ++ ["E"]
            ∧ ¬ pools_empty t'.
Proof.
  split; [|split].
  - destruct (pools_empty_after_every_operation demo_pow demo_id demo_shuffle three_teams)
      as (_ & Hreport & _).
    apply (Hreport "T" "1" "A" "B" after_first_report ResultRecorded).
    + exact first_report_recorded.
    + by left.
  - destruct (pools_empty_after_every_operation demo_pow demo_id demo_shuffle empty_world)
      as (_ & _ & Hrun & _).
    apply (Hrun three_teams_commands).
    + intros tn t Ht.
      change (tournaments empty_world) with (∅ : gmap string Tournament) in Ht.
      by apply lookup_empty_Some in Ht.
    + by vm_compute.
  - destruct (pools_empty_after_every_operation demo_pow demo_id demo_shuffle
                empty_roster_world) as (_ & _ & _ & Hraise).
    exact (Hraise "T" "1" "A" "E" _ ZeroDivisionError empty_roster_report).
Defined.

(** * Runs of commands on the three teams *)

(** A report that names a team the tournament does not have fails and
    changes nothing. *)
Lemma failed_command_changes_nothing_witness :
  (exec demo_pow demo_id demo_shuffle (MatchResult "T" "1" "A" "Z") three_teams).1
  = three_teams.
Proof.
  apply failed_command_changes_nothing. vm_compute. by eexists.
Defined.

(** A second tournament U beside T. *)
Definition two_tournaments : World :=
  demo_run [CreateTourney "U"; AddTeam "U" "X" [8]%Z] three_teams.

Lemma command_touches_its_tournament_only_witness :
  tournaments (exec demo_pow demo_id demo_shuffle
                 (MatchResult "T" "1" "A" "B") two_tournaments).1 !! "U"
  = tournaments two_tournaments !! "U".
Proof.
  apply command_touches_its_tournament_only. by cbn.
Defined.

Definition later_commands : list Command :=
  [AddTeam "T" "D" [7]%Z;
   MatchResult "T" "1" "A" "B";
   AddTeam "T" "A" [];
   StartTourney "T"].

Lemma teams_are_never_removed_witness :
  ∃ t', tournaments (demo_run later_commands three_teams) !! "T" = Some t'
        ∧ team_names three_teams_started `prefix_of` team_names t'.
Proof.
  apply teams_are_never_removed. by vm_compute.
Defined.

Lemma history_is_append_only_witness :
  ∃ t', tournaments (demo_run later_commands three_teams) !! "T" = Some t'
        ∧ (fixture <$> matches three_teams_started) `prefix_of` (fixture <$> matches t').
Proof.
  apply history_is_append_only. by vm_compute.
Defined.

(** The run that creates the three teams, starts the tournament and
    reports A over B ends in [after_first_report]. *)
Definition first_report_commands : list Command :=
  [CreateTourney "T";
   AddTeam "T" "A" [1; 2]%Z;
   AddTeam "T" "B" [3; 4]%Z;
   AddTeam "T" "C" [5; 6]%Z;
   StartTourney "T";
   MatchResult "T" "1" "A" "B"].

Example first_report_run :
  tournaments (demo_run first_report_commands empty_world) !! "T"
  = Some after_first_report_doc.
Proof. by vm_compute. Qed.

Lemma empty_world_has_no_tournament tn t : tournaments empty_world !! tn = Some t → False.
Proof.
  change (tournaments empty_world) with (∅ : gmap string Tournament).
  by intros ?%lookup_empty_Some.
Qed.

Lemma no_tournament_finishes_witness :
  status after_first_report_doc ≠ finished
  ∧ champion after_first_report_doc = None
  ∧ eliminated (matches after_first_report_doc) = ∅
  ∧ aliveTeams after_first_report_doc = team_names after_first_report_doc
  ∧ lower_byes (matches after_first_report_doc).
Proof.
  apply (no_tournament_finishes demo_pow demo_id demo_shuffle
           first_report_commands empty_world "T" after_first_report_doc).
  - intros tn t Ht. by apply empty_world_has_no_tournament in Ht.
  - by vm_compute.
  - exact first_report_run.
Defined.

Lemma rounds_list_every_match_witness :
  mjoin (upper_rounds after_first_report_doc)
  = ids_in upper (matches after_first_report_doc)
  ∧ mjoin (lower_rounds after_first_report_doc)
    = ids_in lower (matches after_first_report_doc).
Proof.
  apply (rounds_list_every_match demo_pow demo_id demo_shuffle
           first_report_commands empty_world "T" after_first_report_doc).
  - intros tn t Ht. by apply empty_world_has_no_tournament in Ht.
  - exact first_report_run.
Defined.

(** Two open matches carry the id "7".  A report on "7" reaches the first;
    a second report on "7" finds the first again, resolved, and the match
    of C and D stays open. *)
Definition twin_doc : Tournament :=
  {| teams := [("A", [1]%Z); ("B", [2]%Z); ("C", [3]%Z); ("D", [4]%Z)];
     status := running;
     pending_upper := [];
     pending_lower := [];
     matches := [mkMatch "7" "A" (Some "B") None upper false;
                 mkMatch "7" "C" (Some "D") None upper false];
     upper_rounds := [["7"; "7"]];
     lower_rounds := [];
     champion := None |}.

Definition twin_world : World := mkWorld {[ "T" := twin_doc ]} ∅ 8.

Lemma shadowed_match_is_never_reported_witness :
  ∃ t', tournaments (demo_run [MatchResult "T" "7" "A" "B"; MatchResult "T" "7" "C" "D"]
                       twin_world) !! "T" = Some t'
        ∧ matches t' !! 1%nat = Some (mkMatch "7" "C" (Some "D") None upper false).
Proof.
  apply (shadowed_match_is_never_reported demo_pow demo_id demo_shuffle _ twin_world "T"
           twin_doc).
  - by vm_compute.
  - split; [done|]. exists 0%nat, (mkMatch "7" "A" (Some "B") None upper false).
    split; [lia|]. by split.
Defined.

(** ** Profiles and ratings *)

Lemma rostered_players_have_profiles_witness :
  rosters_registered (demo_run first_report_commands empty_world)
  ∧ ∀ tn mid wt lt p,
      is_Some (players (demo_report tn mid wt lt
                          (demo_run first_report_commands empty_world)).1 !! p)
      ↔ is_Some (players (demo_run first_report_commands empty_world) !! p).
Proof.
  apply (rostered_players_have_profiles demo_pow demo_id demo_shuffle
           first_report_commands empty_world).
  intros tn t team ids p Ht. by apply empty_world_has_no_tournament in Ht.
Defined.

(** A rating update with an empty losers' roster: player 1 has a profile,
    player 7 has none. *)
Definition one_profile : gmap Z Player := {[ 1%Z := mkPlayer 3 1 1250 ]}.

Lemma failed_rating_computation_stores_nothing_witness :
  adjust_elo_for_match demo_pow [1; 7]%Z [] K_FACTOR one_profile
  = (ensure_players ([1; 7]%Z ++ []) one_profile, Some ZeroDivisionError)
  ∧ (∀ p doc, one_profile !! p = Some doc
              → ensure_players ([1; 7]%Z ++ []) one_profile !! p = Some doc)
  ∧ (∀ p doc, ensure_players ([1; 7]%Z ++ []) one_profile !! p = Some doc
              → doc = default default_player (one_profile !! p)).
Proof.
  apply (failed_rating_computation_stores_nothing demo_pow [1; 7]%Z [] K_FACTOR
           one_profile ZeroDivisionError).
  by vm_compute.
Defined.

Example one_profile_after_the_raise :
  adjust_elo_for_match demo_pow [1; 7]%Z [] K_FACTOR one_profile
  = ({[ 1%Z := mkPlayer 3 1 1250; 7%Z := default_player ]}, Some ZeroDivisionError).
Proof. by vm_compute. Qed.

Definition empty_roster_started : Tournament :=
  {| teams := [("A", [1]%Z); ("E", [])];
     status := running;
     pending_upper := [];
     pending_lower := [];
     matches := [mkMatch "1" "A" (Some "E") None upper false];
     upper_rounds := [["1"]];
     lower_rounds := [];
     champion := None |}.

Lemma report_with_empty_roster_raises_halfway_witness :
  ∃ e, demo_report "T" "1" "A" "E" empty_roster_world
       = (mkWorld (<["T" := record_result "1" "A" "E" empty_roster_started]>
                     (tournaments empty_roster_world))
            (ensure_players ([1]%Z ++ []) (players empty_roster_world))
            (draws empty_roster_world),
          Raised e)
       ∧ (e = ZeroDivisionError ∨ e = OverflowError)
       ∧ ([1]%Z = [] → e = ZeroDivisionError).
Proof.
  apply (report_with_empty_roster_raises_halfway demo_pow demo_id empty_roster_world
           "T" "1" "A" "E" empty_roster_started
           (mkMatch "1" "A" (Some "E") None upper false) [1]%Z []).
  - by vm_compute.
  - by vm_compute.
  - by vm_compute.
  - by vm_compute.
  - by vm_compute.
  - by right.
Defined.

(** One team reported as winner and as loser of a match: each of its two
    players gets two wins and no loss. *)
Lemma games_are_counted_per_roster_entry_witness :
  ∃ doc, (adjust_elo_for_match demo_pow [1; 2]%Z [1; 2]%Z K_FACTOR no_players).1 !! 1%Z
         = Some doc
         ∧ wins doc = (wins (default default_player (no_players !! 1%Z))
                       + (if bool_decide (1%Z ∈ [1; 2]%Z)
                          then occurrences 1 ([1; 2]%Z ++ [1; 2]%Z) else 0))%nat
         ∧ losses doc = (losses (default default_player (no_players !! 1%Z))
                         + (if bool_decide (1%Z ∈ [1; 2]%Z)
                            then 0 else occurrences 1 ([1; 2]%Z ++ [1; 2]%Z)))%nat.
Proof.
  apply (games_are_counted_per_roster_entry demo_pow [1; 2]%Z [1; 2]%Z K_FACTOR no_players).
  - by vm_compute.
  - by_computing.
Defined.

Example same_team_twice :
  (adjust_elo_for_match demo_pow [1; 2]%Z [1; 2]%Z K_FACTOR no_players).1 !! 1%Z
  = Some (mkPlayer 2 0 1184).
Proof. by vm_compute. Qed.

(** * Profiles with their names

    The tournament engine above reads of a player document only the wins,
    the losses and the rating.  This part keeps the name as well, and embeds
    the commands that work on one profile: [register], [profile], [setelo]
    and [resetelo]. *)

Module Profiles.

(** A document of the players collection, as [ensure_player_doc] writes
    it: a name beside the statistics. *)
Record PlayerDoc := mkPlayerDoc {
  name : string;
  stats : Player
}.

(** A Discord member, as far as the commands read it. *)
Record Member := mkMember {
  id : Z;
  display_name : string
}.

(** [display_name or str(discord_id)] *)
Definition name_or_id (display_name : option string) (discord_id : Z) : string :=
  match display_name with
  | Some n => if bool_decide (n = "") then pretty discord_id else n
  | None => pretty discord_id
  end.

Definition ensure_player_doc (discord_id : Z) (display_name : option string)
    (db : gmap Z PlayerDoc) : gmap Z PlayerDoc * PlayerDoc :=
  match db !! discord_id with
  | None =>
      let base := mkPlayerDoc (name_or_id display_name discord_id) default_player in
      (<[discord_id := base]> db, base)
  | Some doc =>
      if truthy display_name
         && negb (bool_decide (Some (name doc) = display_name))
      then
        let doc' := mkPlayerDoc (default "" display_name) (stats doc) in
        (<[discord_id := doc']> db, doc')
      else (db, doc)
  end.

Definition get_player (discord_id : Z) (db : gmap Z PlayerDoc) : option PlayerDoc :=
  db !! discord_id.

(** [$set {"elo": value}] on one player. *)
Definition set_elo (discord_id : Z) (value : Z) (db : gmap Z PlayerDoc)
    : gmap Z PlayerDoc :=
  alter (λ doc, mkPlayerDoc (name doc)
                  (mkPlayer (wins (stats doc)) (losses (stats doc)) value))
    discord_id db.

(** What a command says. *)
Inductive Said :=
  | Registered (shown : string) (discord_id : Z)
  | ProfileShown (shown : string) (rating : Z) (won lost : nat)
  | EloSet (shown : string) (value : Z)
  | EloReset (shown : string)
  | MissingPermissions.

Definition register (member : Member) (db : gmap Z PlayerDoc)
    : gmap Z PlayerDoc * Said :=
  ((ensure_player_doc (id member) (Some (display_name member)) db).1,
   Registered (display_name member) (id member)).

(** [member = member or ctx.author] *)
Definition profile (author : Member) (member : option Member) (db : gmap Z PlayerDoc)
    : gmap Z PlayerDoc * Said :=
  let member := default author member in
  let '(db', doc) := ensure_player_doc (id member) (Some (display_name member)) db in
  (db', ProfileShown (name doc) (elo (stats doc)) (wins (stats doc)) (losses (stats doc))).

(** [@commands.has_permissions(administrator=True)]: the body runs for an
    administrator only. *)
Definition setelo (administrator : bool) (member : Member) (value : Z)
    (db : gmap Z PlayerDoc) : gmap Z PlayerDoc * Said :=
  if administrator then
    let db1 := (ensure_player_doc (id member) (Some (display_name member)) db).1 in
    (set_elo (id member) value db1, EloSet (display_name member) value)
  else (db, MissingPermissions).

Definition resetelo (administrator : bool) (member : Member)
    (db : gmap Z PlayerDoc) : gmap Z PlayerDoc * Said :=
  if administrator then
    let db1 := (ensure_player_doc (id member) (Some (display_name member)) db).1 in
    (set_elo (id member) 1200 db1, EloReset (display_name member))
  else (db, MissingPermissions).

(** The loop of [addteam] on the players collection:
    [for m in members: await ensure_player_doc(m.id, m.display_name)]. *)
Definition ensure_members (members : list Member) (db : gmap Z PlayerDoc)
    : gmap Z PlayerDoc :=
  foldl (λ db m, (ensure_player_doc (id m) (Some (display_name m)) db).1) db members.

(** [addteam] with the members as the command gets them, ids and display
    names: the tournaments and the players collection afterwards, and the
    reply.  As in the engine, the team name is taken to be one key of the
    ["teams"] sub-document ([field_name]). *)
Definition addteam (tourney_name team_name : string) (members : list Member)
    (ts : gmap string Tournament) (db : gmap Z PlayerDoc)
    : gmap string Tournament * gmap Z PlayerDoc * Reply :=
  match ts !! tourney_name with
  | None => (ts, db, TournamentNotFound)
  | Some tourney =>
      let player_ids := id <$> members in
      let db' := ensure_members members db in
      (alter (λ t, set_teams (teams_set team_name player_ids (teams t)) t)
         tourney_name ts,
       db', TeamAdded)
  end.

End Profiles.

(** The statistics of a player, with the default for a player without a
    profile. *)
Definition stats_of (db : gmap Z Profiles.PlayerDoc) (pid : Z) : Player :=
  default default_player (Profiles.stats <$> db !! pid).

Lemma named_ensure_lookup pid dn db :
  ∃ shown,
    (Profiles.ensure_player_doc pid dn db).2 = Profiles.mkPlayerDoc shown (stats_of db pid)
    ∧ (Profiles.ensure_player_doc pid dn db).1 !! pid
      = Some (Profiles.mkPlayerDoc shown (stats_of db pid))
    ∧ (∀ q, q ≠ pid → (Profiles.ensure_player_doc pid dn db).1 !! q = db !! q)
    ∧ shown = match db !! pid with
              | None => Profiles.name_or_id dn pid
              | Some doc => if truthy dn then default "" dn else Profiles.name doc
              end.
Proof.
  unfold Profiles.ensure_player_doc, stats_of.
  destruct (db !! pid) as [[n s]|] eqn:Hdoc; cbn.
  - destruct (truthy dn) eqn:Hdn; cbn.
    + case_bool_decide as Hsame; cbn.
      * exists n. rewrite Hdoc. split; [done|]. split; [done|]. split; [done|].
        by rewrite <- Hsame.
      * eexists. split; [done|]. rewrite lookup_insert_eq. split; [done|].
        split; [|done]. intros q Hq. by rewrite lookup_insert_ne.
    + exists n. by rewrite Hdoc.
  - eexists. split; [done|]. rewrite lookup_insert_eq. split; [done|].
    split; [|done]. intros q Hq. by rewrite lookup_insert_ne.
Qed.

Lemma named_ensure_same pid n s db :
  db !! pid = Some (Profiles.mkPlayerDoc n s) →
  Profiles.ensure_player_doc pid (Some n) db = (db, Profiles.mkPlayerDoc n s).
Proof.
  intros Hdoc. unfold Profiles.ensure_player_doc. rewrite Hdoc. cbn [Profiles.name].
  rewrite (bool_decide_eq_true_2 (Some n = Some n)) by done.
  by rewrite andb_false_r.
Qed.

(** X13: the name never touches the statistics.  Forgetting the names,
    [ensure_player_doc] with a display name is the [ensure_player_doc] of
    the rating update: the wins, losses and ratings in the collection
    afterwards, and those of the document returned, are the same whatever
    display name is passed; so [register] and [profile] change nobody's
    wins, losses or rating and give a new player the default ones. *)
Theorem display_name_never_touches_stats
    (pid : Z) (dn : option string) (db : gmap Z Profiles.PlayerDoc) :
  Profiles.stats <$> (Profiles.ensure_player_doc pid dn db).1
  = (ensure_player_doc pid (Profiles.stats <$> db)).1
  ∧ Profiles.stats (Profiles.ensure_player_doc pid dn db).2
    = (ensure_player_doc pid (Profiles.stats <$> db)).2.
Proof.
  destruct (named_ensure_lookup pid dn db) as (shown & Hdoc & Hpid & Hother & _).
  destruct (ensure_player_doc_spec pid (Profiles.stats <$> db))
    as (Hdoc' & Hpid' & Hother' & _).
  assert (profile (Profiles.stats <$> db) pid = stats_of db pid) as Hprof.
  { unfold profile, stats_of. by rewrite lookup_fmap. }
  split.
  - apply map_eq. intros q. rewrite lookup_fmap.
    destruct (decide (q = pid)) as [->|Hne].
    + by rewrite Hpid, Hpid', Hprof.
    + by rewrite Hother, Hother', lookup_fmap.
  - by rewrite Hdoc, Hdoc', Hprof.
Qed.

(** X14: [register] stores the member's display name and [profile] shows it.
    After a member with a non-empty display name has registered, [profile]
    on that member, asked by anyone, shows that name with the statistics
    the player had (rating 1200, no win, no loss for a new player) and
    changes nothing; registering again under another name renames the
    profile and keeps its statistics. *)
Theorem registered_name_is_shown
    (member author : Profiles.Member) (db : gmap Z Profiles.PlayerDoc) :
  Profiles.display_name member ≠ "" →
  let db1 := (Profiles.register member db).1 in
  db1 !! Profiles.id member
  = Some (Profiles.mkPlayerDoc (Profiles.display_name member)
            (stats_of db (Profiles.id member)))
  ∧ (∀ q, q ≠ Profiles.id member → db1 !! q = db !! q)
  ∧ Profiles.profile author (Some member) db1
    = (db1, Profiles.ProfileShown (Profiles.display_name member)
              (elo (stats_of db (Profiles.id member)))
              (wins (stats_of db (Profiles.id member)))
              (losses (stats_of db (Profiles.id member)))).
Proof.
  intros Hname db1.
  destruct (named_ensure_lookup (Profiles.id member)
              (Some (Profiles.display_name member)) db)
    as (shown & Hdoc & Hpid & Hother & Hshown).
  assert (shown = Profiles.display_name member) as ->.
  { rewrite Hshown. unfold Profiles.name_or_id. cbn.
    rewrite bool_decide_eq_false_2 by done. by destruct (db !! Profiles.id member). }
  assert (db1 !! Profiles.id member
          = Some (Profiles.mkPlayerDoc (Profiles.display_name member)
                    (stats_of db (Profiles.id member)))) as Hdb1 by done.
  split; [done|]. split; [done|].
  unfold Profiles.profile. change (default author (Some member)) with member.
  by rewrite (named_ensure_same _ _ _ _ Hdb1).
Qed.

Lemma set_elo_lookup pid value db q :
  Profiles.set_elo pid value db !! q
  = if bool_decide (q = pid)
    then (λ doc, Profiles.mkPlayerDoc (Profiles.name doc)
                   (mkPlayer (wins (Profiles.stats doc)) (losses (Profiles.stats doc))
                      value)) <$> db !! q
    else db !! q.
Proof.
  unfold Profiles.set_elo. case_bool_decide as Hq.
  - subst q. by rewrite lookup_alter_eq.
  - by rewrite lookup_alter_ne.
Qed.



(** ** Names are never empty *)

Lemma pretty_N_go_length x s : (String.length s ≤ String.length (pretty_N_go x s))%nat.
Proof.
  revert s. induction (N.lt_wf_0 x) as [x _ IH]; intros s.
  destruct (decide (x = 0%N)) as [->|Hx]; [by rewrite pretty_N_go_0|].
  rewrite pretty_N_go_step by lia.
  etrans; [|apply IH; apply N.div_lt; lia]. cbn. lia.
Qed.

Lemma pretty_N_nonempty (x : N) : pretty x ≠ "".
Proof.
  unfold pretty, pretty_N. case_decide as Hx; [done|].
  rewrite pretty_N_go_step by lia.
  intros Hempty.
  pose proof (pretty_N_go_length (x `div` 10)
                (String (pretty_N_char (x `mod` 10)) "")) as Hlen.
  rewrite Hempty in Hlen. cbn in Hlen. lia.
Qed.

Lemma pretty_Z_nonempty (z : Z) : pretty z ≠ "".
Proof.
  destruct z as [|p|p]; [done| |done].
  apply (pretty_N_nonempty (Npos p)).
Qed.

(** The commands on one profile, as data. *)
Inductive ProfileCommand :=
  | Register (member : Profiles.Member)
  | Profile (author : Profiles.Member) (member : option Profiles.Member)
  | SetElo (administrator : bool) (member : Profiles.Member) (value : Z)
  | ResetElo (administrator : bool) (member : Profiles.Member)
  | Ensure (discord_id : Z) (display_name : option string).

Definition profile_exec (c : ProfileCommand) (db : gmap Z Profiles.PlayerDoc)
    : gmap Z Profiles.PlayerDoc :=
  match c with
  | Register member => (Profiles.register member db).1
  | Profile author member => (Profiles.profile author member db).1
  | SetElo administrator member value => (Profiles.setelo administrator member value db).1
  | ResetElo administrator member => (Profiles.resetelo administrator member db).1
  | Ensure discord_id display_name =>
      (Profiles.ensure_player_doc discord_id display_name db).1
  end.

Definition profile_run (cs : list ProfileCommand) (db : gmap Z Profiles.PlayerDoc)
    : gmap Z Profiles.PlayerDoc :=
  foldl (λ db c, profile_exec c db) db cs.

Definition names_nonempty (db : gmap Z Profiles.PlayerDoc) : Prop :=
  ∀ pid doc, db !! pid = Some doc → Profiles.name doc ≠ "".

Lemma ensure_keeps_names_nonempty pid dn db :
  names_nonempty db → names_nonempty (Profiles.ensure_player_doc pid dn db).1.
Proof.
  intros Hdb q doc Hq.
  destruct (named_ensure_lookup pid dn db) as (shown & _ & Hpid & Hother & Hshown).
  destruct (decide (q = pid)) as [->|Hne].
  - rewrite Hpid in Hq. injection Hq as <-. cbn. rewrite Hshown.
    destruct (db !! pid) as [old|] eqn:Hold.
    + destruct dn as [n|]; cbn; [|by eapply Hdb].
      case_bool_decide; cbn; [by eapply Hdb|done].
    + unfold Profiles.name_or_id. destruct dn as [n|]; [|apply pretty_Z_nonempty].
      case_bool_decide; [apply pretty_Z_nonempty|done].
  - rewrite Hother in Hq by done. by eapply Hdb.
Qed.

Lemma set_elo_keeps_names_nonempty pid value db :
  names_nonempty db → names_nonempty (Profiles.set_elo pid value db).
Proof.
  intros Hdb q doc. rewrite set_elo_lookup. case_bool_decide; [|apply Hdb].
  destruct (db !! q) as [old|] eqn:Hold; [|done]. intros [= <-]. cbn.
  by eapply Hdb.
Qed.

Lemma profile_exec_keeps_names_nonempty c db :
  names_nonempty db → names_nonempty (profile_exec c db).
Proof.
  intros Hdb. destruct c as [m | a m | adm m v | adm m | pid dn]; cbn [profile_exec].
  - by apply ensure_keeps_names_nonempty.
  - unfold Profiles.profile.
    pose proof (ensure_keeps_names_nonempty
                  (Profiles.id (default a m))
                  (Some (Profiles.display_name (default a m))) db Hdb) as Hens.
    by destruct (Profiles.ensure_player_doc _ _ db).
  - unfold Profiles.setelo. destruct adm; [|done]. cbn [fst].
    by apply set_elo_keeps_names_nonempty, ensure_keeps_names_nonempty.
  - unfold Profiles.resetelo. destruct adm; [|done]. cbn [fst].
    by apply set_elo_keeps_names_nonempty, ensure_keeps_names_nonempty.
  - by apply ensure_keeps_names_nonempty.
Qed.

(** X16: no profile has an empty name.  A profile is created under the
    display name passed or, when none or an empty one is passed, under the
    decimal id, and a name is replaced by a non-empty display name only; so
    from a collection without empty names every run of [register],
    [profile], [setelo], [resetelo] and [ensure_player_doc] leaves a
    collection without empty names, and [profile] never shows one. *)
Theorem stored_names_are_never_empty
    (cs : list ProfileCommand) (db : gmap Z Profiles.PlayerDoc) :
  names_nonempty db →
  names_nonempty (profile_run cs db)
  ∧ ∀ author member shown rating won lost,
      (Profiles.profile author member (profile_run cs db)).2
      = Profiles.ProfileShown shown rating won lost →
      shown ≠ "".
Proof.
  intros Hdb.
  assert (names_nonempty (profile_run cs db)) as Hrun.
  { revert db Hdb. induction cs as [|c cs IH]; intros db Hdb; [done|].
    cbn. by apply IH, profile_exec_keeps_names_nonempty. }
  split; [done|]. intros author member shown rating won lost.
  unfold Profiles.profile.
  set (m := default author member).
  destruct (named_ensure_lookup (Profiles.id m) (Some (Profiles.display_name m))
              (profile_run cs db)) as (shown' & Hdoc & Hpid & _ & _).
  pose proof (ensure_keeps_names_nonempty (Profiles.id m)
                (Some (Profiles.display_name m)) _ Hrun _ _ Hpid) as Hne.
  destruct (Profiles.ensure_player_doc _ _ (profile_run cs db)) as [db' doc].
  cbn in Hdoc |- *. subst doc. cbn. by intros [= <- _ _ _].
Qed.

(** * [addteam] and the profiles of the members *)

Lemma ensure_members_cons m ms db :
  Profiles.ensure_members (m :: ms) db
  = Profiles.ensure_members ms
      (Profiles.ensure_player_doc (Profiles.id m) (Some (Profiles.display_name m)) db).1.
Proof. done. Qed.

Lemma named_ensure_stats pid dn db q :
  stats_of (Profiles.ensure_player_doc pid dn db).1 q = stats_of db q.
Proof.
  destruct (named_ensure_lookup pid dn db) as (shown & _ & Hpid & Hother & _).
  unfold stats_of at 1. destruct (decide (q = pid)) as [->|Hne].
  - by rewrite Hpid.
  - by rewrite Hother.
Qed.

Lemma named_ensure_forget pid dn db :
  Profiles.stats <$> (Profiles.ensure_player_doc pid dn db).1
  = (ensure_player_doc pid (Profiles.stats <$> db)).1.
Proof.
  destruct (named_ensure_lookup pid dn db) as (shown & _ & Hpid & Hother & _).
  destruct (ensure_player_doc_spec pid (Profiles.stats <$> db))
    as (_ & Hpid' & Hother' & _).
  assert (profile (Profiles.stats <$> db) pid = stats_of db pid) as Hprof.
  { unfold profile, stats_of. by rewrite lookup_fmap. }
  apply map_eq. intros q. rewrite lookup_fmap.
  destruct (decide (q = pid)) as [->|Hne].
  - by rewrite Hpid, Hpid', Hprof.
  - by rewrite Hother, Hother', lookup_fmap.
Qed.

Lemma named_ensure_name pid n db :
  n ≠ "" →
  Profiles.name <$> (Profiles.ensure_player_doc pid (Some n) db).1 !! pid = Some n.
Proof.
  intros Hn.
  destruct (named_ensure_lookup pid (Some n) db) as (shown & _ & -> & _ & ->).
  cbn. f_equal. unfold Profiles.name_or_id.
  rewrite (bool_decide_eq_false_2 (n = "")) by done.
  by destruct (db !! pid).
Qed.

Lemma named_ensure_is_Some pid dn db q :
  is_Some ((Profiles.ensure_player_doc pid dn db).1 !! q) ↔ is_Some (db !! q) ∨ q = pid.
Proof.
  destruct (named_ensure_lookup pid dn db) as (shown & _ & Hpid & Hother & _).
  destruct (decide (q = pid)) as [->|Hne].
  - rewrite Hpid. split; [by right|by eexists].
  - rewrite (Hother q Hne). split; [by left|by intros [?|?]].
Qed.

Lemma ensure_members_stats ms db q :
  stats_of (Profiles.ensure_members ms db) q = stats_of db q.
Proof.
  revert db. induction ms as [|m ms IH]; intros db; [done|].
  by rewrite ensure_members_cons, IH, named_ensure_stats.
Qed.

Lemma ensure_members_other ms db q :
  q ∉ Profiles.id <$> ms → Profiles.ensure_members ms db !! q = db !! q.
Proof.
  revert db. induction ms as [|m ms IH]; intros db Hq; [done|].
  rewrite fmap_cons in Hq. apply not_elem_of_cons in Hq as [Hne Hq].
  rewrite ensure_members_cons, IH by done.
  destruct (named_ensure_lookup (Profiles.id m) (Some (Profiles.display_name m)) db)
    as (shown & _ & _ & Hother & _).
  by apply Hother.
Qed.

Lemma ensure_members_is_Some ms db q :
  is_Some (Profiles.ensure_members ms db !! q)
  ↔ is_Some (db !! q) ∨ q ∈ Profiles.id <$> ms.
Proof.
  revert db. induction ms as [|m ms IH]; intros db.
  - cbn. split; [by left|]. intros [?|Hin]; [done|]. by apply elem_of_nil in Hin.
  - rewrite ensure_members_cons, IH, named_ensure_is_Some, fmap_cons, elem_of_cons.
    tauto.
Qed.

Lemma ensure_members_forget ms db :
  Profiles.stats <$> Profiles.ensure_members ms db
  = ensure_players (Profiles.id <$> ms) (Profiles.stats <$> db).
Proof.
  revert db. induction ms as [|m ms IH]; intros db; [done|].
  by rewrite ensure_members_cons, IH, named_ensure_forget.
Qed.

Lemma ensure_members_name ms db m :
  m ∈ ms →
  Profiles.display_name m ≠ "" →
  (∀ m', m' ∈ ms → Profiles.id m' = Profiles.id m →
         Profiles.display_name m' = Profiles.display_name m) →
  Profiles.name <$> Profiles.ensure_members ms db !! Profiles.id m
  = Some (Profiles.display_name m).
Proof.
  revert m db. induction ms as [|a ms IH]; intros m db Hin Hne Hsame.
  { by apply elem_of_nil in Hin. }
  rewrite ensure_members_cons.
  destruct (decide (Profiles.id m ∈ Profiles.id <$> ms)) as [Hlater|Hlater].
  - apply list_elem_of_fmap in Hlater as (m' & Hid & Hm').
    assert (Profiles.display_name m' = Profiles.display_name m) as Hdn.
    { apply Hsame; [by right|done]. }
    rewrite Hid, <- Hdn. apply IH; [done|by rewrite Hdn|].
    intros m'' Hm'' Hid''. rewrite Hdn. apply Hsame; [by right|congruence].
  - rewrite ensure_members_other by done.
    apply elem_of_cons in Hin as [->|Hin].
    + by apply named_ensure_name.
    + exfalso. apply Hlater. apply list_elem_of_fmap. by exists m.
Qed.

(** X8: [addteam] on an unknown tournament answers that and creates
    nothing.  On an existing tournament, with a team name that is one key
    ([field_name]), it runs [ensure_player_doc] with the display name for
    every listed member and is accepted: afterwards the players with a
    profile are those of before and the members; nobody's wins, losses or
    rating have changed, a member without a profile having got the default
    ones (no win, no loss, rating 1200); the profile of a player who is not
    listed is as before; and the profile of a member with a non-empty
    display name carries that name, a profile stored under another name
    being renamed.  Forgetting the names, tournaments and statistics
    afterwards are those of the [addteam] of the engine on the members'
    ids. *)
Theorem addteam_registers_members
    (tn team : string) (members : list Profiles.Member)
    (ts : gmap string Tournament) (db : gmap Z Profiles.PlayerDoc) :
  (ts !! tn = None →
   Profiles.addteam tn team members ts db = (ts, db, TournamentNotFound))
  ∧ (is_Some (ts !! tn) →
     field_name team = true →
     ∃ ts' db',
       Profiles.addteam tn team members ts db = (ts', db', TeamAdded)
       ∧ (∀ p, is_Some (db' !! p) ↔ is_Some (db !! p) ∨ p ∈ Profiles.id <$> members)
       ∧ (∀ p, stats_of db' p = stats_of db p)
       ∧ (∀ p, p ∉ Profiles.id <$> members → db' !! p = db !! p)
       ∧ (∀ m, m ∈ members →
               Profiles.display_name m ≠ "" →
               (∀ m', m' ∈ members → Profiles.id m' = Profiles.id m →
                      Profiles.display_name m' = Profiles.display_name m) →
               Profiles.name <$> db' !! Profiles.id m = Some (Profiles.display_name m))
       ∧ ∀ n, addteam tn team (Profiles.id <$> members)
                (mkWorld ts (Profiles.stats <$> db) n)
              = (mkWorld ts' (Profiles.stats <$> db') n, TeamAdded)).
Proof.
  split.
  - intros Hnone. unfold Profiles.addteam. by rewrite Hnone.
  - intros [t Ht] _. unfold Profiles.addteam. rewrite Ht. cbn zeta.
    eexists _, _. split; [done|].
    split; [apply ensure_members_is_Some|].
    split; [apply ensure_members_stats|].
    split; [apply ensure_members_other|].
    split; [intros m; apply ensure_members_name|].
    intros n. unfold addteam, update_tournament, set_tournaments, set_players.
    cbn. rewrite Ht. cbn. by rewrite ensure_members_forget.
Qed.

(** * Showing the teams *)

(** [f"<@{pid}>"] *)
Definition mention (pid : Z) : string := "<@" +:+ pretty pid +:+ ">".

(** [sep.join(parts)] *)
Fixpoint join_with (sep : string) (parts : list string) : string :=
  match parts with
  | [] => ""
  | [part] => part
  | part :: rest => part +:+ sep +:+ join_with sep rest
  end.

(** [team_display]: an empty or absent cache is false in
    [players_cache and pid in players_cache], and so is an empty or absent
    name in [.get("name") or f"<@{pid}>"]. *)
Definition team_display (team_players : list Z)
    (players_cache : option (gmap Z Profiles.PlayerDoc)) : string :=
  match team_players with
  | [] => "No players"
  | _ =>
      join_with ", "
        ((λ pid,
            match players_cache with
            | Some cache =>
                if bool_decide (cache = ∅) then mention pid
                else
                  match cache !! pid with
                  | Some doc =>
                      if bool_decide (Profiles.name doc = "") then mention pid
                      else Profiles.name doc
                  | None => mention pid
                  end
            | None => mention pid
            end) <$> team_players)
  end.

Inductive TeamsReply :=
  | TeamsTournamentNotFound
  | NoTeamsYet
  | Teams (lines : list (string * string)).

(** [showteams]: the cache holds the profile of every player listed on a
    roster who has one; a line is a team name and what [team_display]
    makes of its roster. *)
Definition showteams (tourney_name : string) (ts : gmap string Tournament)
    (db : gmap Z Profiles.PlayerDoc) : TeamsReply :=
  match ts !! tourney_name with
  | None => TeamsTournamentNotFound
  | Some tourney =>
      match teams tourney with
      | [] => NoTeamsYet
      | _ =>
          let listed := mjoin (teams tourney).*2 in
          let players_cache := filter (λ kv, kv.1 ∈ listed) db in
          Teams ((λ team, (team.1, team_display team.2 (Some players_cache)))
                   <$> teams tourney)
      end
  end.

(** How one player is shown: by the stored name, or as a mention when the
    player has no profile. *)
Definition shown_as (db : gmap Z Profiles.PlayerDoc) (pid : Z) : string :=
  match db !! pid with
  | Some doc => Profiles.name doc
  | None => mention pid
  end.

Definition roster_line (db : gmap Z Profiles.PlayerDoc) (team : string * list Z)
    : string * string :=
  (team.1,
   match team.2 with
   | [] => "No players"
   | _ => join_with ", " (shown_as db <$> team.2)
   end).

Lemma team_display_cached listed db ids :
  names_nonempty db → ids ⊆ listed →
  team_display ids (Some (filter (λ kv, kv.1 ∈ listed) db))
  = (roster_line db ("", ids)).2.
Proof.
  intros Hdb Hsub. unfold team_display, roster_line. cbn [snd].
  destruct ids as [|p ids]; [done|]. f_equal.
  apply list_fmap_ext. intros i pid Hpid.
  apply list_elem_of_lookup_2 in Hpid. apply Hsub in Hpid.
  unfold shown_as.
  destruct (db !! pid) as [doc|] eqn:Hdoc.
  - assert (filter (λ kv : Z * Profiles.PlayerDoc, kv.1 ∈ listed) db !! pid = Some doc)
      as Hcache by (by apply map_lookup_filter_Some).
    rewrite bool_decide_eq_false_2.
    + rewrite Hcache. rewrite bool_decide_eq_false_2; [done|]. by eapply Hdb.
    + intros Hempty. rewrite Hempty in Hcache. by apply lookup_empty_Some in Hcache.
  - case_bool_decide; [done|].
    destruct (filter _ db !! pid) as [doc|] eqn:Hcache; [|done].
    apply map_lookup_filter_Some in Hcache as [Hcache _]. congruence.
Qed.

(** X17: [showteams] answers one line per team, in the order of the teams.
    When no stored name is empty (which the commands above keep), a player
    with a profile is shown by the stored name and a player without one by
    the mention of the id, never otherwise: the cache built from the
    rosters misses no listed player who has a profile, and the fall-back on
    an empty name is not taken.  A team without players is shown as
    "No players", an unknown tournament and a tournament without teams are
    answered as such. *)
Theorem showteams_shows_stored_names
    (tn : string) (ts : gmap string Tournament) (db : gmap Z Profiles.PlayerDoc) :
  names_nonempty db →
  showteams tn ts db
  = match ts !! tn with
    | None => TeamsTournamentNotFound
    | Some tourney =>
        match teams tourney with
        | [] => NoTeamsYet
        | _ => Teams (roster_line db <$> teams tourney)
        end
    end.
Proof.
  intros Hdb. unfold showteams. destruct (ts !! tn) as [tourney|]; [|done].
  destruct (teams tourney) as [|team rest] eqn:Hteams; [done|]. f_equal.
  apply list_fmap_ext. intros i [team_name ids] Hi. unfold roster_line at 1. cbn [fst snd].
  f_equal. rewrite (team_display_cached _ db ids Hdb); [done|].
  intros pid Hpid. apply list_elem_of_join. exists ids. split; [done|].
  apply list_elem_of_fmap. exists (team_name, ids). split; [done|].
  by eapply list_elem_of_lookup_2.
Qed.

(** * The lobby queue

    The queue of the buttons is a list of display names held in memory,
    shared by every queue message.  A handler is taken to run to its end
    before the next one starts.  [messages] are the queue embeds posted so
    far, each as it shows now; a message is known by its position. *)

Module Lobby.

(** The one field of the queue embed. *)
Record Embed := mkEmbed {
  field_name : string;
  field_value : string
}.

(** The line feed, character 10. *)
Definition newline : string :=
  String (Ascii.Ascii false true false true false false false false) "".

(** [f"{i+1}. {p}" for i, p in enumerate(queue)] *)
Definition queue_lines (queue : list string) : list string :=
  imap (λ i p, pretty (S i) +:+ ". " +:+ p) queue.

Definition create_queue_embed (queue : list string) : Embed :=
  match queue with
  | [] => mkEmbed "Current Players (0/10)" "No one has joined yet."
  | _ =>
      mkEmbed ("Current Players (" +:+ pretty (length queue) +:+ "/10)")
        (join_with newline (queue_lines queue))
  end.

(** What is sent beside the embeds. *)
Inductive Notice :=
  | AlreadyInQueue (user : string)
  | NotInQueue (user : string)
  | LobbyReady
  | QueueStarted.

Record State := mkState {
  queue : list string;
  current_queue_message : option nat;
  messages : list Embed;
  notices : list Notice
}.

Definition initial : State := mkState [] None [] [].

Definition set_queue (q : list string) (st : State) : State :=
  mkState q (current_queue_message st) (messages st) (notices st).

Definition notify (n : Notice) (st : State) : State :=
  mkState (queue st) (current_queue_message st) (messages st) (notices st ++ [n]).

(** [channel.send(embed=create_queue_embed(), ...)]: a new message. *)
Definition post (st : State) : State :=
  mkState (queue st) (current_queue_message st)
    (messages st ++ [create_queue_embed (queue st)]) (notices st).

(** [update_queue_message]: edit the tracked message, or post one and
    track it. *)
Definition update_queue_message (st : State) : State :=
  match current_queue_message st with
  | Some handle =>
      mkState (queue st) (Some handle)
        (<[handle := create_queue_embed (queue st)]> (messages st)) (notices st)
  | None =>
      mkState (queue st) (Some (length (messages st)))
        (messages st ++ [create_queue_embed (queue st)]) (notices st)
  end.

(** [queue.remove(user)]: the first occurrence goes. *)
Fixpoint remove (user : string) (q : list string) : list string :=
  match q with
  | [] => []
  | x :: rest => if bool_decide (x = user) then rest else x :: remove user rest
  end.

Definition join_button (user : string) (st : State) : State :=
  if bool_decide (user ∈ queue st) then notify (AlreadyInQueue user) st
  else
    let st1 := update_queue_message (set_queue (queue st ++ [user]) st) in
    if bool_decide (length (queue st1) = 10)
    then post (set_queue [] (notify LobbyReady st1))
    else st1.

Definition leave_button (user : string) (st : State) : State :=
  if bool_decide (user ∉ queue st) then notify (NotInQueue user) st
  else update_queue_message (set_queue (remove user (queue st)) st).

(** [start_queue] assigns [None] to a global named [queue_message], which
    nothing reads; the tracked message stays tracked. *)
Definition start_queue (st : State) : State :=
  update_queue_message (notify QueueStarted (set_queue [] st)).

Definition show_queue (st : State) : State :=
  let st1 := set_queue [] st in
  mkState [] (Some (length (messages st1)))
    (messages st1 ++ [create_queue_embed []]) (notices st1).

Inductive Event :=
  | Join (user : string)
  | Leave (user : string)
  | StartQueue
  | ShowQueue.

Definition handle (ev : Event) (st : State) : State :=
  match ev with
  | Join user => join_button user st
  | Leave user => leave_button user st
  | StartQueue => start_queue st
  | ShowQueue => show_queue st
  end.

Definition run (evs : list Event) (st : State) : State :=
  foldl (λ st ev, handle ev st) st evs.

End Lobby.

(** ** The queue holds fewer than ten, nobody twice *)

Definition queue_ok (st : Lobby.State) : Prop :=
  NoDup (Lobby.queue st) ∧ (length (Lobby.queue st) < 10)%nat.

Lemma update_queue_message_queue st :
  Lobby.queue (Lobby.update_queue_message st) = Lobby.queue st.
Proof. unfold Lobby.update_queue_message. by destruct (Lobby.current_queue_message st). Qed.

Lemma remove_spec user q :
  user ∈ q → NoDup q →
  NoDup (Lobby.remove user q)
  ∧ (user ∉ Lobby.remove user q)
  ∧ (S (length (Lobby.remove user q)) = length q)
  ∧ (∀ x, x ∈ Lobby.remove user q ↔ x ∈ q ∧ x ≠ user).
Proof.
  induction q as [|a q IH]; [by intros ?%elem_of_nil|].
  intros Hin [Ha Hq]%NoDup_cons. cbn [Lobby.remove]. case_bool_decide as Hau.
  - subst a. split; [done|]. split; [done|]. split; [done|].
    intros x. rewrite elem_of_cons. split; [|tauto].
    intros Hx. split; [by right|]. by intros ->.
  - apply elem_of_cons in Hin as [->|Hin]; [done|].
    destruct (IH Hin Hq) as (Hnd & Hout & Hlen & Hiff).
    split; [|split; [|split]].
    + apply NoDup_cons. split; [|done]. rewrite Hiff. tauto.
    + intros [?|?]%elem_of_cons; [congruence|done].
    + cbn. by rewrite Hlen.
    + intros x. rewrite !elem_of_cons, Hiff. split; [|tauto].
      intros [->|[? ?]]; [|tauto]. split; [by left|done].
Qed.

Lemma handle_keeps_queue_ok ev st : queue_ok st → queue_ok (Lobby.handle ev st).
Proof.
  intros [Hnd Hlen]. destruct ev as [user | user | |]; cbn [Lobby.handle].
  - unfold Lobby.join_button. case_bool_decide as Hin; [done|].
    rewrite update_queue_message_queue. cbn [Lobby.set_queue Lobby.queue].
    case_bool_decide as Hfull.
    + split; [apply NoDup_nil_2|cbn; lia].
    + unfold queue_ok. rewrite update_queue_message_queue. cbn.
      rewrite length_app in Hfull |- *. cbn in *. split; [|lia].
      apply NoDup_app. split; [done|]. split; [|apply NoDup_singleton].
      intros x Hx ->%list_elem_of_singleton. done.
  - unfold Lobby.leave_button. case_bool_decide as Hin; [done|].
    unfold queue_ok. rewrite update_queue_message_queue. cbn.
    destruct (remove_spec user _ Hin Hnd) as (Hnd' & _ & Hlen' & _).
    split; [done|lia].
  - unfold Lobby.start_queue, queue_ok. rewrite update_queue_message_queue. cbn.
    split; [apply NoDup_nil_2|lia].
  - split; [apply NoDup_nil_2|cbn; lia].
Qed.

(** X18: the queue never holds ten players and never holds a player twice:
    from a state that is so (the initial, empty one is), every sequence of
    joins, leaves, [start_queue] and [show_queue] leaves a queue without
    duplicates and of fewer than ten names. *)
Theorem queue_stays_below_ten (evs : list Lobby.Event) (st : Lobby.State) :
  queue_ok st →
  NoDup (Lobby.queue (Lobby.run evs st))
  ∧ (length (Lobby.queue (Lobby.run evs st)) < 10)%nat.
Proof.
  revert st. induction evs as [|ev evs IH]; intros st Hst; [done|].
  cbn. by apply IH, handle_keeps_queue_ok.
Qed.

(** ** The tenth player *)

(** The tracked message, when there is one, is a message that was posted. *)
Definition tracked_ok (st : Lobby.State) : Prop :=
  ∀ h, Lobby.current_queue_message st = Some h → (h < length (Lobby.messages st))%nat.

(** The tracked message shows the queue [q]. *)
Definition tracked_shows (st : Lobby.State) (q : list string) : Prop :=
  ∃ h, Lobby.current_queue_message st = Some h
       ∧ Lobby.messages st !! h = Some (Lobby.create_queue_embed q).

Lemma update_queue_message_shows st :
  tracked_ok st →
  tracked_ok (Lobby.update_queue_message st)
  ∧ tracked_shows (Lobby.update_queue_message st) (Lobby.queue st)
  ∧ Lobby.notices (Lobby.update_queue_message st) = Lobby.notices st.
Proof.
  intros Hok. unfold Lobby.update_queue_message, tracked_shows.
  destruct (Lobby.current_queue_message st) as [h|] eqn:Hh; unfold tracked_ok; cbn.
  - specialize (Hok h Hh). split; [|split; [|done]].
    + intros h' [= <-]. by rewrite length_insert.
    + exists h. split; [done|]. by apply list_lookup_insert_eq.
  - split; [|split; [|done]].
    + intros h' [= <-]. rewrite length_app. cbn. lia.
    + eexists. split; [done|]. by apply list_lookup_middle.
Qed.

(** X19: the tenth player fills the lobby.  When nine are waiting and a
    tenth joins, the tracked message is made to show all ten, the lobby is
    announced, the queue is emptied, and the empty queue is posted as a new
    message, the last one, which is not the tracked one: the next change of
    the queue is written to the message that shows the ten. *)
Theorem tenth_join_fills_the_lobby (user : string) (st : Lobby.State) :
  tracked_ok st →
  length (Lobby.queue st) = 9%nat →
  user ∉ Lobby.queue st →
  let st' := Lobby.join_button user st in
  Lobby.queue st' = []
  ∧ Lobby.notices st' = Lobby.notices st ++ [Lobby.LobbyReady]
  ∧ tracked_shows st' (Lobby.queue st ++ [user])
  ∧ last (Lobby.messages st') = Some (Lobby.create_queue_embed [])
  ∧ ∀ h, Lobby.current_queue_message st' = Some h →
         (S h < length (Lobby.messages st'))%nat.
Proof.
  intros Hok Hlen Hout st'. subst st'. unfold Lobby.join_button.
  rewrite bool_decide_eq_false_2 by done.
  set (st0 := Lobby.set_queue (Lobby.queue st ++ [user]) st).
  destruct (update_queue_message_shows st0) as (Hok1 & (h & Hh & Hshow) & Hnot); [done|].
  rewrite bool_decide_eq_true_2
    by (rewrite update_queue_message_queue; cbn; rewrite length_app, Hlen; done).
  cbn. split; [done|]. split; [by rewrite Hnot|]. split; [|split].
  - exists h. split; [done|]. by apply lookup_app_l_Some.
  - by rewrite last_snoc.
  - intros h' Hh'. specialize (Hok1 h' Hh'). rewrite length_app. cbn. lia.
Qed.

(** ** Joining and leaving *)

Lemma remove_snoc user q : user ∉ q → Lobby.remove user (q ++ [user]) = q.
Proof.
  induction q as [|a q IH]; intros Hout; cbn.
  - by rewrite bool_decide_eq_true_2.
  - apply not_elem_of_cons in Hout as [Hne Hout].
    rewrite bool_decide_eq_false_2 by done. by rewrite IH.
Qed.

(** X20: a join shows on the tracked message, and a leave takes it back.  A
    player who is not in a queue of fewer than nine is put last and the
    tracked message shows the new queue; when that player leaves again,
    the queue is the one of before and the tracked message shows it.  A
    join by a player already in the queue and a leave by a player not in
    it change neither the queue nor any message. *)
Theorem join_then_leave_restores_the_queue (user : string) (st : Lobby.State) :
  tracked_ok st →
  (length (Lobby.queue st) < 9)%nat →
  user ∉ Lobby.queue st →
  Lobby.queue (Lobby.join_button user st) = Lobby.queue st ++ [user]
  ∧ tracked_shows (Lobby.join_button user st) (Lobby.queue st ++ [user])
  ∧ Lobby.queue (Lobby.leave_button user (Lobby.join_button user st)) = Lobby.queue st
  ∧ tracked_shows (Lobby.leave_button user (Lobby.join_button user st)) (Lobby.queue st)
  ∧ Lobby.leave_button user st = Lobby.notify (Lobby.NotInQueue user) st
  ∧ Lobby.join_button user (Lobby.join_button user st)
    = Lobby.notify (Lobby.AlreadyInQueue user) (Lobby.join_button user st).
Proof.
  intros Hok Hlen Hout.
  set (st0 := Lobby.set_queue (Lobby.queue st ++ [user]) st).
  assert (Lobby.join_button user st = Lobby.update_queue_message st0) as Hjoin.
  { unfold Lobby.join_button. rewrite bool_decide_eq_false_2 by done. fold st0.
    rewrite bool_decide_eq_false_2; [done|].
    rewrite update_queue_message_queue. cbn. rewrite length_app. cbn. lia. }
  destruct (update_queue_message_shows st0) as (Hok1 & Hshow1 & _); [done|].
  assert (Lobby.queue (Lobby.join_button user st) = Lobby.queue st ++ [user]) as Hq.
  { by rewrite Hjoin, update_queue_message_queue. }
  split; [done|]. split; [by rewrite Hjoin|].
  assert (Lobby.leave_button user (Lobby.join_button user st)
          = Lobby.update_queue_message
              (Lobby.set_queue (Lobby.queue st) (Lobby.join_button user st))) as Hleave.
  { unfold Lobby.leave_button. rewrite Hq.
    rewrite bool_decide_eq_false_2 by (intros Hno; apply Hno, elem_of_app; right; left).
    by rewrite remove_snoc. }
  split; [by rewrite Hleave, update_queue_message_queue|]. split; [|split].
  - rewrite Hleave.
    apply (update_queue_message_shows
             (Lobby.set_queue (Lobby.queue st) (Lobby.join_button user st))).
    rewrite Hjoin. exact Hok1.
  - unfold Lobby.leave_button. by rewrite bool_decide_eq_true_2.
  - unfold Lobby.join_button at 1. rewrite Hq.
    by rewrite bool_decide_eq_true_2 by (apply elem_of_app; right; left).
Qed.

(** * Match ids *)

(** [make_match_id], for the 64 bits that [random.getrandbits(64)] draws:
    the first twelve characters of the decimal numeral. *)
Definition make_match_id (getrandbits : N) : string :=
  String.substring 0 12 (pretty getrandbits).

Lemma string_app_cons (x : Ascii.ascii) (a b : string) :
  String x a +:+ b = String x (a +:+ b).
Proof. done. Qed.

Lemma string_app_assoc (a b c : string) : (a +:+ b) +:+ c = a +:+ (b +:+ c).
Proof. induction a as [|x a IH]; [done|]. rewrite !string_app_cons. by f_equal. Qed.

Lemma string_app_length (a b : string) :
  String.length (a +:+ b) = (String.length a + String.length b)%nat.
Proof.
  induction a as [|x a IH]; [done|]. rewrite string_app_cons. cbn [String.length].
  by rewrite IH.
Qed.

Lemma pretty_N_go_app x s : pretty_N_go x s = pretty_N_go x "" +:+ s.
Proof.
  revert s. induction (N.lt_wf_0 x) as [x _ IH]; intros s.
  destruct (decide (x = 0%N)) as [->|Hx]; [by rewrite !pretty_N_go_0|].
  assert (x `div` 10 < x)%N as Hlt by (apply N.div_lt; lia).
  rewrite !(pretty_N_go_step x) by lia.
  rewrite (IH _ Hlt (String (pretty_N_char (x `mod` 10)) s)).
  rewrite (IH _ Hlt (String (pretty_N_char (x `mod` 10)) "")).
  by rewrite string_app_assoc.
Qed.

(** The numeral of [x] is the numeral of [x / 10] followed by the last
    digit. *)
Lemma pretty_N_snoc (x : N) :
  (10 ≤ x)%N →
  pretty x = pretty (x `div` 10)%N +:+ String (pretty_N_char (x `mod` 10)) "".
Proof.
  intros Hx. unfold pretty, pretty_N.
  assert (x `div` 10 ≠ 0)%N as Hq.
  { intros Hq. apply N.div_small_iff in Hq; lia. }
  rewrite !decide_False by lia.
  rewrite pretty_N_go_step by lia. apply pretty_N_go_app.
Qed.

Lemma pretty_N_digits (k : nat) (x : N) :
  (10 ^ N.of_nat k ≤ x)%N → (k < String.length (pretty x))%nat.
Proof.
  revert x. induction k as [|k IH]; intros x Hx.
  - pose proof (pretty_N_nonempty x) as Hne.
    destruct (pretty x); [done|cbn; lia].
  - rewrite Nat2N.inj_succ, N.pow_succ_r' in Hx.
    assert (10 ≤ x)%N as H10.
    { pose proof (N.pow_nonzero 10 (N.of_nat k)). lia. }
    rewrite pretty_N_snoc, string_app_length by done. cbn.
    assert (k < String.length (pretty (x `div` 10)%N))%nat; [|lia].
    apply IH. apply N.div_le_lower_bound; lia.
Qed.

Lemma substring_none (s : string) : String.substring 0 0 s = "".
Proof. by destruct s. Qed.

Lemma substring_prefix (n : nat) (s t : string) :
  (n ≤ String.length s)%nat → String.substring 0 n (s +:+ t) = String.substring 0 n s.
Proof.
  revert s. induction n as [|n IH]; intros s Hn.
  - by rewrite !substring_none.
  - destruct s as [|c s]; cbn in Hn; [lia|]. rewrite string_app_cons.
    cbn [String.substring]. rewrite IH; [done|lia].
Qed.

Lemma substring_length (n : nat) (s : string) :
  String.length (String.substring 0 n s) = (n `min` String.length s)%nat.
Proof.
  revert s. induction n as [|n IH]; intros s; [by destruct s|].
  destruct s as [|c s]; [done|]. cbn. by rewrite IH.
Qed.

(** X21: a match id is at most twelve characters long, and twelve when the
    number drawn has twelve digits or more; what comes after the twelfth
    digit is dropped.  So two draws that differ in their last digit only, a
    thirteenth digit or later, give the same id: ids of different matches
    can be equal. *)
Theorem match_ids_can_collide (r r' : N) :
  (10 ^ 12 ≤ r)%N →
  (r `div` 10 = r' `div` 10)%N →
  make_match_id r = make_match_id r'
  ∧ String.length (make_match_id r) = 12%nat.
Proof.
  intros Hr Hdiv.
  assert (10 ^ 12 ≤ r')%N as Hr'.
  { pose proof (N.Div0.mul_div_le r 10). pose proof (N.Div0.mul_div_le r' 10).
    pose proof (N.mod_lt r 10). pose proof (N.mod_lt r' 10).
    pose proof (N.div_mod r 10). pose proof (N.div_mod r' 10).
    change (10 ^ 12)%N with 1000000000000%N in *. lia. }
  assert (12 ≤ String.length (pretty (r `div` 10)%N))%nat as Hlen.
  { apply (pretty_N_digits 11). apply N.div_le_lower_bound; [done|].
    change (10 ^ N.of_nat 11)%N with 100000000000%N.
    change (10 ^ 12)%N with 1000000000000%N in Hr. lia. }
  unfold make_match_id. split.
  - rewrite (pretty_N_snoc r), (pretty_N_snoc r')
      by (change (10 ^ 12)%N with 1000000000000%N in *; lia).
    rewrite <- Hdiv. by rewrite !substring_prefix.
  - rewrite substring_length.
    assert (12 < String.length (pretty r))%nat; [|lia].
    apply (pretty_N_digits 12). done.
Qed.

(** Two draws of 64 bits, one apart, with one id. *)
Lemma match_ids_can_collide_witness :
  make_match_id 18446744073709551610 = make_match_id 18446744073709551611
  ∧ String.length (make_match_id 18446744073709551610) = 12%nat.
Proof.
  apply match_ids_can_collide; [by vm_compute|by vm_compute].
Defined.

Example colliding_ids :
  make_match_id 18446744073709551610 = "184467440737"
  ∧ make_match_id 18446744073709551611 = "184467440737"
  ∧ (18446744073709551611 < 2 ^ 64)%N.
Proof. by vm_compute. Qed.

(** * Profiles, teams and the lobby on concrete data *)

Definition alice : Profiles.Member := Profiles.mkMember 1 "Alice".
Definition bob : Profiles.Member := Profiles.mkMember 2 "Bob".

Definition nobody : gmap Z Profiles.PlayerDoc := ∅.

Lemma nobody_has_no_empty_name : names_nonempty nobody.
Proof.
  intros pid doc Hdoc. change nobody with (∅ : gmap Z Profiles.PlayerDoc) in Hdoc.
  by apply lookup_empty_Some in Hdoc.
Qed.

(** Alice has a profile under an older name, Bob has none; the tournament
    exists. *)
Definition al_only : gmap Z Profiles.PlayerDoc :=
  {[ 1%Z := Profiles.mkPlayerDoc "Al" (mkPlayer 2 1 1230) ]}.

Definition one_tournament : gmap string Tournament := {[ "T" := create_tournament_doc ]}.

Lemma addteam_registers_members_witness :
  Profiles.addteam "X" "A" [alice; bob] one_tournament al_only
  = (one_tournament, al_only, TournamentNotFound)
  ∧ ∃ ts' db',
      Profiles.addteam "T" "A" [alice; bob] one_tournament al_only = (ts', db', TeamAdded)
      ∧ Profiles.name <$> db' !! 1%Z = Some "Alice"
      ∧ Profiles.name <$> db' !! 2%Z = Some "Bob"
      ∧ stats_of db' 1 = mkPlayer 2 1 1230
      ∧ stats_of db' 2 = default_player
      ∧ db' !! 3%Z = None.
Proof.
  split.
  - by apply (addteam_registers_members "X" "A" [alice; bob] one_tournament al_only).
  - destruct (addteam_registers_members "T" "A" [alice; bob] one_tournament al_only)
      as [_ Hadd].
    destruct Hadd as (ts' & db' & Hrun & _ & Hstats & Hother & Hname & _);
      [by eexists|by vm_compute|].
    exists ts', db'. split; [done|].
    split; [apply (Hname alice); [set_solver|done|]|].
    { intros m' Hm' Hid. apply list_elem_of_In in Hm'.
      destruct Hm' as [<-|[<-|[]]]; [done|by vm_compute in Hid]. }
    split; [apply (Hname bob); [set_solver|done|]|].
    { intros m' Hm' Hid. apply list_elem_of_In in Hm'.
      destruct Hm' as [<-|[<-|[]]]; [by vm_compute in Hid|done]. }
    split; [by rewrite Hstats|]. split; [by rewrite Hstats|].
    rewrite Hother; [done|]. by vm_compute; intros [?|[?|?]]%list_elem_of_In.
Defined.

Example addteam_renames_al :
  Profiles.addteam "T" "A" [alice; bob] one_tournament al_only
  = ({[ "T" := set_teams [("A", [1; 2]%Z)] create_tournament_doc ]},
     {[ 1%Z := Profiles.mkPlayerDoc "Alice" (mkPlayer 2 1 1230);
        2%Z := Profiles.mkPlayerDoc "Bob" default_player ]},
     TeamAdded).
Proof. by vm_compute. Qed.

Lemma registered_name_is_shown_witness :
  (Profiles.register alice nobody).1 !! 1%Z
  = Some (Profiles.mkPlayerDoc "Alice" (stats_of nobody 1))
  ∧ (∀ q, q ≠ 1%Z → (Profiles.register alice nobody).1 !! q = nobody !! q)
  ∧ Profiles.profile bob (Some alice) (Profiles.register alice nobody).1
    = ((Profiles.register alice nobody).1,
       Profiles.ProfileShown "Alice" (elo (stats_of nobody 1))
         (wins (stats_of nobody 1)) (losses (stats_of nobody 1))).
Proof.
  by apply (registered_name_is_shown alice bob nobody).
Defined.

Example alice_registers_and_is_shown :
  Profiles.profile bob (Some alice) (Profiles.register alice nobody).1
  = ({[ 1%Z := Profiles.mkPlayerDoc "Alice" default_player ]},
     Profiles.ProfileShown "Alice" 1200 0 0).
Proof. by vm_compute. Qed.


Definition profile_commands : list ProfileCommand :=
  [Register alice; Ensure 7 None; Ensure 8 (Some ""); SetElo true bob 1500;
   Register (Profiles.mkMember 1 "")].

Lemma stored_names_are_never_empty_witness :
  names_nonempty (profile_run profile_commands nobody)
  ∧ ∀ author member shown rating won lost,
      (Profiles.profile author member (profile_run profile_commands nobody)).2
      = Profiles.ProfileShown shown rating won lost →
      shown ≠ "".
Proof.
  apply (stored_names_are_never_empty profile_commands nobody).
  exact nobody_has_no_empty_name.
Defined.

Example names_after_the_commands :
  Profiles.name <$> profile_run profile_commands nobody
  = {[ 1%Z := "Alice"; 2%Z := "Bob"; 7%Z := "7"; 8%Z := "8" ]}.
Proof. by vm_compute. Qed.

(** The players 1 and 2 of team A have a profile, the others have none. *)
Definition two_profiles : gmap Z Profiles.PlayerDoc :=
  (Profiles.ensure_player_doc 2 None
     (Profiles.ensure_player_doc 1 (Some "Alice") nobody).1).1.

Lemma showteams_shows_stored_names_witness :
  showteams "T" (tournaments three_teams) two_profiles
  = match tournaments three_teams !! "T" with
    | None => TeamsTournamentNotFound
    | Some tourney =>
        match teams tourney with
        | [] => NoTeamsYet
        | _ => Teams (roster_line two_profiles <$> teams tourney)
        end
    end.
Proof.
  apply (showteams_shows_stored_names "T" (tournaments three_teams) two_profiles).
  apply ensure_keeps_names_nonempty, ensure_keeps_names_nonempty.
  exact nobody_has_no_empty_name.
Defined.

Example three_teams_shown :
  showteams "T" (tournaments three_teams) two_profiles
  = Teams [("A", "Alice, 2"); ("B", "<@3>, <@4>"); ("C", "<@5>, <@6>")].
Proof. by vm_compute. Qed.

(** Nine players in the lobby, after [show_queue] posted the message. *)
Definition nine_waiting : Lobby.State :=
  Lobby.run (Lobby.ShowQueue
             :: (Lobby.Join <$> ["p1"; "p2"; "p3"; "p4"; "p5"; "p6"; "p7"; "p8"; "p9"]))
    Lobby.initial.

Lemma nine_waiting_tracked : tracked_ok nine_waiting.
Proof. intros h Hh. vm_compute in Hh. injection Hh as <-. vm_compute. lia. Qed.

Lemma initial_tracked : tracked_ok Lobby.initial.
Proof. by intros h Hh. Qed.

Lemma queue_stays_below_ten_witness :
  NoDup (Lobby.queue (Lobby.run [Lobby.Join "p10"; Lobby.Join "p11"; Lobby.Leave "p11"]
                        nine_waiting))
  ∧ (length (Lobby.queue (Lobby.run [Lobby.Join "p10"; Lobby.Join "p11"; Lobby.Leave "p11"]
                            nine_waiting)) < 10)%nat.
Proof.
  apply (queue_stays_below_ten _ nine_waiting).
  split; [by_computing|]. vm_compute. lia.
Defined.

Lemma tenth_join_fills_the_lobby_witness :
  Lobby.queue (Lobby.join_button "p10" nine_waiting) = []
  ∧ Lobby.notices (Lobby.join_button "p10" nine_waiting)
    = Lobby.notices nine_waiting ++ [Lobby.LobbyReady]
  ∧ tracked_shows (Lobby.join_button "p10" nine_waiting)
      (Lobby.queue nine_waiting ++ ["p10"])
  ∧ last (Lobby.messages (Lobby.join_button "p10" nine_waiting))
    = Some (Lobby.create_queue_embed [])
  ∧ ∀ h, Lobby.current_queue_message (Lobby.join_button "p10" nine_waiting) = Some h →
         (S h < length (Lobby.messages (Lobby.join_button "p10" nine_waiting)))%nat.
Proof.
  apply (tenth_join_fills_the_lobby "p10" nine_waiting).
  - exact nine_waiting_tracked.
  - by vm_compute.
  - by_computing.
Defined.

Example lobby_after_the_tenth :
  Lobby.join_button "p10" nine_waiting
  = Lobby.mkState [] (Some 0%nat)
      [Lobby.create_queue_embed
         ["p1"; "p2"; "p3"; "p4"; "p5"; "p6"; "p7"; "p8"; "p9"; "p10"];
       Lobby.create_queue_embed []]
      [Lobby.LobbyReady]
  ∧ Lobby.field_name (Lobby.create_queue_embed ["p1"; "p2"]) = "Current Players (2/10)"
  ∧ Lobby.queue_lines ["p1"; "p2"] = ["1. p1"; "2. p2"].
Proof. by vm_compute. Qed.

Lemma join_then_leave_restores_the_queue_witness :
  Lobby.queue (Lobby.join_button "p1" Lobby.initial) = Lobby.queue Lobby.initial ++ ["p1"]
  ∧ tracked_shows (Lobby.join_button "p1" Lobby.initial)
      (Lobby.queue Lobby.initial ++ ["p1"])
  ∧ Lobby.queue (Lobby.leave_button "p1" (Lobby.join_button "p1" Lobby.initial))
    = Lobby.queue Lobby.initial
  ∧ tracked_shows (Lobby.leave_button "p1" (Lobby.join_button "p1" Lobby.initial))
      (Lobby.queue Lobby.initial)
  ∧ Lobby.leave_button "p1" Lobby.initial
    = Lobby.notify (Lobby.NotInQueue "p1") Lobby.initial
  ∧ Lobby.join_button "p1" (Lobby.join_button "p1" Lobby.initial)
    = Lobby.notify (Lobby.AlreadyInQueue "p1") (Lobby.join_button "p1" Lobby.initial).
Proof.
  apply (join_then_leave_restores_the_queue "p1" Lobby.initial).
  - exact initial_tracked.
  - cbn. lia.
  - by_computing.
Defined.
